(** * CSC111 Checkers: rules engine, search bots and tree codec

    A shallow embedding of [final_game.py] and [final_trees_and_bots.py].

    Python objects that the program mutates in place (pieces, board rows,
    boards, games) live in an object store and are referred to by address;
    two references to one address are aliases.  Values that are never
    shared while they are mutated ([Move] records, game trees, strings,
    numbers) are plain Rocq values.  Every method is a computation in a
    state-and-exception monad over the store. *)

From Stdlib Require Import ZArith Lia Ascii String DecimalString DecimalNat.
From stdpp Require Import base list gmap strings.


(** ** Python primitives *)

(** [str(n)] for a natural number. *)
Definition str (n : nat) : string := NilEmpty.string_of_uint (Nat.to_uint n).

(** The value of a decimal digit character. *)
Definition digit_of_ascii (c : ascii) : option nat :=
  let n := nat_of_ascii c in
  if (48 <=? n)%nat && (n <=? 57)%nat then Some (n - 48)%nat else None.

(** [int(s[i])]: the character at index [i] read as a number; [None] stands
    for the [IndexError] or [ValueError] Python raises. *)
Definition int_at (s : string) (i : nat) : option nat :=
  match String.get i s with
  | Some c => digit_of_ascii c
  | None => None
  end.

(** ** final_game.py: data *)

Record Move := mkMove { move : string; piece_captured : bool }.

Record Piece := mkPiece { is_white : bool; is_king : bool }.

(** Addresses into the store. *)
Abbreviation ref := nat (only parsing).

(** A [CheckersGame] object; [board] is a reference to the outer list. *)
Record CheckersGame := mkGame {
  board : ref;
  is_white_move : bool;
  gamestate : string;
  white_win : bool;
  player_turn : bool;
  moves_since_cap : Z;
  is_draw : bool;
  main_game : bool
}.

(** The object store.  An address is an index; allocation appends, and
    nothing is ever freed.  A board is a list of references to row lists, a
    row is a list whose items are [None] or a reference to a [Piece]. *)
Record Heap := mkHeap {
  pieces : list Piece;
  rows : list (list (option ref));
  boards : list (list ref);
  games : list CheckersGame
}.

(** ** The monad of methods: state plus exceptions *)

Definition M (A : Type) : Type := Heap -> option (A * Heap).

Definition ret {A} (a : A) : M A := fun h => Some (a, h).

Definition bind {A B} (m : M A) (f : A -> M B) : M B :=
  fun h => match m h with
           | Some (a, h') => f a h'
           | None => None
           end.

Definition raise {A} : M A := fun _ => None.

Definition lift {A} (o : option A) : M A :=
  fun h => match o with Some a => Some (a, h) | None => None end.

Declare Scope py_scope.
Delimit Scope py_scope with py.
Notation "x <- m ;; k" := (bind m (fun x => k))
  (at level 100, m at next level, right associativity) : py_scope.
Notation "m ;;; k" := (bind m (fun _ => k))
  (at level 100, right associativity) : py_scope.
Local Open Scope py_scope.

(** [for x in l: acc.extend(body(x))] *)
Fixpoint for_extend {A B} (l : list A) (body : A -> M (list B)) : M (list B) :=
  match l with
  | [] => ret []
  | x :: l' => ys <- body x ;; zs <- for_extend l' body ;; ret (ys ++ zs)
  end.

(** [for x in l: body(x)] *)
Fixpoint for_each {A} (l : list A) (body : A -> M unit) : M unit :=
  match l with
  | [] => ret tt
  | x :: l' => body x ;;; for_each l' body
  end.

(** *** Reading and writing objects *)

Definition get_piece (p : ref) : M Piece := fun h => lift (pieces h !! p) h.
Definition get_row (r : ref) : M (list (option ref)) := fun h => lift (rows h !! r) h.
Definition get_board (b : ref) : M (list ref) := fun h => lift (boards h !! b) h.
Definition get_game (g : ref) : M CheckersGame := fun h => lift (games h !! g) h.

Definition alloc_piece (pc : Piece) : M ref :=
  fun h => Some (length (pieces h),
                 mkHeap (pieces h ++ [pc]) (rows h) (boards h) (games h)).
Definition alloc_row (r : list (option ref)) : M ref :=
  fun h => Some (length (rows h),
                 mkHeap (pieces h) (rows h ++ [r]) (boards h) (games h)).
Definition alloc_board (b : list ref) : M ref :=
  fun h => Some (length (boards h),
                 mkHeap (pieces h) (rows h) (boards h ++ [b]) (games h)).
Definition alloc_game (g : CheckersGame) : M ref :=
  fun h => Some (length (games h),
                 mkHeap (pieces h) (rows h) (boards h) (games h ++ [g])).

Definition put_piece (p : ref) (pc : Piece) : M unit :=
  fun h => if decide (p < length (pieces h))
           then Some (tt, mkHeap (<[p:=pc]> (pieces h)) (rows h) (boards h) (games h))
           else None.
Definition put_row (r : ref) (row : list (option ref)) : M unit :=
  fun h => if decide (r < length (rows h))
           then Some (tt, mkHeap (pieces h) (<[r:=row]> (rows h)) (boards h) (games h))
           else None.
Definition put_game (g : ref) (gm : CheckersGame) : M unit :=
  fun h => if decide (g < length (games h))
           then Some (tt, mkHeap (pieces h) (rows h) (boards h) (<[g:=gm]> (games h)))
           else None.

(** [self.board[r][c]]; an index out of range raises. *)
Definition board_get (self : ref) (r c : nat) : M (option ref) :=
  g <- get_game self ;;
  b <- get_board (board g) ;;
  rid <- lift (b !! r) ;;
  row <- get_row rid ;;
  lift (row !! c).

(** [self.board[r][c] = v]: an update of the row object in place. *)
Definition board_set (self : ref) (r c : nat) (v : option ref) : M unit :=
  g <- get_game self ;;
  b <- get_board (board g) ;;
  rid <- lift (b !! r) ;;
  row <- get_row rid ;;
  if decide (c < length row) then put_row rid (<[c:=v]> row) else raise.

(** [piece.is_king = True] *)
Definition set_is_king (p : ref) : M unit :=
  pc <- get_piece p ;;
  put_piece p (mkPiece (is_white pc) true).

(** ** final_game.py: module initialisation *)

(** A board literal: a list of row literals whose items are [None] or a
    newly made piece.  [Piece(w)] makes a man; a caller who wants a king
    sets [is_king] on the new object before it is shared. *)
Fixpoint row_literal (cells : list (option Piece)) : M (list (option ref)) :=
  match cells with
  | [] => ret []
  | None :: cs => rest <- row_literal cs ;; ret (None :: rest)
  | Some pc :: cs => p <- alloc_piece pc ;; rest <- row_literal cs ;; ret (Some p :: rest)
  end.

Fixpoint rows_literal (rs : list (list (option Piece))) : M (list ref) :=
  match rs with
  | [] => ret []
  | r :: rs' =>
      cells <- row_literal r ;; rid <- alloc_row cells ;;
      rest <- rows_literal rs' ;; ret (rid :: rest)
  end.

Definition board_literal (rs : list (list (option Piece))) : M ref :=
  b <- rows_literal rs ;; alloc_board b.

(** [Piece(True)], [Piece(False)] and [None] *)
Definition W : option Piece := Some (mkPiece true false).
Definition B : option Piece := Some (mkPiece false false).
Definition o : option Piece := None.

Definition default_layout : list (list (option Piece)) :=
  [ [W; o; W; o; W; o; W; o];
    [o; W; o; W; o; W; o; W];
    [W; o; W; o; W; o; W; o];
    [o; o; o; o; o; o; o; o];
    [o; o; o; o; o; o; o; o];
    [o; B; o; B; o; B; o; B];
    [B; o; B; o; B; o; B; o];
    [o; B; o; B; o; B; o; B] ].

Definition empty_heap : Heap := mkHeap [] [] [] [].

(** The store after [import final_game]: the module body has built the one
    list object bound to the global [DEFAULT_BOARD_SETUP]. *)
Definition module_init : option (ref * Heap) :=
  board_literal default_layout empty_heap.

Definition initial_heap : Heap :=
  match module_init with Some (_, h) => h | None => empty_heap end.

(** The global name [DEFAULT_BOARD_SETUP]; it is never rebound. *)
Definition DEFAULT_BOARD_SETUP : ref :=
  match module_init with Some (b, _) => b | None => 0 end.

(** ** final_game.py: class CheckersGame *)

(** [CheckersGame.__init__]; [brd = None] is the default argument. *)
Definition CheckersGame_init (white_move : bool) (brd : option ref)
    (state : string) : M ref :=
  let b := match brd with
           | None => DEFAULT_BOARD_SETUP
           | Some b => b
           end in
  alloc_game (mkGame b white_move state true true 0 false true).

(** [CheckersGame()] *)
Definition CheckersGame_new : M ref := CheckersGame_init true None "MENU".

(** The test of the three-way [if/elif/elif] of
    [return_all_pieces_location] for one cell. *)
Definition cell_selected (colour : string) (cell : option ref) : M bool :=
  match cell with
  | None => ret false
  | Some p =>
      if (colour =? "any")%string then ret true
      else
        pc <- get_piece p ;;
        if (colour =? "white")%string && is_white pc then ret true
        else if (colour =? "black")%string && negb (is_white pc) then ret true
        else ret false
  end.

Definition return_all_pieces_location (self : ref) (colour : string)
    : M (list ((nat * nat) * ref)) :=
  for_extend (seq 0 8) (fun row =>
    for_extend (seq 0 8) (fun col =>
      cell <- board_get self row col ;;
      sel <- cell_selected colour cell ;;
      match cell with
      | Some p => if sel then ret [((row, col), p)] else ret []
      | None => ret []
      end)).

(** *** [deepcopy] of a board.  The memo keeps, for every object already
    copied, the address of its copy, so sharing inside the board is
    reproduced in the copy. *)

Definition deepcopy_piece (memo : gmap nat nat) (p : ref) : M (ref * gmap nat nat) :=
  match memo !! p with
  | Some p' => ret (p', memo)
  | None =>
      pc <- get_piece p ;;
      p' <- alloc_piece pc ;;
      ret (p', <[p:=p']> memo)
  end.

Fixpoint deepcopy_cells (memo : gmap nat nat) (cells : list (option ref))
    : M (list (option ref) * gmap nat nat) :=
  match cells with
  | [] => ret ([], memo)
  | None :: cs =>
      r1 <- deepcopy_cells memo cs ;; let '(rest, memo') := r1 in ret (None :: rest, memo')
  | Some p :: cs =>
      r2 <- deepcopy_piece memo p ;; let '(p', memo1) := r2 in
      r3 <- deepcopy_cells memo1 cs ;; let '(rest, memo2) := r3 in
      ret (Some p' :: rest, memo2)
  end.

Definition deepcopy_row (rmemo pmemo : gmap nat nat) (rid : ref)
    : M (ref * gmap nat nat * gmap nat nat) :=
  match rmemo !! rid with
  | Some rid' => ret (rid', rmemo, pmemo)
  | None =>
      row <- get_row rid ;;
      r4 <- deepcopy_cells pmemo row ;; let '(cells, pmemo') := r4 in
      rid' <- alloc_row cells ;;
      ret (rid', <[rid:=rid']> rmemo, pmemo')
  end.

Fixpoint deepcopy_rows (rmemo pmemo : gmap nat nat) (rids : list ref)
    : M (list ref * gmap nat nat * gmap nat nat) :=
  match rids with
  | [] => ret ([], rmemo, pmemo)
  | rid :: rest =>
      r5 <- deepcopy_row rmemo pmemo rid ;; let '(rid', rmemo1, pmemo1) := r5 in
      r6 <- deepcopy_rows rmemo1 pmemo1 rest ;; let '(rest', rmemo2, pmemo2) := r6 in
      ret (rid' :: rest', rmemo2, pmemo2)
  end.

(** [deepcopy(self.board)] *)
Definition deepcopy_board (b : ref) : M ref :=
  rids <- get_board b ;;
  r7 <- deepcopy_rows ∅ ∅ rids ;; let '(rids', _, _) := r7 in
  alloc_board rids'.

Definition make_copy_game (self : ref) : M ref :=
  g <- get_game self ;;
  b' <- deepcopy_board (board g) ;;
  copy_game <- CheckersGame_init (is_white_move g) (Some b') "MENU" ;;
  cg <- get_game copy_game ;;
  put_game copy_game
    (mkGame (board cg) (is_white_move cg) (gamestate cg) (white_win cg)
            (player_turn cg) 0 (is_draw cg) false) ;;;
  ret copy_game.

(** *** The four directional probes.

    The probes and [_check_additional_capture] call each other; the probes
    take the method they call back as the parameter [extra].  [white] is
    the side to move, [double] is true when the probe continues a capture
    chain. *)

Definition simple_move (loc dst : nat * nat) : Move :=
  mkMove (str loc.1 +:+ str loc.2 +:+ str dst.1 +:+ str dst.2) false.

Definition capture_move (loc dst : nat * nat) : Move :=
  mkMove (str loc.1 +:+ str loc.2 +:+ str dst.1 +:+ str dst.2) true.

Definition check_tl (extra : ref -> nat * nat -> nat * nat -> ref -> M (list Move))
    (self : ref) (white : bool) (loc : nat * nat) (piece_used : ref)
    (double : bool) : M (list Move) :=
  if negb (loc.2 =? 0) && negb (loc.1 =? 7) && white then
    c <- board_get self (loc.1 + 1) (loc.2 - 1) ;;
    match c with
    | None =>
        if negb double then ret [simple_move loc (loc.1 + 1, loc.2 - 1)]
        else ret []
    | Some p =>
        pc <- get_piece p ;;
        if negb (is_white pc) && (1 <? loc.2) && (loc.1 <? 6) then
          c2 <- board_get self (loc.1 + 2) (loc.2 - 2) ;;
          match c2 with
          | None =>
              more <- extra self (loc.1, loc.2) (loc.1 + 2, loc.2 - 2) piece_used ;;
              ret (capture_move loc (loc.1 + 2, loc.2 - 2) :: more)
          | Some _ => ret []
          end
        else ret []
    end
  else if negb (loc.2 =? 0) && negb (loc.1 =? 7) && negb white then
    c <- board_get self (loc.1 + 1) (loc.2 - 1) ;;
    match c with
    | None =>
        if negb double then ret [simple_move loc (loc.1 + 1, loc.2 - 1)]
        else ret []
    | Some p =>
        pc <- get_piece p ;;
        if is_white pc && (1 <? loc.2) && (loc.1 <? 6) then
          c2 <- board_get self (loc.1 + 2) (loc.2 - 2) ;;
          match c2 with
          | None =>
              more <- extra self (loc.1, loc.2) (loc.1 + 2, loc.2 - 2) piece_used ;;
              ret (capture_move loc (loc.1 + 2, loc.2 - 2) :: more)
          | Some _ => ret []
          end
        else ret []
    end
  else ret [].

Definition check_tr (extra : ref -> nat * nat -> nat * nat -> ref -> M (list Move))
    (self : ref) (white : bool) (loc : nat * nat) (piece_used : ref)
    (double : bool) : M (list Move) :=
  if negb (loc.2 =? 7) && negb (loc.1 =? 7) && white then
    c <- board_get self (loc.1 + 1) (loc.2 + 1) ;;
    match c with
    | None =>
        if negb double then ret [simple_move loc (loc.1 + 1, loc.2 + 1)]
        else ret []
    | Some p =>
        pc <- get_piece p ;;
        if negb (is_white pc) && (loc.2 <? 6) && (loc.1 <? 6) then
          c2 <- board_get self (loc.1 + 2) (loc.2 + 2) ;;
          match c2 with
          | None =>
              more <- extra self (loc.1, loc.2) (loc.1 + 2, loc.2 + 2) piece_used ;;
              ret (capture_move loc (loc.1 + 2, loc.2 + 2) :: more)
          | Some _ => ret []
          end
        else ret []
    end
  else if negb (loc.2 =? 7) && negb (loc.1 =? 7) && negb white then
    c <- board_get self (loc.1 + 1) (loc.2 + 1) ;;
    match c with
    | None =>
        if negb double then ret [simple_move loc (loc.1 + 1, loc.2 + 1)]
        else ret []
    | Some p =>
        pc <- get_piece p ;;
        if is_white pc && (loc.2 <? 6) && (loc.1 <? 6) then
          c2 <- board_get self (loc.1 + 2) (loc.2 + 2) ;;
          match c2 with
          | None =>
              more <- extra self (loc.1, loc.2) (loc.1 + 2, loc.2 + 2) piece_used ;;
              ret (capture_move loc (loc.1 + 2, loc.2 + 2) :: more)
          | Some _ => ret []
          end
        else ret []
    end
  else ret [].

Definition check_bl (extra : ref -> nat * nat -> nat * nat -> ref -> M (list Move))
    (self : ref) (white : bool) (loc : nat * nat) (piece_used : ref)
    (double : bool) : M (list Move) :=
  if negb (loc.2 =? 0) && negb (loc.1 =? 0) && white then
    c <- board_get self (loc.1 - 1) (loc.2 - 1) ;;
    match c with
    | None =>
        if negb double then ret [simple_move loc (loc.1 - 1, loc.2 - 1)]
        else ret []
    | Some p =>
        pc <- get_piece p ;;
        if negb (is_white pc) && (1 <? loc.2) && (1 <? loc.1) then
          c2 <- board_get self (loc.1 - 2) (loc.2 - 2) ;;
          match c2 with
          | None =>
              more <- extra self (loc.1, loc.2) (loc.1 - 2, loc.2 - 2) piece_used ;;
              ret (capture_move loc (loc.1 - 2, loc.2 - 2) :: more)
          | Some _ => ret []
          end
        else ret []
    end
  else if negb (loc.2 =? 0) && negb (loc.1 =? 0) && negb white then
    c <- board_get self (loc.1 - 1) (loc.2 - 1) ;;
    match c with
    | None =>
        if negb double then ret [simple_move loc (loc.1 - 1, loc.2 - 1)]
        else ret []
    | Some p =>
        pc <- get_piece p ;;
        if is_white pc && (1 <? loc.2) && (1 <? loc.1) then
          c2 <- board_get self (loc.1 - 2) (loc.2 - 2) ;;
          match c2 with
          | None =>
              more <- extra self (loc.1, loc.2) (loc.1 - 2, loc.2 - 2) piece_used ;;
              ret (capture_move loc (loc.1 - 2, loc.2 - 2) :: more)
          | Some _ => ret []
          end
        else ret []
    end
  else ret [].

Definition check_br (extra : ref -> nat * nat -> nat * nat -> ref -> M (list Move))
    (self : ref) (white : bool) (loc : nat * nat) (piece_used : ref)
    (double : bool) : M (list Move) :=
  if negb (loc.2 =? 7) && negb (loc.1 =? 0) && white then
    c <- board_get self (loc.1 - 1) (loc.2 + 1) ;;
    match c with
    | None =>
        if negb double then ret [simple_move loc (loc.1 - 1, loc.2 + 1)]
        else ret []
    | Some p =>
        pc <- get_piece p ;;
        if negb (is_white pc) && (loc.2 <? 6) && (1 <? loc.1) then
          c2 <- board_get self (loc.1 - 2) (loc.2 + 2) ;;
          match c2 with
          | None =>
              more <- extra self (loc.1, loc.2) (loc.1 - 2, loc.2 + 2) piece_used ;;
              ret (capture_move loc (loc.1 - 2, loc.2 + 2) :: more)
          | Some _ => ret []
          end
        else ret []
    end
  else if negb (loc.2 =? 7) && negb (loc.1 =? 0) && negb white then
    c <- board_get self (loc.1 - 1) (loc.2 + 1) ;;
    match c with
    | None =>
        if negb double then ret [simple_move loc (loc.1 - 1, loc.2 + 1)]
        else ret []
    | Some p =>
        pc <- get_piece p ;;
        if is_white pc && (loc.2 <? 6) && (1 <? loc.1) then
          c2 <- board_get self (loc.1 - 2) (loc.2 + 2) ;;
          match c2 with
          | None =>
              more <- extra self (loc.1, loc.2) (loc.1 - 2, loc.2 + 2) piece_used ;;
              ret (capture_move loc (loc.1 - 2, loc.2 + 2) :: more)
          | Some _ => ret []
          end
        else ret []
    end
  else ret [].

(** [possible_move.move = str(og_loc[0]) + str(og_loc[1]) + possible_move.move]
    on every element of the list.  Each [Move] object of the list was created
    by the probe that returned it and is referenced from nowhere else, so the
    update in place is a map. *)
Definition prepend_origin (og_loc : nat * nat) (possible_move : Move) : Move :=
  mkMove (str og_loc.1 +:+ str og_loc.2 +:+ move possible_move)
         (piece_captured possible_move).

(** The recursion ends because every call works on a copy of the board with
    one more piece removed; [fuel] bounds the depth of the capture chain and
    running out of it is reported as failure. *)
Fixpoint _check_additional_capture (fuel : nat) (self : ref)
    (og_loc loc : nat * nat) (piece_used : ref) : M (list Move) :=
  match fuel with
  | O => raise
  | S fuel' =>
      let extra := _check_additional_capture fuel' in
      test_game <- make_copy_game self ;;
      board_set test_game ((og_loc.1 + loc.1) / 2) ((og_loc.2 + loc.2) / 2) None ;;;
      g <- get_game self ;;
      pu <- get_piece piece_used ;;
      moves_list <-
        (if is_white_move g && negb (is_king pu) then
           l1 <- check_tl extra test_game (is_white_move g) loc piece_used true ;;
           l2 <- check_tr extra test_game (is_white_move g) loc piece_used true ;;
           ret (l1 ++ l2)
         else if negb (is_white_move g) && negb (is_king pu) then
           l1 <- check_bl extra test_game (is_white_move g) loc piece_used true ;;
           l2 <- check_br extra test_game (is_white_move g) loc piece_used true ;;
           ret (l1 ++ l2)
         else
           l1 <- check_tl extra test_game (is_white_move g) loc piece_used true ;;
           l2 <- check_tr extra test_game (is_white_move g) loc piece_used true ;;
           l3 <- check_bl extra test_game (is_white_move g) loc piece_used true ;;
           l4 <- check_br extra test_game (is_white_move g) loc piece_used true ;;
           ret (l1 ++ l2 ++ l3 ++ l4)) ;;
      ret (map (prepend_origin og_loc) moves_list)
  end.

(** A board has 64 squares, so a capture chain is shorter than this. *)
Definition chain_fuel : nat := 64.

(** The body of the loop over [pieces_to_check], shared by
    [find_legal_moves] and [find_legal_moves_one_piece]: two forward probes,
    and the two backward ones for a king. *)
Definition probe_piece (self : ref) (white : bool) (piece_info : (nat * nat) * ref)
    : M (list Move) :=
  let extra := _check_additional_capture chain_fuel in
  if white then
    l1 <- check_tl extra self white piece_info.1 piece_info.2 false ;;
    l2 <- check_tr extra self white piece_info.1 piece_info.2 false ;;
    pc <- get_piece piece_info.2 ;;
    if is_king pc then
      l3 <- check_bl extra self white piece_info.1 piece_info.2 false ;;
      l4 <- check_br extra self white piece_info.1 piece_info.2 false ;;
      ret (l1 ++ l2 ++ l3 ++ l4)
    else ret (l1 ++ l2)
  else
    l1 <- check_bl extra self white piece_info.1 piece_info.2 false ;;
    l2 <- check_br extra self white piece_info.1 piece_info.2 false ;;
    pc <- get_piece piece_info.2 ;;
    if is_king pc then
      l3 <- check_tl extra self white piece_info.1 piece_info.2 false ;;
      l4 <- check_tr extra self white piece_info.1 piece_info.2 false ;;
      ret (l1 ++ l2 ++ l3 ++ l4)
    else ret (l1 ++ l2).

(** [if capture_moves != []: return capture_moves else: return normal_moves] *)
Definition captures_first (normal_moves : list Move) : list Move :=
  let capture_moves := filter (fun m => piece_captured m = true) normal_moves in
  match capture_moves with
  | [] => normal_moves
  | _ :: _ => capture_moves
  end.

Definition find_legal_moves (self : ref) : M (list Move) :=
  g <- get_game self ;;
  pieces_to_check <-
    return_all_pieces_location self (if is_white_move g then "white" else "black") ;;
  normal_moves <- for_extend pieces_to_check (probe_piece self (is_white_move g)) ;;
  ret (captures_first normal_moves).

Definition find_legal_moves_one_piece (self : ref) (piece_info : (nat * nat) * ref)
    : M (list Move) :=
  g <- get_game self ;;
  normal_moves <- probe_piece self (is_white_move g) piece_info ;;
  ret (captures_first normal_moves).

(** [_update_pieces] *)
Definition _update_pieces (self : ref) : M unit :=
  locations <- return_all_pieces_location self "any" ;;
  for_each locations (fun piece_loc =>
    pc <- get_piece piece_loc.2 ;;
    if is_white pc && (piece_loc.1.1 =? 7) then set_is_king piece_loc.2
    else if negb (is_white pc) && (piece_loc.1.1 =? 0) then set_is_king piece_loc.2
    else ret tt).

(** One hop of [make_move]: the tuple assignment
    [board[a][b], board[c][d] = None, board[a][b]]. *)
Definition relocate (self : ref) (s : string) (i : nat) : M unit :=
  a <- lift (int_at s i) ;;
  b <- lift (int_at s (i + 1)) ;;
  piece <- board_get self a b ;;
  board_set self a b None ;;;
  c <- lift (int_at s (i + 2)) ;;
  d <- lift (int_at s (i + 3)) ;;
  board_set self c d piece.

(** The second statement of the capture loop: the square half-way between
    the two ends of the hop is emptied. *)
Definition remove_jumped (self : ref) (s : string) (i : nat) : M unit :=
  a <- lift (int_at s i) ;;
  c <- lift (int_at s (i + 2)) ;;
  b <- lift (int_at s (i + 1)) ;;
  d <- lift (int_at s (i + 3)) ;;
  board_set self ((a + c) / 2) ((b + d) / 2) None.

Definition set_moves_since_cap (self : ref) (n : Z) : M unit :=
  g <- get_game self ;;
  put_game self (mkGame (board g) (is_white_move g) (gamestate g) (white_win g)
                        (player_turn g) n (is_draw g) (main_game g)).

Definition set_is_white_move (self : ref) (b : bool) : M unit :=
  g <- get_game self ;;
  put_game self (mkGame (board g) b (gamestate g) (white_win g)
                        (player_turn g) (moves_since_cap g) (is_draw g) (main_game g)).

(** [self.white_win = w; self.gamestate = 'END'], and [self.is_draw = True]
    before the latter when [draw] is set. *)
Definition end_game (self : ref) (w : bool) (draw : bool) : M unit :=
  g <- get_game self ;;
  put_game self (mkGame (board g) (is_white_move g) "END" w (player_turn g)
                        (moves_since_cap g)
                        (if draw then true else is_draw g) (main_game g)).

Definition is_nil {A} (l : list A) : bool :=
  match l with [] => true | _ => false end.

Definition make_move (self : ref) (m : Move) : M unit :=
  (if negb (piece_captured m) then relocate self (move m) 0
   else
     set_moves_since_cap self (-1) ;;;
     for_each (seq 0 (String.length (move m) / 2 - 1)) (fun submove_num =>
       relocate self (move m) (submove_num * 2) ;;;
       remove_jumped self (move m) (submove_num * 2))) ;;;
  g <- get_game self ;;
  set_is_white_move self (negb (is_white_move g)) ;;;
  _update_pieces self ;;;
  g <- get_game self ;;
  set_moves_since_cap self (moves_since_cap g + 1) ;;;
  legal <- find_legal_moves self ;;
  g <- get_game self ;;
  if is_nil legal && is_white_move g && main_game g then end_game self false false
  else
    legal' <- find_legal_moves self ;;
    g <- get_game self ;;
    if is_nil legal' && negb (is_white_move g) && main_game g then end_game self true false
    else if (50 <=? moves_since_cap g)%Z && main_game g then end_game self true true
    else ret tt.

(** ** final_trees_and_bots.py: game trees and bots *)

#[warnings="-register-all"] Inductive CheckersGameTree := Tree {
  tree_move : Move;
  white_turn : bool;
  subtrees : list CheckersGameTree
}.

(** Scores: Python integers together with the floats [-inf] and [inf]. *)
Inductive num := NegInf | Int (z : Z) | PosInf.

Definition num_lt (a b : num) : bool :=
  match a, b with
  | NegInf, NegInf => false
  | NegInf, _ => true
  | Int x, Int y => (x <? y)%Z
  | Int _, PosInf => true
  | _, _ => false
  end.

Definition num_le (a b : num) : bool := negb (num_lt b a).

(** [max(a, b)] keeps its first argument unless the second is larger;
    [min(a, b)] keeps it unless the second is smaller. *)
Definition num_max (a b : num) : num := if num_lt a b then b else a.
Definition num_min (a b : num) : num := if num_lt b a then b else a.

(** [for x in l: acc.append(body(x))] *)
Fixpoint for_append {A B} (l : list A) (body : A -> M B) : M (list B) :=
  match l with
  | [] => ret []
  | x :: l' => y <- body x ;; ys <- for_append l' body ;; ret (y :: ys)
  end.

(** [len(white_pieces) - len(black_pieces)] *)
Definition material (game : ref) : M Z :=
  white_pieces <- return_all_pieces_location game "white" ;;
  black_pieces <- return_all_pieces_location game "black" ;;
  ret (Z.of_nat (length white_pieces) - Z.of_nat (length black_pieces))%Z.

(** [best_move = subtree_moves[0]] followed by the loop that replaces
    [best_move] by a strictly better later element. *)
Definition pick_best (better : Z -> Z -> bool) (subtree_moves : list (Move * Z))
    : option (Move * Z) :=
  match subtree_moves with
  | [] => None
  | first :: _ =>
      Some (fold_left (fun best_move possible_move =>
                         if better possible_move.2 best_move.2
                         then possible_move else best_move)
                      subtree_moves first)
  end.

Definition generate_subtrees (game : ref) (tree : CheckersGameTree)
    : M CheckersGameTree :=
  possible_moves <- find_legal_moves game ;;
  g <- get_game game ;;
  ret (Tree (tree_move tree) (white_turn tree)
            (subtrees tree ++
             map (fun possible_move => Tree possible_move (is_white_move g) [])
                 possible_moves)).

Fixpoint generate_game_tree (depth : nat) (game : ref) (root : Move)
    : M CheckersGameTree :=
  match depth with
  | O => g <- get_game game ;; ret (Tree root (is_white_move g) [])
  | S depth' =>
      g <- get_game game ;;
      possible_moves <- find_legal_moves game ;;
      sts <- for_append possible_moves (fun possible_move =>
               copy_game <- make_copy_game game ;;
               make_move copy_game possible_move ;;;
               generate_game_tree depth' copy_game possible_move) ;;
      ret (Tree root (is_white_move g) sts)
  end.

Module MinimaxBot.

Fixpoint calc_best_move (game : ref) (tree : CheckersGameTree) : M (Move * Z) :=
  match tree with
  | Tree tmove _ [] =>
      v <- material game ;; ret (tmove, v)
  | Tree tmove _ sts =>
      subtree_moves <-
        (fix each (l : list CheckersGameTree) : M (list (Move * Z)) :=
           match l with
           | [] => ret []
           | subtree :: rest =>
               game_copy <- make_copy_game game ;;
               make_move game_copy (tree_move subtree) ;;;
               r <- calc_best_move game_copy subtree ;;
               rs <- each rest ;;
               ret (r :: rs)
           end) sts ;;
      g <- get_game game ;;
      best_move <- lift (pick_best (if is_white_move g then Z.gtb else Z.ltb)
                                   subtree_moves) ;;
      if negb (move tmove =? EmptyString)%string then ret (tmove, best_move.2)
      else ret best_move
  end.

(** [update_tree] followed by [calc_best_move] and [game.make_move]; the
    result is the new value of [self.tree]. *)
Definition make_move (tree_depth : nat) (game : ref) : M CheckersGameTree :=
  tree <- generate_game_tree tree_depth game (mkMove EmptyString false) ;;
  best_move <- calc_best_move game tree ;;
  make_move game best_move.1 ;;;
  ret tree.

End MinimaxBot.

Module MinimaxPruneBot.

(** The two [return]s of each loop: at a cut-off and at the end. *)
Definition answer (tmove : Move) (best_move : Move * num) : Move * num :=
  if (move tmove =? EmptyString)%string then best_move else (tmove, best_move.2).

Fixpoint calc_best_move (game : ref) (tree : CheckersGameTree)
    (alpha beta : num) : M (Move * num) :=
  match tree with
  | Tree tmove _ [] =>
      v <- material game ;; ret (tmove, Int v)
  | Tree tmove _ sts =>
      g <- get_game game ;;
      if is_white_move g then
        (fix each (l : list CheckersGameTree) (best_move : Move * num)
                  (alpha : num) : M (Move * num) :=
           match l with
           | [] => ret (answer tmove best_move)
           | subtree :: rest =>
               game_copy <- make_copy_game game ;;
               make_move game_copy (tree_move subtree) ;;;
               potential_move <- calc_best_move game_copy subtree alpha beta ;;
               let best_move :=
                 if num_lt best_move.2 potential_move.2
                 then potential_move else best_move in
               let alpha := num_max alpha best_move.2 in
               if num_le beta alpha then ret (answer tmove best_move)
               else each rest best_move alpha
           end) sts (mkMove EmptyString false, NegInf) alpha
      else
        (fix each (l : list CheckersGameTree) (best_move : Move * num)
                  (beta : num) : M (Move * num) :=
           match l with
           | [] => ret (answer tmove best_move)
           | subtree :: rest =>
               game_copy <- make_copy_game game ;;
               make_move game_copy (tree_move subtree) ;;;
               potential_move <- calc_best_move game_copy subtree alpha beta ;;
               let best_move :=
                 if num_lt potential_move.2 best_move.2
                 then potential_move else best_move in
               let beta := num_min beta best_move.2 in
               if num_le beta alpha then ret (answer tmove best_move)
               else each rest best_move beta
           end) sts (mkMove EmptyString false, PosInf) beta
  end.

Definition make_move (tree_depth : nat) (game : ref) : M CheckersGameTree :=
  tree <- generate_game_tree tree_depth game (mkMove EmptyString false) ;;
  best_move <- calc_best_move game tree NegInf PosInf ;;
  make_move game best_move.1 ;;;
  ret tree.

End MinimaxPruneBot.

(** ** final_trees_and_bots.py: the tree codec *)

(** *** Strings *)

Definition is_space (c : ascii) : bool :=
  let n := nat_of_ascii c in
  ((9 <=? n) && (n <=? 13)) || ((28 <=? n) && (n <=? 32)).

Fixpoint lstrip (s : string) : string :=
  match s with
  | EmptyString => EmptyString
  | String c s' => if is_space c then lstrip s' else s
  end.

Fixpoint string_rev (s : string) : string :=
  match s with
  | EmptyString => EmptyString
  | String c s' => string_rev s' +:+ String c EmptyString
  end.

Definition strip (s : string) : string :=
  string_rev (lstrip (string_rev (lstrip s))).

(** The digits of an integer literal; an underscore may stand between two
    digits.  [seen] tells what the previous character was: [None] at the
    start, [Some true] after a digit, [Some false] after an underscore. *)
Fixpoint digits_value (acc : nat) (seen : option bool) (s : string) : option nat :=
  match s with
  | EmptyString => if seen is Some true then Some acc else None
  | String c s' =>
      match digit_of_ascii c with
      | Some d => digits_value (10 * acc + d) (Some true) s'
      | None =>
          if (nat_of_ascii c =? 95) && (if seen is Some true then true else false)
          then digits_value acc (Some false) s'
          else None
      end
  end.

(** [int(s)] for a string: surrounding white space, an optional sign, decimal
    digits.  [None] is [ValueError]. *)
Definition py_int (s : string) : option Z :=
  match strip s with
  | String "-" s' => n ← digits_value 0 None s'; Some (- Z.of_nat n)%Z
  | String "+" s' => n ← digits_value 0 None s'; Some (Z.of_nat n)
  | s' => n ← digits_value 0 None s'; Some (Z.of_nat n)
  end.

(** [s.split(',')] *)
Fixpoint split_comma (s : string) : list string :=
  match s with
  | EmptyString => [EmptyString]
  | String c s' =>
      if (nat_of_ascii c =? 44) then EmptyString :: split_comma s'
      else match split_comma s' with
           | f :: fs => String c f :: fs
           | [] => [String c EmptyString]
           end
  end.

(** The rows of [for row in file]: every row keeps its newline. *)
Fixpoint file_rows (s : string) : list string :=
  match s with
  | EmptyString => []
  | String c s' =>
      if (nat_of_ascii c =? 10) then String c EmptyString :: file_rows s'
      else match file_rows s' with
           | r :: rs => String c r :: rs
           | [] => [String c EmptyString]
           end
  end.

(** [s[0:-2]], [s[-2]] and [s[-1]] *)
Definition but_last_two (s : string) : string :=
  String.substring 0 (String.length s - 2) s.

Definition from_end (s : string) (k : nat) : option ascii :=
  if decide (k <= String.length s) then String.get (String.length s - k) s else None.

(** [bool(int(c))] for one character. *)
Definition flag_of (c : ascii) : option bool :=
  n ← digit_of_ascii c; Some (negb (n =? 0)).

(** *** Files.  A file system maps names to contents.  [open(name, 'a')]
    creates the file; what is written through the file object is appended
    to the contents. *)

Definition append_file (name data : string) (fs : gmap string string)
    : gmap string string :=
  <[name := default EmptyString (fs !! name) +:+ data]> fs.

(** When written text reaches the file.  [export_tree] never closes or
    flushes the file object it opens.  With [WriteThrough] every [write]
    reaches the file at once, which is what the docstring describes.  With
    [FlushOnClose] the text stays in the buffer of the file object until the
    object is dropped when the call that opened it returns, which is how
    CPython treats a row shorter than its buffer. *)
Inductive buffering := WriteThrough | FlushOnClose.

Definition export_row (tree : CheckersGameTree) : string :=
  move (tree_move tree)
  +:+ (if piece_captured (tree_move tree) then "1" else "0")
  +:+ (if white_turn tree then "1" else "0")
  +:+ "," +:+ str (length (subtrees tree)) +:+ String "010" EmptyString.

Fixpoint export_tree (mode : buffering) (filename : string)
    (tree : CheckersGameTree) (fs : gmap string string) : gmap string string :=
  let file := filename +:+ ".txt" in
  let opened := append_file file EmptyString fs in
  let children (fs : gmap string string) :=
    (fix each (l : list CheckersGameTree) (fs : gmap string string) :=
       match l with
       | [] => fs
       | subtree :: rest => each rest (export_tree mode filename subtree fs)
       end) (subtrees tree) fs in
  match mode with
  | WriteThrough => children (append_file file (export_row tree) opened)
  | FlushOnClose => append_file file (export_row tree) (children opened)
  end.

(** [CheckersGameTree(Move(x[0:-2], bool(int(x[-2]))), bool(int(x[-1])))] *)
Definition node_of (x : string) : option CheckersGameTree :=
  c ← from_end x 2; captured ← flag_of c;
  w ← from_end x 1; white ← flag_of w;
  Some (Tree (mkMove (but_last_two x) captured) white []).

(** [import_compile].  Every recursive call receives a proper suffix of
    [imported_data], so [fuel] above the length of the list is never used
    up; [steps] does the same for the [while] loop, whose [data_index]
    grows in every round. *)
Fixpoint import_compile (fuel : nat) (imported_data : list (list string))
    : option (CheckersGameTree * nat) :=
  match fuel with
  | O => None
  | S fuel' =>
      first ← imported_data !! 0;
      x ← first !! 0;
      root_tree ← node_of x;
      (fix while (steps data_index subtrees_added : nat)
                 (root_subtrees : list CheckersGameTree)
           : option (CheckersGameTree * nat) :=
         let done :=
           Some (Tree (tree_move root_tree) (white_turn root_tree) root_subtrees,
                 data_index) in
         if data_index <? length imported_data then
           count ← first !! 1 ≫= py_int;
           if (Z.of_nat subtrees_added <? count)%Z then
             match steps with
             | O => None
             | S steps' =>
                 row ← imported_data !! data_index;
                 n ← row !! 1 ≫= py_int;
                 if (n =? 0)%Z then
                   y ← row !! 0;
                   leaf ← node_of y;
                   while steps' (data_index + 1) (subtrees_added + 1)
                         (root_subtrees ++ [leaf])
                 else
                   value_and_skip ← import_compile fuel' (drop data_index imported_data);
                   while steps' (data_index + value_and_skip.2) (subtrees_added + 1)
                         (root_subtrees ++ [value_and_skip.1])
             end
           else done
         else done) (length imported_data) 1 0 []
  end.

Definition import_tree (filename : string) (fs : gmap string string)
    : option CheckersGameTree :=
  contents ← fs !! (filename +:+ ".txt");
  let all_tree_nodes := reverse (map split_comma (file_rows contents)) in
  final_tree ← import_compile (S (length all_tree_nodes)) all_tree_nodes;
  Some final_tree.1.

(** ** The store read back as values

    [abs_game h g] is what the object [g] and everything reachable from it
    look like in the store [h]: a board of piece values and the fields of
    the game.  It is defined when no reference on the way dangles. *)

Module Pure.

Abbreviation Board := (list (list (option Piece))).

Record Game := mkGame {
  board : Board;
  is_white_move : bool;
  gamestate : string;
  white_win : bool;
  moves_since_cap : Z;
  is_draw : bool;
  main_game : bool
}.

End Pure.

(** The board of a game as it lies in the store: the row addresses and the
    rows themselves. *)
Definition ref_board (h : Heap) (g : ref)
    : option (list ref * list (list (option ref))) :=
  gm ← games h !! g;
  rids ← boards h !! board gm;
  cb ← mapM (fun rid => rows h !! rid) rids;
  Some (rids, cb).

Definition cell_value (h : Heap) (c : option ref) : option (option Piece) :=
  match c with
  | None => Some None
  | Some p => pc ← pieces h !! p; Some (Some pc)
  end.

Definition abs_fields (gm : CheckersGame) (b : Pure.Board) : Pure.Game :=
  Pure.mkGame b (is_white_move gm) (gamestate gm) (white_win gm)
              (moves_since_cap gm) (is_draw gm) (main_game gm).

Definition abs_game (h : Heap) (g : ref) : option Pure.Game :=
  gm ← games h !! g;
  rb ← ref_board h g;
  b ← mapM (mapM (cell_value h)) rb.2;
  Some (abs_fields gm b).

(** The piece reference at a square of a board of references. *)
Definition ref_at (cb : list (list (option ref))) (r c : nat) : option ref :=
  row ← cb !! r; cell ← row !! c; cell.

(** No two entries of the board are the same row object, and no two squares
    hold the same piece object. *)
Definition separate (h : Heap) (g : ref) : Prop :=
  ∃ rids cb,
    ref_board h g = Some (rids, cb) ∧ NoDup rids ∧
    ∀ r c r' c' p, ref_at cb r c = Some p → ref_at cb r' c' = Some p → r = r' ∧ c = c'.

(** The first store is an initial segment of the second: every object of the
    first is in the second, at the same address and with the same value. *)
Definition extends (h h' : Heap) : Prop :=
  pieces h `prefix_of` pieces h' ∧ rows h `prefix_of` rows h' ∧
  boards h `prefix_of` boards h' ∧ games h `prefix_of` games h'.

(** A computation that leaves every object of the store it starts from as
    it is: it may read and allocate. *)
Definition extending {A} (m : M A) : Prop :=
  ∀ h a h', m h = Some (a, h') → extends h h'.

(** Every object reachable from the game [g] was allocated after the store
    was [h0]. *)
Definition beyond (h0 h : Heap) (g : ref) : Prop :=
  length (games h0) ≤ g ∧
  ∃ rids cb,
    ref_board h g = Some (rids, cb) ∧
    Forall (fun rid => length (rows h0) ≤ rid) rids ∧
    ∀ r c p, ref_at cb r c = Some p → length (pieces h0) ≤ p.

(** ** The rules on values *)

Module Rules.
Import Pure.

(** [b[r][c]] and [b[r][c] = v] on a list of lists; [None] is [IndexError]. *)
Definition get {A} (b : list (list A)) (loc : nat * nat) : option A :=
  row ← b !! loc.1; row !! loc.2.

Definition set {A} (b : list (list A)) (loc : nat * nat) (v : A)
    : option (list (list A)) :=
  row ← b !! loc.1;
  if decide (loc.2 < length row) then Some (<[loc.1 := <[loc.2 := v]> row]> b)
  else None.

(** The four diagonals: top is towards row 7, left is towards column 0. *)
Inductive dir := TL | TR | BL | BR.

(** The outer guard of a probe fails: the piece stands on the edge. *)
Definition blocked (d : dir) (loc : nat * nat) : bool :=
  match d with
  | TL => (loc.2 =? 0) || (loc.1 =? 7)
  | TR => (loc.2 =? 7) || (loc.1 =? 7)
  | BL => (loc.2 =? 0) || (loc.1 =? 0)
  | BR => (loc.2 =? 7) || (loc.1 =? 0)
  end.

(** The square [k] steps away. *)
Definition target (d : dir) (k : nat) (loc : nat * nat) : nat * nat :=
  match d with
  | TL => (loc.1 + k, loc.2 - k)
  | TR => (loc.1 + k, loc.2 + k)
  | BL => (loc.1 - k, loc.2 - k)
  | BR => (loc.1 - k, loc.2 + k)
  end.

(** The inner guard of a probe: the landing square is on the board. *)
Definition can_jump (d : dir) (loc : nat * nat) : bool :=
  match d with
  | TL => (1 <? loc.2) && (loc.1 <? 6)
  | TR => (loc.2 <? 6) && (loc.1 <? 6)
  | BL => (1 <? loc.2) && (1 <? loc.1)
  | BR => (loc.2 <? 6) && (1 <? loc.1)
  end.

Definition check (extra : Board -> nat * nat -> nat * nat -> option (list Move))
    (d : dir) (b : Board) (white : bool) (loc : nat * nat) (double : bool)
    : option (list Move) :=
  if blocked d loc then Some []
  else
    c ← get b (target d 1 loc);
    match c with
    | None =>
        if negb double then Some [simple_move loc (target d 1 loc)] else Some []
    | Some pc =>
        if negb (eqb (is_white pc) white) && can_jump d loc then
          c2 ← get b (target d 2 loc);
          match c2 with
          | None =>
              more ← extra b loc (target d 2 loc);
              Some (capture_move loc (target d 2 loc) :: more)
          | Some _ => Some []
          end
        else Some []
    end.

(** The directions [_check_additional_capture] and the loop of
    [find_legal_moves] go through, in their order. *)
Definition chain_dirs (white king : bool) : list dir :=
  if white && negb king then [TL; TR]
  else if negb white && negb king then [BL; BR]
  else [TL; TR; BL; BR].

Definition first_dirs (white king : bool) : list dir :=
  if white then (if king then [TL; TR; BL; BR] else [TL; TR])
  else (if king then [BL; BR; TL; TR] else [BL; BR]).

Definition for_extend {A B} (l : list A) (body : A -> option (list B))
    : option (list B) :=
  mjoin <$> mapM body l.

Fixpoint _check_additional_capture (fuel : nat) (white king : bool) (b : Board)
    (og_loc loc : nat * nat) : option (list Move) :=
  match fuel with
  | O => None
  | S fuel' =>
      test ← set b ((og_loc.1 + loc.1) / 2, (og_loc.2 + loc.2) / 2) None;
      moves_list ← for_extend (chain_dirs white king) (fun d =>
        check (_check_additional_capture fuel' white king) d test white loc true);
      Some (map (prepend_origin og_loc) moves_list)
  end.

Definition probe_piece (b : Board) (white : bool) (piece_info : (nat * nat) * Piece)
    : option (list Move) :=
  for_extend (first_dirs white (is_king piece_info.2)) (fun d =>
    check (_check_additional_capture chain_fuel white (is_king piece_info.2))
          d b white piece_info.1 false).

Definition selected (colour : string) (pc : Piece) : bool :=
  if (colour =? "any")%string then true
  else if (colour =? "white")%string && is_white pc then true
  else if (colour =? "black")%string && negb (is_white pc) then true
  else false.

Definition return_all_pieces_location (b : Board) (colour : string)
    : option (list ((nat * nat) * Piece)) :=
  for_extend (seq 0 8) (fun row =>
    for_extend (seq 0 8) (fun col =>
      cell ← get b (row, col);
      match cell with
      | Some pc => if selected colour pc then Some [((row, col), pc)] else Some []
      | None => Some []
      end)).

Definition find_legal_moves (g : Game) : option (list Move) :=
  pieces_to_check ←
    return_all_pieces_location (board g)
      (if is_white_move g then "white" else "black");
  normal_moves ← for_extend pieces_to_check (probe_piece (board g) (is_white_move g));
  Some (captures_first normal_moves).

Definition find_legal_moves_one_piece (g : Game) (piece_info : (nat * nat) * Piece)
    : option (list Move) :=
  normal_moves ← probe_piece (board g) (is_white_move g) piece_info;
  Some (captures_first normal_moves).

(** The row a piece is crowned on. *)
Definition crowned (row : nat) (pc : Piece) : bool :=
  (is_white pc && (row =? 7)) || (negb (is_white pc) && (row =? 0)).

Definition crown (pc : Piece) : Piece := mkPiece (is_white pc) true.

Definition _update_pieces (b : Board) : option Board :=
  locations ← return_all_pieces_location b "any";
  Some (imap (fun row cells =>
          imap (fun col cell =>
                  match cell with
                  | Some pc =>
                      if (col <? 8) && crowned row pc then Some (crown pc) else Some pc
                  | None => None
                  end) cells) b).

Definition relocate (b : Board) (s : string) (i : nat) : option Board :=
  a ← int_at s i; b0 ← int_at s (i + 1);
  piece ← get b (a, b0);
  b1 ← set b (a, b0) None;
  c ← int_at s (i + 2); d ← int_at s (i + 3);
  set b1 (c, d) piece.

Definition remove_jumped (b : Board) (s : string) (i : nat) : option Board :=
  a ← int_at s i; c ← int_at s (i + 2);
  b0 ← int_at s (i + 1); d ← int_at s (i + 3);
  set b ((a + c) / 2, (b0 + d) / 2) None.

Definition hops (s : string) (b : Board) : option Board :=
  foldl (fun ob submove_num =>
           b ← ob; b1 ← relocate b s (submove_num * 2);
           remove_jumped b1 s (submove_num * 2))
        (Some b) (seq 0 (String.length s / 2 - 1)).

(** Methods that change the game, as functions on its value. *)
Definition S (A : Type) : Type := Game -> option (A * Game).

Definition sbind {A B} (m : S A) (f : A -> S B) : S B :=
  fun g => match m g with
           | Some (a, g') => f a g'
           | None => None
           end.

Definition s_get : S Game := fun g => Some (g, g).

Definition s_put (g' : Game) : S unit := fun _ => Some (tt, g').

Definition s_board (f : Board -> option Board) : S unit :=
  fun g => b ← f (board g);
           Some (tt, mkGame b (is_white_move g) (gamestate g) (white_win g)
                            (moves_since_cap g) (is_draw g) (main_game g)).

Definition s_find : S (list Move) :=
  fun g => legal ← find_legal_moves g; Some (legal, g).

Definition set_moves_since_cap (n : Z) : S unit :=
  sbind s_get (fun g =>
    s_put (mkGame (board g) (is_white_move g) (gamestate g) (white_win g)
                  n (is_draw g) (main_game g))).

Definition set_is_white_move (w : bool) : S unit :=
  sbind s_get (fun g =>
    s_put (mkGame (board g) w (gamestate g) (white_win g)
                  (moves_since_cap g) (is_draw g) (main_game g))).

Definition end_game (w draw : bool) : S unit :=
  sbind s_get (fun g =>
    s_put (mkGame (board g) (is_white_move g) "END" w (moves_since_cap g)
                  (if draw then true else is_draw g) (main_game g))).

Definition make_move_steps (m : Move) : S unit :=
  sbind (if negb (piece_captured m) then s_board (fun b => relocate b (move m) 0)
         else sbind (set_moves_since_cap (-1)) (fun _ => s_board (hops (move m))))
  (fun _ =>
  sbind s_get (fun g =>
  sbind (set_is_white_move (negb (is_white_move g))) (fun _ =>
  sbind (s_board _update_pieces) (fun _ =>
  sbind s_get (fun g =>
  sbind (set_moves_since_cap (moves_since_cap g + 1)) (fun _ =>
  sbind s_find (fun legal =>
  sbind s_get (fun g =>
  if is_nil legal && is_white_move g && main_game g then end_game false false
  else
    sbind s_find (fun legal' =>
    sbind s_get (fun g =>
    if is_nil legal' && negb (is_white_move g) && main_game g then end_game true false
    else if (50 <=? moves_since_cap g)%Z && main_game g then end_game true true
    else fun g => Some (tt, g))))))))))).

Definition make_move (g : Game) (m : Move) : option Game :=
  r ← make_move_steps m g; Some r.2.

Definition make_copy_game (g : Game) : Game :=
  mkGame (board g) (is_white_move g) "MENU" true 0 false false.

Definition material (g : Game) : option Z :=
  white_pieces ← return_all_pieces_location (board g) "white";
  black_pieces ← return_all_pieces_location (board g) "black";
  Some (Z.of_nat (length white_pieces) - Z.of_nat (length black_pieces))%Z.

End Rules.

(** ** Positions used as examples *)

(** [CheckersGame(white_move, layout, 'GAME')] for a board literal. *)
Definition new_game (layout : list (list (option Piece))) (white_move : bool) : M ref :=
  b <- board_literal layout ;; CheckersGame_init white_move (Some b) "GAME".

(** The game a computation returns and the store it leaves. *)
Definition built (m : M ref) : ref * Heap :=
  match m initial_heap with
  | Some r => r
  | None => (0, initial_heap)
  end.

(** White to move; the man on (2,1) must jump the black man on (3,2), the
    man on (2,5) has two quiet moves. *)
Definition forced_capture_layout : list (list (option Piece)) :=
  [ [o; o; o; o; o; o; o; o];
    [o; o; o; o; o; o; o; o];
    [o; W; o; o; o; W; o; o];
    [o; o; B; o; o; o; o; o];
    [o; o; o; o; o; o; o; o];
    [o; o; o; o; o; o; o; o];
    [o; o; o; o; o; o; o; B];
    [o; o; o; o; o; o; o; o] ].

(** White to move; the man on (2,1) can jump (3,2) and then (5,4). *)
Definition double_capture_layout : list (list (option Piece)) :=
  [ [o; o; o; o; o; o; o; o];
    [o; o; o; o; o; o; o; o];
    [o; W; o; o; o; o; o; o];
    [o; o; B; o; o; o; o; o];
    [o; o; o; o; o; o; o; o];
    [o; o; o; o; B; o; o; o];
    [o; o; o; o; o; o; o; o];
    [o; o; o; o; o; o; o; B] ].

Definition forced_capture_game : ref * Heap :=
  Eval vm_compute in built (new_game forced_capture_layout true).

Definition double_capture_game : ref * Heap :=
  Eval vm_compute in built (new_game double_capture_layout true).

(** ** Invariants of [deepcopy] *)

(** A cell and its copy: the memo sends the piece of the one to the piece of
    the other. *)
Definition copied (pm : gmap nat nat) (c c' : option ref) : Prop :=
  match c, c' with
  | None, None => True
  | Some p, Some p' => pm !! p = Some p'
  | _, _ => False
  end.

Definition memo_inj (m : gmap nat nat) : Prop :=
  ∀ p q v, m !! p = Some v → m !! q = Some v → p = q.

(** Every piece the memo knows was in the store [h0] the copy started from,
    and its copy is a new object with the same value. *)
Definition pmemo_ok (h0 h : Heap) (pm : gmap nat nat) : Prop :=
  (∀ p p', pm !! p = Some p' →
     length (pieces h0) ≤ p' ∧
     ∃ pc, pieces h0 !! p = Some pc ∧ pieces h !! p' = Some pc) ∧
  memo_inj pm.

Definition rmemo_ok (h0 h : Heap) (rm pm : gmap nat nat) : Prop :=
  (∀ r r', rm !! r = Some r' →
     length (rows h0) ≤ r' ∧
     ∃ row row', rows h0 !! r = Some row ∧ rows h !! r' = Some row' ∧
                 Forall2 (copied pm) row row') ∧
  memo_inj rm.

(** ** Refinement

    [refines R m h o]: run in the store [h], the method [m] fails when the
    function on values gives [None]; when that gives [Some b], [m] returns
    some [a] which the relation [R] ties to [b], and leaves every object of
    [h] as it was. *)
Definition refines {A B} (R : Heap -> A -> B -> Prop) (m : M A) (h : Heap)
    (o : option B) : Prop :=
  match o with
  | Some b => ∃ a h', m h = Some (a, h') ∧ extends h h' ∧ R h' a b
  | None => m h = None
  end.

(** A relation that keeps holding when the store grows. *)
Definition stable {A B} (R : Heap -> A -> B -> Prop) : Prop :=
  ∀ h h' a b, extends h h' → R h a b → R h' a b.

(** Results that are equal. *)
Definition same {A} : Heap -> A -> A -> Prop := fun _ a b => a = b.

(** A cell of references and the cell of values it stands for. *)
Definition cell_is (h : Heap) (c : option ref) (v : option Piece) : Prop :=
  cell_value h c = Some v.

(** A located piece reference and the located piece it stands for. *)
Definition located_is (h : Heap) (x : (nat * nat) * ref) (y : (nat * nat) * Piece)
    : Prop :=
  x.1 = y.1 ∧ pieces h !! x.2 = Some y.2.

(** All that the store says about one game: its fields [gm], the addresses
    [rids] of its rows, the rows [cb] of piece references, and the board [b]
    of piece values; no row and no piece occurs twice. *)
Definition view (h : Heap) (g : ref) (gm : CheckersGame) (rids : list ref)
    (cb : list (list (option ref))) (b : Pure.Board) : Prop :=
  games h !! g = Some gm ∧ boards h !! board gm = Some rids ∧
  Forall2 (fun rid row => rows h !! rid = Some row) rids cb ∧
  Forall2 (Forall2 (cell_is h)) cb b ∧
  NoDup rids ∧
  ∀ r c r' c' p, ref_at cb r c = Some p → ref_at cb r' c' = Some p → r = r' ∧ c = c'.

(** The piece written to a square stands on no square yet. *)
Definition unplaced (cb : list (list (option ref))) (v : option ref) : Prop :=
  ∀ p, v = Some p → ∀ r c, ref_at cb r c ≠ Some p.

(** Everything the game refers to was allocated after the store was [h0]. *)
Definition newer (h0 : Heap) (g : ref) (rids : list ref)
    (cb : list (list (option ref))) : Prop :=
  length (games h0) ≤ g ∧
  Forall (fun rid => length (rows h0) ≤ rid) rids ∧
  ∀ r c p, ref_at cb r c = Some p → length (pieces h0) ≤ p.

(** A method that only reads the store. *)
Definition reading {A} (m : M A) : Prop :=
  ∀ h a h', m h = Some (a, h') → h' = h.

(** A located piece reference of the board [cb] and the located piece it
    stands for. *)
Definition located_at (cb : list (list (option ref))) (h : Heap)
    (x : (nat * nat) * ref) (y : (nat * nat) * Piece) : Prop :=
  located_is h x y ∧ ref_at cb x.1.1 x.1.2 = Some x.2.

(** [_update_pieces] on the store of pieces: the loop over [locations]. *)
Definition crown_all (locations : list ((nat * nat) * ref)) (ps : list Piece)
    : list Piece :=
  foldl (fun ps piece_loc =>
           match ps !! piece_loc.2 with
           | Some pc =>
               if Rules.crowned piece_loc.1.1 pc then <[piece_loc.2 := Rules.crown pc]> ps
               else ps
           | None => ps
           end) ps locations.

(** A method that changes the game [g] and nothing older than it: on the
    value of the game it does what [f] does, and its result is tied to that
    of [f] by [R]. *)
Definition step {A A'} (R : A -> A' -> Prop) (m : M A) (g : ref) (f : Rules.S A')
    : Prop :=
  ∀ h gm rids cb b, view h g gm rids cb b →
    match f (abs_fields gm b) with
    | Some (a', G') =>
        ∃ a h' gm' cb', m h = Some (a, h') ∧ R a a' ∧
          view h' g gm' rids cb' (Pure.board G') ∧
          G' = abs_fields gm' (Pure.board G') ∧
          ∀ h0, extends h0 h → newer h0 g rids cb → extends h0 h' ∧ newer h0 g rids cb'
    | None => m h = None
    end.

(** The fields of a game object and of a game value agree. *)
Definition fields_of (gm : CheckersGame) (G : Pure.Game) : Prop :=
  G = abs_fields gm (Pure.board G).

(** A method that changes the board of the game [g] only. *)
Definition board_step (m : M unit) (g : ref)
    (f : Pure.Board -> option Pure.Board) : Prop :=
  ∀ h gm rids cb b, view h g gm rids cb b →
    match f b with
    | Some b' =>
        ∃ h' cb', m h = Some (tt, h') ∧ view h' g gm rids cb' b' ∧
          ∀ h0, extends h0 h → newer h0 g rids cb → extends h0 h' ∧ newer h0 g rids cb'
    | None => m h = None
    end.

(** ** What the probes produce *)

(** An 8 by 8 board and a square on it. *)
Definition wf8 {A} (b : list (list A)) : Prop :=
  length b = 8 ∧ Forall (fun row => length row = 8) b.

Definition in_range (loc : nat * nat) : Prop := loc.1 < 8 ∧ loc.2 < 8.

(** The digit string of a chain of squares. *)
Fixpoint encode (path : list (nat * nat)) : string :=
  match path with
  | [] => EmptyString
  | loc :: rest => str loc.1 +:+ str loc.2 +:+ encode rest
  end.

(** The probe in direction [d] from [loc] finds a capture: the next square
    holds a piece of the other side and the square behind it is on the board
    and empty. *)
Definition jumps (b : Pure.Board) (white : bool) (d : Rules.dir) (loc : nat * nat)
    : bool :=
  negb (Rules.blocked d loc) &&
  match Rules.get b (Rules.target d 1 loc) with
  | Some (Some pc) => negb (eqb (is_white pc) white) && Rules.can_jump d loc
  | _ => false
  end &&
  match Rules.get b (Rules.target d 2 loc) with
  | Some None => true
  | _ => false
  end.

(** The probe in direction [d] from [loc] finds a quiet move. *)
Definition slides (b : Pure.Board) (d : Rules.dir) (loc : nat * nat) : bool :=
  negb (Rules.blocked d loc) &&
  match Rules.get b (Rules.target d 1 loc) with
  | Some None => true
  | _ => false
  end.

Definition dir_eqb (d1 d2 : Rules.dir) : bool :=
  match d1, d2 with
  | Rules.TL, Rules.TL | Rules.TR, Rules.TR
  | Rules.BL, Rules.BL | Rules.BR, Rules.BR => true
  | _, _ => false
  end.

Definition loc_eqb (p q : nat * nat) : bool := (p.1 =? q.1) && (p.2 =? q.2).

(** [path] is a chain of captures from [loc]: every hop jumps, in a direction
    open to the piece, over an enemy piece that is then taken off the board.
    The capturing piece itself is left on its square of origin, as
    [_check_additional_capture] leaves it. *)
Fixpoint chain_ok (white king : bool) (b : Pure.Board) (loc : nat * nat)
    (path : list (nat * nat)) : bool :=
  match path with
  | [] => true
  | q :: rest =>
      existsb (fun d =>
        loc_eqb q (Rules.target d 2 loc) && jumps b white d loc &&
        match Rules.set b (Rules.target d 1 loc) None with
        | Some b' => chain_ok white king b' q rest
        | None => false
        end) (Rules.chain_dirs white king)
  end.

(** The number of pieces on a board. *)
Definition count_row (row : list (option Piece)) : nat :=
  length (filter (fun c => is_Some c) row).

Definition count (b : Pure.Board) : nat := sum_list_with count_row b.

(** [m] is a move of a piece of the side [white] on the board [b]: a step to
    an empty neighbouring square, or a chain of captures. *)
Definition piece_move (b : Pure.Board) (white : bool) (m : Move) : Prop :=
  ∃ loc pc, in_range loc ∧ Rules.get b loc = Some (Some pc) ∧ is_white pc = white ∧
    ((∃ d, d ∈ Rules.chain_dirs white (is_king pc) ∧ slides b d loc = true ∧
           m = simple_move loc (Rules.target d 1 loc)) ∨
     (∃ path, path ≠ [] ∧ chain_ok white (is_king pc) b loc path = true ∧
              m = mkMove (encode (loc :: path)) true)).

(** The digit string of [m] spells at least two squares of the board. *)
Definition well_formed (m : Move) : Prop :=
  ∃ path, move m = encode path ∧ 2 ≤ length path ∧ Forall in_range path.

(** ** Checking a concrete store *)

(** The piece references of a board, row by row. *)
Definition board_refs (cb : list (list (option ref))) : list ref :=
  omap id (mjoin cb).

Fixpoint nodupb (l : list nat) : bool :=
  match l with
  | [] => true
  | x :: l' => negb (existsb (Nat.eqb x) l') && nodupb l'
  end.

(** [separate] and [wf8], computed. *)
Definition separateb (h : Heap) (g : ref) : bool :=
  match ref_board h g with
  | Some (rids, cb) => nodupb rids && nodupb (board_refs cb)
  | None => false
  end.

Definition wf8b {A} (b : list (list A)) : bool :=
  (length b =? 8) && forallb (fun row => length row =? 8) b.

(** The value of a game of the store, for the examples. *)
Definition value_of (x : ref * Heap) : Pure.Game :=
  default (Pure.mkGame [] true EmptyString true 0 false false) (abs_game x.2 x.1).

Definition forced_capture_value : Pure.Game :=
  Eval vm_compute in value_of forced_capture_game.

Definition double_capture_value : Pure.Game :=
  Eval vm_compute in value_of double_capture_game.

(** The result of running a method from a store, for the examples. *)
Definition run {A} (m : M A) (h : Heap) (d : A) : A * Heap := default (d, h) (m h).

Definition forced_capture_copy : ref * Heap :=
  Eval vm_compute in run (make_copy_game forced_capture_game.1) forced_capture_game.2 0.

Definition forced_capture_copy_moved : unit * Heap :=
  Eval vm_compute in
    run (make_move forced_capture_copy.1 (mkMove "2143" true)) forced_capture_copy.2 tt.

Definition forced_capture_moves : list Move * Heap :=
  Eval vm_compute in run (find_legal_moves forced_capture_game.1) forced_capture_game.2 [].

Definition forced_capture_moved : unit * Heap :=
  Eval vm_compute in
    run (make_move forced_capture_game.1 (mkMove "2143" true)) forced_capture_moves.2 tt.

Definition forced_capture_updated : unit * Heap :=
  Eval vm_compute in run (_update_pieces forced_capture_game.1) forced_capture_game.2 tt.

Definition double_capture_moves : list Move * Heap :=
  Eval vm_compute in run (find_legal_moves double_capture_game.1) double_capture_game.2 [].

(** ** The bots on values

    What [generate_game_tree] and the two [calc_best_move] compute, as
    functions of the value of the game.  Every node works on the value of a
    copy on which the move of the node has been made. *)

Module Search.

(** [game.make_copy_game()] followed by [make_move] on the copy. *)
Definition child (G : Pure.Game) (m : Move) : option Pure.Game :=
  Rules.make_move (Rules.make_copy_game G) m.

Fixpoint generate_game_tree (depth : nat) (G : Pure.Game) (root : Move)
    : option CheckersGameTree :=
  match depth with
  | O => Some (Tree root (Pure.is_white_move G) [])
  | S depth' =>
      possible_moves ← Rules.find_legal_moves G;
      sts ← mapM (fun possible_move =>
                    G' ← child G possible_move;
                    generate_game_tree depth' G' possible_move) possible_moves;
      Some (Tree root (Pure.is_white_move G) sts)
  end.

Fixpoint minimax (G : Pure.Game) (tree : CheckersGameTree) : option (Move * Z) :=
  match tree with
  | Tree tmove _ [] => v ← Rules.material G; Some (tmove, v)
  | Tree tmove _ sts =>
      subtree_moves ← mapM (fun subtree =>
                              G' ← child G (tree_move subtree);
                              minimax G' subtree) sts;
      best_move ← pick_best (if Pure.is_white_move G then Z.gtb else Z.ltb)
                            subtree_moves;
      if negb (move tmove =? EmptyString)%string then Some (tmove, best_move.2)
      else Some best_move
  end.

Fixpoint alphabeta (G : Pure.Game) (tree : CheckersGameTree) (alpha beta : num)
    : option (Move * num) :=
  match tree with
  | Tree tmove _ [] => v ← Rules.material G; Some (tmove, Int v)
  | Tree tmove _ sts =>
      if Pure.is_white_move G then
        (fix each (l : list CheckersGameTree) (best_move : Move * num)
                  (alpha : num) : option (Move * num) :=
           match l with
           | [] => Some (MinimaxPruneBot.answer tmove best_move)
           | subtree :: rest =>
               G' ← child G (tree_move subtree);
               potential_move ← alphabeta G' subtree alpha beta;
               let best_move :=
                 if num_lt best_move.2 potential_move.2
                 then potential_move else best_move in
               let alpha := num_max alpha best_move.2 in
               if num_le beta alpha then Some (MinimaxPruneBot.answer tmove best_move)
               else each rest best_move alpha
           end) sts (mkMove EmptyString false, NegInf) alpha
      else
        (fix each (l : list CheckersGameTree) (best_move : Move * num)
                  (beta : num) : option (Move * num) :=
           match l with
           | [] => Some (MinimaxPruneBot.answer tmove best_move)
           | subtree :: rest =>
               G' ← child G (tree_move subtree);
               potential_move ← alphabeta G' subtree alpha beta;
               let best_move :=
                 if num_lt potential_move.2 best_move.2
                 then potential_move else best_move in
               let beta := num_min beta best_move.2 in
               if num_le beta alpha then Some (MinimaxPruneBot.answer tmove best_move)
               else each rest best_move beta
           end) sts (mkMove EmptyString false, PosInf) beta
  end.

End Search.

(** The number of levels below the root. *)
Fixpoint height (tree : CheckersGameTree) : nat :=
  match subtrees tree with
  | [] => 0
  | sts => S (foldr Nat.max 0 (map height sts))
  end.

(** The largest and the smallest of a list of scores. *)
Definition vmax (vals : list Z) : num := foldr (fun y acc => num_max (Int y) acc) NegInf vals.
Definition vmin (vals : list Z) : num := foldr (fun y acc => num_min (Int y) acc) PosInf vals.

(** What a search with the window from [alpha] to [beta] may answer for a
    node whose value is [v]: the value itself when it lies inside the
    window, and else a bound on the same side of the window. *)
Definition within (alpha beta : num) (v : Z) (r : num) : Prop :=
  (num_le (Int v) alpha = true → num_le r alpha = true) ∧
  (num_le beta (Int v) = true → num_le beta r = true) ∧
  (num_lt alpha (Int v) = true → num_lt (Int v) beta = true → r = Int v).


(** The two loops of [Search.alphabeta], to name them in statements. *)
#[warnings="-notation-for-abbreviation"]
Notation white_loop G tmove beta :=
  (fix each (l : list CheckersGameTree) (best_move : Move * num)
            (alpha : num) : option (Move * num) :=
     match l with
     | [] => Some (MinimaxPruneBot.answer tmove best_move)
     | subtree :: rest =>
         G' ← Search.child G (tree_move subtree);
         potential_move ← Search.alphabeta G' subtree alpha beta;
         let best_move :=
           if num_lt best_move.2 potential_move.2
           then potential_move else best_move in
         let alpha := num_max alpha best_move.2 in
         if num_le beta alpha then Some (MinimaxPruneBot.answer tmove best_move)
         else each rest best_move alpha
     end).

#[warnings="-notation-for-abbreviation"]
Notation black_loop G tmove alpha :=
  (fix each (l : list CheckersGameTree) (best_move : Move * num)
            (beta : num) : option (Move * num) :=
     match l with
     | [] => Some (MinimaxPruneBot.answer tmove best_move)
     | subtree :: rest =>
         G' ← Search.child G (tree_move subtree);
         potential_move ← Search.alphabeta G' subtree alpha beta;
         let best_move :=
           if num_lt potential_move.2 best_move.2
           then potential_move else best_move in
         let beta := num_min beta best_move.2 in
         if num_le beta alpha then Some (MinimaxPruneBot.answer tmove best_move)
         else each rest best_move beta
     end).

(** ** final_trees_and_bots.py: the random bot *)

Module RandomBot.

(** [random.choice(seq)]: [IndexError] on an empty sequence, and else the
    element at an index below [len(seq)]; the number drawn is [pick]. *)
Definition choice {A} (pick : nat) (seq : list A) : option A :=
  match seq with
  | [] => None
  | _ => seq !! (pick mod length seq)
  end.

Definition make_move (pick : nat) (game : ref) : M unit :=
  moves <- find_legal_moves game ;;
  move_to_make <- lift (choice pick moves) ;;
  make_move game move_to_make.

End RandomBot.

(** ** More positions used as examples *)

(** A game made with [CheckersGame()]. *)
Definition default_game : ref * Heap := Eval vm_compute in built CheckersGame_new.

Definition default_value : Pure.Game := Eval vm_compute in value_of default_game.

(** Black to move and no black piece on the board. *)
Definition lone_layout : list (list (option Piece)) :=
  [ [o; o; o; o; o; o; o; o];
    [o; o; o; o; o; o; o; o];
    [o; W; o; o; o; o; o; o];
    [o; o; o; o; o; o; o; o];
    [o; o; o; o; o; o; o; o];
    [o; o; o; o; o; o; o; o];
    [o; o; o; o; o; o; o; o];
    [o; o; o; o; o; o; o; o] ].

Definition lone_game : ref * Heap :=
  Eval vm_compute in built (new_game lone_layout false).

Definition lone_value : Pure.Game := Eval vm_compute in value_of lone_game.

(** The tree and the store after a move of each bot from
    [double_capture_game], with trees of depth 2, and the answer of plain
    minimax for that tree. *)
Definition leaf_tree : CheckersGameTree := Tree (mkMove EmptyString false) true [].

Definition double_minimax : CheckersGameTree * Heap :=
  Eval vm_compute in
    run (MinimaxBot.make_move 2 double_capture_game.1) double_capture_game.2 leaf_tree.

Definition double_prune : CheckersGameTree * Heap :=
  Eval vm_compute in
    run (MinimaxPruneBot.make_move 2 double_capture_game.1) double_capture_game.2
        leaf_tree.

Definition double_searched : (Move * Z) * Heap :=
  Eval vm_compute in
    run (MinimaxBot.calc_best_move double_capture_game.1 double_minimax.1)
        double_capture_game.2 (mkMove EmptyString false, 0%Z).

(** The game after the move of the bot. *)
Definition double_moved : Pure.Game :=
  Eval vm_compute in value_of (double_capture_game.1, double_minimax.2).

Definition lone_moves : list Move * Heap :=
  Eval vm_compute in run (find_legal_moves lone_game.1) lone_game.2 [].

Definition default_moves : list Move * Heap :=
  Eval vm_compute in run (find_legal_moves default_game.1) default_game.2 [].

(** ** The tree codec: what is written and what is read back *)

(** The tree with the subtrees of every node in reverse order. *)
Fixpoint mirror (tree : CheckersGameTree) : CheckersGameTree :=
  match tree with
  | Tree m w sts => Tree m w (reverse (map mirror sts))
  end.

(** The rows of a tree, the row of a node before the rows of its subtrees,
    and the same with the row of a node after them. *)
Fixpoint rows_before (tree : CheckersGameTree) : list string :=
  export_row tree :: concat (map rows_before (subtrees tree)).

Fixpoint rows_after (tree : CheckersGameTree) : list string :=
  concat (map rows_after (subtrees tree)) ++ [export_row tree].

(** The rows [export_tree] appends to the file. *)
Definition exported (mode : buffering) (tree : CheckersGameTree) : list string :=
  match mode with
  | WriteThrough => rows_before tree
  | FlushOnClose => rows_after tree
  end.

(** Rows written one after the other. *)
Definition text (rows : list string) : string := foldr String.append EmptyString rows.

(** The contents of a file; a file that does not exist has none. *)
Definition contents (name : string) (fs : gmap string string) : string :=
  default EmptyString (fs !! name).

Fixpoint all_digits (s : string) : bool :=
  match s with
  | EmptyString => true
  | String c s' => (if digit_of_ascii c is Some _ then true else false) && all_digits s'
  end.

(** Every move of the tree is a string of digits. *)
Fixpoint clean (tree : CheckersGameTree) : bool :=
  match tree with
  | Tree m _ sts => all_digits (move m) && forallb clean sts
  end.

(** Text made of whole rows: it has no carriage return, and it is empty or
    ends with a newline. *)
Fixpoint complete (s : string) : bool :=
  match s with
  | EmptyString => true
  | String c s' =>
      negb (nat_of_ascii c =? 13) &&
      match s' with
      | EmptyString => nat_of_ascii c =? 10
      | _ => complete s'
      end
  end.

(** The loop of [import_compile], to name it in statements. *)
#[warnings="-notation-for-abbreviation,-inconsistent-scopes"]
Notation import_loop fuel' imported_data first root_tree :=
  (fix while (steps data_index subtrees_added : nat)
             (root_subtrees : list CheckersGameTree)
       : option (CheckersGameTree * nat) :=
     let done :=
       Some (Tree (tree_move root_tree) (white_turn root_tree) root_subtrees,
             data_index) in
     if data_index <? length imported_data then
       count ← first !! 1 ≫= py_int;
       if (Z.of_nat subtrees_added <? count)%Z then
         match steps with
         | O => None
         | S steps' =>
             row ← imported_data !! data_index;
             n ← row !! 1 ≫= py_int;
             if (n =? 0)%Z then
               y ← row !! 0;
               leaf ← node_of y;
               while steps' (data_index + 1) (subtrees_added + 1)
                     (root_subtrees ++ [leaf])
             else
               value_and_skip ← import_compile fuel' (drop data_index imported_data);
               while steps' (data_index + value_and_skip.2) (subtrees_added + 1)
                     (root_subtrees ++ [value_and_skip.1])
         end
       else done
     else done).

(** A tree of three levels, with moves of the game, for the examples. *)
Definition sample_tree : CheckersGameTree :=
  Tree (mkMove EmptyString false) true
    [ Tree (mkMove "2031" false) false
        [ Tree (mkMove "5140" false) true [];
          Tree (mkMove "5142" false) true [] ];
      Tree (mkMove "214365" true) false [];
      Tree (mkMove "2233" false) false
        [ Tree (mkMove "5344" false) true [] ] ].


(** * Proofs *)

(** ** The monad *)

Lemma bind_Some {A B} (m : M A) (f : A -> M B) h b h' :
  bind m f h = Some (b, h') ↔ ∃ a h1, m h = Some (a, h1) ∧ f a h1 = Some (b, h').
Proof.
  unfold bind. split.
  - destruct (m h) as [[a h1]|]; [eauto | discriminate].
  - intros (a & h1 & -> & ?). done.
Qed.

Lemma bind_eq {A B} (m : M A) (f : A -> M B) h a h1 :
  m h = Some (a, h1) → bind m f h = f a h1.
Proof. unfold bind. by intros ->. Qed.

Lemma bind_None {A B} (m : M A) (f : A -> M B) h :
  m h = None → bind m f h = None.
Proof. unfold bind. by intros ->. Qed.

Lemma ret_Some {A} (a b : A) h h' : ret a h = Some (b, h') ↔ a = b ∧ h = h'.
Proof. unfold ret. split; [by inversion 1 | by intros [-> ->]]. Qed.

Lemma lift_Some {A} (x : option A) b h h' : lift x h = Some (b, h') ↔ x = Some b ∧ h = h'.
Proof. unfold lift. destruct x; split; try (by inversion 1); by intros [[= ->] ->]. Qed.

(** Decompose the hypotheses that say a computation returned. *)
Ltac inv_M :=
  repeat match goal with
  | H : bind _ _ _ = Some _ |- _ =>
      let a := fresh "a" in let h := fresh "h" in let E := fresh "E" in
      apply bind_Some in H; destruct H as (a & h & E & H)
  | H : ret _ _ = Some _ |- _ => apply ret_Some in H; destruct H as [? ?]
  | H : lift _ _ = Some _ |- _ => apply lift_Some in H; destruct H as [? ?]
  | H : raise _ = Some _ |- _ => discriminate H
  | H : context [let '(_, _) := ?x in _] |- _ => is_var x; destruct x
  | u : unit |- _ => destruct u
  end; simplify_eq.

(** Use the hypothesis whose statement has the given shape. *)
Tactic Notation "on" open_constr(pat) tactic3(tac) :=
  match goal with H : ?T |- _ => unify T pat; tac H end.

(** ** Stores that only grow *)

Lemma extends_refl h : extends h h.
Proof. by repeat split. Qed.

Lemma extends_trans h1 h2 h3 : extends h1 h2 → extends h2 h3 → extends h1 h3.
Proof.
  intros (?&?&?&?) (?&?&?&?). repeat split; by etrans.
Qed.

Lemma prefix_snoc {A} (l : list A) x : l `prefix_of` l ++ [x].
Proof. by apply prefix_app_r. Qed.

Lemma prefix_insert_ge {A} (l1 l2 : list A) i x :
  l1 `prefix_of` l2 → length l1 ≤ i → l1 `prefix_of` <[i:=x]> l2.
Proof.
  intros [k ->] Hi. exists (<[i - length l1 := x]> k).
  replace i with (length l1 + (i - length l1)) at 1 by lia.
  by rewrite insert_app_r.
Qed.

Lemma extending_ret {A} (a : A) : extending (ret a).
Proof. intros h b h' ?. inv_M. apply extends_refl. Qed.

Lemma extending_raise {A} : extending (@raise A).
Proof. intros h b h' ?. inv_M. Qed.

Lemma extending_lift {A} (x : option A) : extending (lift x).
Proof. intros h b h' ?. inv_M. apply extends_refl. Qed.

Lemma extending_bind {A B} (m : M A) (f : A -> M B) :
  extending m → (∀ a, extending (f a)) → extending (bind m f).
Proof.
  intros Hm Hf h b h' H. inv_M. eapply extends_trans; [by eapply Hm | by eapply Hf].
Qed.

Lemma extending_get_piece p : extending (get_piece p).
Proof. intros h a h' H. unfold get_piece in H. inv_M. apply extends_refl. Qed.
Lemma extending_get_row p : extending (get_row p).
Proof. intros h a h' H. unfold get_row in H. inv_M. apply extends_refl. Qed.
Lemma extending_get_board p : extending (get_board p).
Proof. intros h a h' H. unfold get_board in H. inv_M. apply extends_refl. Qed.
Lemma extending_get_game p : extending (get_game p).
Proof. intros h a h' H. unfold get_game in H. inv_M. apply extends_refl. Qed.

Lemma extending_alloc_piece pc : extending (alloc_piece pc).
Proof.
  intros h a h' [= <- <-]. repeat split; simpl; try done. apply prefix_snoc.
Qed.
Lemma extending_alloc_row r : extending (alloc_row r).
Proof.
  intros h a h' [= <- <-]. repeat split; simpl; try done. apply prefix_snoc.
Qed.
Lemma extending_alloc_board b : extending (alloc_board b).
Proof.
  intros h a h' [= <- <-]. repeat split; simpl; try done. apply prefix_snoc.
Qed.
Lemma extending_alloc_game g : extending (alloc_game g).
Proof.
  intros h a h' [= <- <-]. repeat split; simpl; try done. apply prefix_snoc.
Qed.

Lemma extending_for_extend {A B} (l : list A) (body : A -> M (list B)) :
  (∀ x, extending (body x)) → extending (for_extend l body).
Proof.
  intros Hb. induction l as [|x l IH]; simpl.
  - apply extending_ret.
  - apply extending_bind; [done | intros ?].
    apply extending_bind; [done | intros ?]. apply extending_ret.
Qed.

Lemma extending_for_append {A B} (l : list A) (body : A -> M B) :
  (∀ x, extending (body x)) → extending (for_append l body).
Proof.
  intros Hb. induction l as [|x l IH]; simpl.
  - apply extending_ret.
  - apply extending_bind; [done | intros ?].
    apply extending_bind; [done | intros ?]. apply extending_ret.
Qed.

Create HintDb frame.
#[export] Hint Resolve extending_ret extending_raise extending_lift
  extending_get_piece extending_get_row extending_get_board extending_get_game
  extending_alloc_piece extending_alloc_row extending_alloc_board
  extending_alloc_game : frame.

(** Break a goal [extending m] along the shape of [m]. *)
Ltac frame :=
  repeat first
    [ progress eauto with frame
    | apply extending_bind; [| intros ?]
    | apply extending_for_extend; intros ?
    | apply extending_for_append; intros ?
    | match goal with
      | |- extending (match ?x with _ => _ end) => destruct x
      | |- extending (let '(_, _) := ?x in _) => destruct x
      end ].

Lemma extending_board_get self r c : extending (board_get self r c).
Proof. unfold board_get. frame. Qed.
#[export] Hint Resolve extending_board_get : frame.

Lemma extending_cell_selected colour cell : extending (cell_selected colour cell).
Proof. unfold cell_selected. frame. Qed.
#[export] Hint Resolve extending_cell_selected : frame.

Lemma extending_return_all_pieces_location self colour :
  extending (return_all_pieces_location self colour).
Proof. unfold return_all_pieces_location. frame. Qed.
#[export] Hint Resolve extending_return_all_pieces_location : frame.

Lemma extending_material game : extending (material game).
Proof. unfold material. frame. Qed.
#[export] Hint Resolve extending_material : frame.


(** ** [deepcopy] allocates and changes nothing *)

Lemma extending_deepcopy_piece memo p : extending (deepcopy_piece memo p).
Proof. unfold deepcopy_piece. frame. Qed.
#[export] Hint Resolve extending_deepcopy_piece : frame.

Lemma extending_deepcopy_cells cells : ∀ memo, extending (deepcopy_cells memo cells).
Proof.
  induction cells as [|[p|] cells IH]; intros memo; simpl; frame.
Qed.
#[export] Hint Resolve extending_deepcopy_cells : frame.

Lemma extending_deepcopy_row rmemo pmemo rid : extending (deepcopy_row rmemo pmemo rid).
Proof. unfold deepcopy_row. frame. Qed.
#[export] Hint Resolve extending_deepcopy_row : frame.

Lemma extending_deepcopy_rows rids :
  ∀ rmemo pmemo, extending (deepcopy_rows rmemo pmemo rids).
Proof.
  induction rids as [|rid rids IH]; intros rmemo pmemo; simpl; frame.
Qed.
#[export] Hint Resolve extending_deepcopy_rows : frame.

(** What the stores other than [pieces] look like after a copy of cells. *)
Lemma deepcopy_cells_others cells : ∀ memo h r h',
  deepcopy_cells memo cells h = Some (r, h') →
  rows h' = rows h ∧ boards h' = boards h ∧ games h' = games h.
Proof.
  induction cells as [|[p|] cells IH]; intros memo h r h' H; simpl in H.
  - by inv_M.
  - inv_M.
    on (deepcopy_cells _ _ _ = _) (fun E => apply IH in E as (-> & -> & ->)).
    on (deepcopy_piece _ _ _ = _) (fun E =>
      unfold deepcopy_piece, get_piece, alloc_piece in E; destruct (memo !! p); inv_M);
      done.
  - inv_M. by eapply IH.
Qed.

(** Row addresses handed out by a copy lie above those of the store the copy
    started in. *)
Lemma deepcopy_row_fresh N rmemo pmemo rid h rid' rmemo' pmemo' h' :
  deepcopy_row rmemo pmemo rid h = Some ((rid', rmemo', pmemo'), h') →
  map_Forall (fun _ v => N ≤ v) rmemo → N ≤ length (rows h) →
  N ≤ rid' ∧ map_Forall (fun _ v => N ≤ v) rmemo' ∧ N ≤ length (rows h') ∧
  boards h' = boards h ∧ games h' = games h.
Proof.
  unfold deepcopy_row. intros H Hm HN. destruct (rmemo !! rid) as [r|] eqn:Er.
  - inv_M. split; [by eapply Hm|done].
  - unfold get_row, alloc_row in H. inv_M.
    on (deepcopy_cells _ _ _ = _) (fun E => apply deepcopy_cells_others in E as (Hr & Hb & Hg)).
    simpl. rewrite Hr, Hb, Hg, length_app. simpl.
    repeat split; try done; try lia.
    apply map_Forall_insert_2; [lia | done].
Qed.

Lemma deepcopy_rows_fresh N rids : ∀ rmemo pmemo h rids' rmemo' pmemo' h',
  deepcopy_rows rmemo pmemo rids h = Some ((rids', rmemo', pmemo'), h') →
  map_Forall (fun _ v => N ≤ v) rmemo → N ≤ length (rows h) →
  Forall (fun rid => N ≤ rid) rids' ∧ boards h' = boards h ∧ games h' = games h.
Proof.
  induction rids as [|rid rids IH]; intros rmemo pmemo h rids' rmemo' pmemo' h' H Hm HN;
    simpl in H.
  - by inv_M.
  - inv_M.
    on (deepcopy_row _ _ _ _ = _) (fun E =>
      eapply deepcopy_row_fresh in E as (? & ? & ? & Hb & Hg); [|done..]).
    on (deepcopy_rows _ _ _ _ = _) (fun E =>
      eapply IH in E as (? & -> & ->); [|done..]).
    rewrite Hb, Hg. by repeat constructor.
Qed.

(** The shape of the store after [make_copy_game]. *)
Lemma make_copy_game_inv self h c h' :
  make_copy_game self h = Some (c, h') →
  ∃ g rids rids' rm pm h1,
    games h !! self = Some g ∧ boards h !! board g = Some rids ∧
    deepcopy_rows ∅ ∅ rids h = Some ((rids', rm, pm), h1) ∧
    c = length (games h) ∧
    h' = mkHeap (pieces h1) (rows h1) (boards h ++ [rids'])
           (games h ++ [mkGame (length (boards h)) (is_white_move g) "MENU"
                               true true 0 false false]).
Proof.
  unfold make_copy_game, deepcopy_board, CheckersGame_init. intros H.
  unfold get_game, get_board, alloc_board, alloc_game, put_game in H. inv_M.
  case_decide; [|done]. simplify_eq. simpl in *.
  on (deepcopy_rows _ _ _ _ = _) (fun E =>
    pose proof (deepcopy_rows_fresh 0 _ _ _ _ _ _ _ _ E) as (_ & Hb & Hg);
    [apply map_Forall_empty | lia |]).
  rewrite Hb, Hg in *.
  on (_ !! length _ = Some _) (fun E =>
    rewrite lookup_app_r in E by lia; rewrite Nat.sub_diag in E; simpl in E).
  simplify_eq. simpl.
  eexists _, _, _, _, _, _. split_and!; try done.
  f_equal. rewrite insert_app_r_alt by lia. by rewrite Nat.sub_diag.
Qed.

Lemma extending_make_copy_game self : extending (make_copy_game self).
Proof.
  intros h c h' H. apply make_copy_game_inv in H
    as (g & rids & rids' & rm & pm & h1 & _ & _ & Hd & _ & ->).
  apply extending_deepcopy_rows in Hd as (? & ? & ? & ?).
  repeat split; simpl; try done; apply prefix_snoc.
Qed.
#[export] Hint Resolve extending_make_copy_game : frame.

(** The rows of the copy are new. *)
Lemma make_copy_game_fresh_rows self h c h' :
  make_copy_game self h = Some (c, h') →
  ∃ gm rids, games h' !! c = Some gm ∧ boards h' !! board gm = Some rids ∧
             Forall (fun rid => length (rows h) ≤ rid) rids.
Proof.
  intros H. apply make_copy_game_inv in H
    as (g & rids & rids' & rm & pm & h1 & _ & _ & Hd & -> & ->).
  eapply deepcopy_rows_fresh in Hd as (? & ? & ?); [|apply map_Forall_empty|done].
  eexists _, rids'. simpl. split_and!; [| |done].
  - rewrite lookup_app_r by lia. by rewrite Nat.sub_diag.
  - cbn. rewrite lookup_app_r by lia. by rewrite Nat.sub_diag.
Qed.

(** Writing to a board whose rows are new leaves the old store alone. *)
Lemma board_set_fresh h0 h g gm rids r c v h' :
  extends h0 h → games h !! g = Some gm → boards h !! board gm = Some rids →
  Forall (fun rid => length (rows h0) ≤ rid) rids →
  board_set g r c v h = Some (tt, h') → extends h0 h'.
Proof.
  intros (Hp & Hr & Hb & Hg) Eg Eb Hf H.
  unfold board_set, get_game, get_board, get_row in H. inv_M.
  case_decide; [|by inv_M]. unfold put_row in H. case_decide; [|done].
  simplify_eq. repeat split; simpl; try done.
  apply prefix_insert_ge; [done|]. rewrite Forall_forall in Hf. apply Hf.
  by eapply list_elem_of_lookup_2.
Qed.

Lemma extending_copy_set {A} self r c v (k : ref -> M A) :
  (∀ tg, extending (k tg)) →
  extending (tg <- make_copy_game self ;; board_set tg r c v ;;; k tg).
Proof.
  intros Hk h b h' H. inv_M.
  on (make_copy_game _ _ = _) (fun E =>
    pose proof (extending_make_copy_game _ _ _ _ E) as Hext;
    apply make_copy_game_fresh_rows in E as (gm & rids & Eg & Eb & Hf)).
  eapply extends_trans; [|by eapply Hk].
  by eapply board_set_fresh.
Qed.

(** ** The probes allocate and change nothing *)

Section probes.
Variable extra : ref -> nat * nat -> nat * nat -> ref -> M (list Move).
Hypothesis extra_extending : ∀ self og loc p, extending (extra self og loc p).

Lemma extending_check_tl self white loc p double :
  extending (check_tl extra self white loc p double).
Proof using extra_extending. unfold check_tl. frame. Qed.

Lemma extending_check_tr self white loc p double :
  extending (check_tr extra self white loc p double).
Proof using extra_extending. unfold check_tr. frame. Qed.

Lemma extending_check_bl self white loc p double :
  extending (check_bl extra self white loc p double).
Proof using extra_extending. unfold check_bl. frame. Qed.

Lemma extending_check_br self white loc p double :
  extending (check_br extra self white loc p double).
Proof using extra_extending. unfold check_br. frame. Qed.
End probes.

Lemma extending_check_additional_capture fuel : ∀ self og loc p,
  extending (_check_additional_capture fuel self og loc p).
Proof.
  induction fuel as [|fuel IH]; intros self og loc p; simpl.
  - apply extending_raise.
  - apply extending_copy_set. intros tg.
    pose proof (extending_check_tl _ IH). pose proof (extending_check_tr _ IH).
    pose proof (extending_check_bl _ IH). pose proof (extending_check_br _ IH).
    frame.
Qed.
#[export] Hint Resolve extending_check_additional_capture : frame.

Lemma extending_probe_piece self white piece_info :
  extending (probe_piece self white piece_info).
Proof.
  unfold probe_piece.
  pose proof (extending_check_tl _ (extending_check_additional_capture chain_fuel)).
  pose proof (extending_check_tr _ (extending_check_additional_capture chain_fuel)).
  pose proof (extending_check_bl _ (extending_check_additional_capture chain_fuel)).
  pose proof (extending_check_br _ (extending_check_additional_capture chain_fuel)).
  frame.
Qed.
#[export] Hint Resolve extending_probe_piece : frame.

Lemma extending_find_legal_moves self : extending (find_legal_moves self).
Proof. unfold find_legal_moves. frame. Qed.
#[export] Hint Resolve extending_find_legal_moves : frame.

Lemma extending_find_legal_moves_one_piece self piece_info :
  extending (find_legal_moves_one_piece self piece_info).
Proof. unfold find_legal_moves_one_piece. frame. Qed.


(** ** Reading a game back from the store *)

Lemma mapM_mono {A B} (f g : A -> option B) l k :
  (∀ x y, f x = Some y → g x = Some y) → mapM f l = Some k → mapM g l = Some k.
Proof.
  intros Hfg. rewrite !mapM_Some. intros H. eapply Forall2_impl; [exact H|auto].
Qed.

Lemma ref_board_extends h h' g rb :
  extends h h' → ref_board h g = Some rb → ref_board h' g = Some rb.
Proof.
  intros (Hp & Hr & Hb & Hg) H. unfold ref_board in *.
  destruct (games h !! g) as [gm|] eqn:Eg; [|done]. simpl in H.
  rewrite (prefix_lookup_Some _ _ _ _ Eg Hg). simpl.
  destruct (boards h !! board gm) as [rids|] eqn:Eb; [|done]. simpl in H.
  rewrite (prefix_lookup_Some _ _ _ _ Eb Hb). simpl.
  destruct (mapM _ rids) as [cb|] eqn:Ec; [|done]. simpl in H.
  assert (mapM (fun rid => rows h' !! rid) rids = Some cb) as ->; [|done].
  eapply mapM_mono; [|exact Ec]. intros x y ?; simpl in *; eauto using prefix_lookup_Some.
Qed.

Lemma cell_value_extends h h' c v :
  extends h h' → cell_value h c = Some v → cell_value h' c = Some v.
Proof.
  intros (Hp & _) H. destruct c as [p|]; [|done]. simpl in *.
  destruct (pieces h !! p) as [pc|] eqn:Ep; [|done].
  by rewrite (prefix_lookup_Some _ _ _ _ Ep Hp).
Qed.

Lemma abs_game_extends h h' g G :
  extends h h' → abs_game h g = Some G → abs_game h' g = Some G.
Proof.
  intros He H. unfold abs_game in *.
  destruct (games h !! g) as [gm|] eqn:Eg; [|done]. simpl in H.
  rewrite (prefix_lookup_Some _ _ _ _ Eg (proj2 (proj2 (proj2 He)))). simpl.
  destruct (ref_board h g) as [rb|] eqn:Er; [|done]. simpl in H.
  rewrite (ref_board_extends _ _ _ _ He Er). simpl.
  destruct (mapM _ rb.2) as [b|] eqn:Eb; [|done]. simpl in H.
  assert (mapM (mapM (cell_value h')) rb.2 = Some b) as ->; [|done].
  eapply mapM_mono; [|exact Eb].
  intros x y. apply mapM_mono. intros ??. by apply cell_value_extends.
Qed.

Lemma separate_extends h h' g : extends h h' → separate h g → separate h' g.
Proof.
  intros He (rids & cb & Hrb & ?). exists rids, cb. split; [|done].
  by eapply ref_board_extends.
Qed.

Lemma game_extends h h' g gm :
  extends h h' → games h !! g = Some gm → games h' !! g = Some gm.
Proof. intros (_ & _ & _ & Hg) H. by eapply prefix_lookup_Some. Qed.

Lemma piece_extends h h' p pc :
  extends h h' → pieces h !! p = Some pc → pieces h' !! p = Some pc.
Proof. intros (Hp & _) H. by eapply prefix_lookup_Some. Qed.

(** ** The mandatory capture rule *)

Lemma captures_first_all normal_moves :
  (∃ m, m ∈ captures_first normal_moves ∧ piece_captured m = true) →
  ∀ m, m ∈ captures_first normal_moves → piece_captured m = true.
Proof.
  unfold captures_first.
  destruct (filter _ normal_moves) as [|m0 l] eqn:Ef.
  - intros (m & Hm & Hc) m' _. exfalso.
    eapply (filter_nil_not_elem_of _ _ m); [exact Ef|exact Hc|exact Hm].
  - intros _ m Hm. rewrite <- Ef in Hm. by apply list_elem_of_filter in Hm as [? _].
Qed.


(** ** [deepcopy] makes a faithful, disjoint copy *)

Lemma copied_mono pm pm' c c' : pm ⊆ pm' → copied pm c c' → copied pm' c c'.
Proof.
  intros Hs. destruct c, c'; simpl; try done. intros ?. by eapply lookup_weaken.
Qed.

Lemma deepcopy_piece_spec h0 h pm p pc :
  extends h0 h → pmemo_ok h0 h pm → pieces h0 !! p = Some pc →
  ∃ p' pm' h', deepcopy_piece pm p h = Some ((p', pm'), h') ∧
    extends h h' ∧ rows h' = rows h ∧ boards h' = boards h ∧ games h' = games h ∧
    pm ⊆ pm' ∧ pm' !! p = Some p' ∧ pmemo_ok h0 h' pm'.
Proof.
  intros He [Hok Hinj] Hp. unfold deepcopy_piece.
  destruct (pm !! p) as [p'|] eqn:Epm.
  - exists p', pm, h. split_and!; try done; try apply extends_refl.
  - pose proof (piece_extends _ _ _ _ He Hp) as Hp'.
    unfold get_piece. rewrite (bind_eq _ _ _ pc h) by (by rewrite Hp').
    eexists _, _, _. split; [reflexivity|]. simpl.
    split_and!; try done.
    + repeat split; simpl; try done. apply prefix_snoc.
    + by apply insert_subseteq.
    + by rewrite lookup_insert_eq.
    + split.
      * intros q q' Hq. destruct (decide (q = p)) as [->|Hne].
        -- rewrite lookup_insert_eq in Hq. injection Hq as <-.
           split; [apply prefix_length, He|].
           exists pc. split; [done|]. apply list_lookup_middle. done.
        -- rewrite lookup_insert_ne in Hq by done.
           destruct (Hok _ _ Hq) as (? & pc' & ? & ?).
           split; [done|]. exists pc'. split; [done|]. by apply lookup_app_l_Some.
      * intros q1 q2 v H1 H2.
        destruct (decide (q1 = p)) as [->|Hne1], (decide (q2 = p)) as [->|Hne2];
          try done.
        -- rewrite lookup_insert_eq in H1. rewrite lookup_insert_ne in H2 by done.
           injection H1 as <-. destruct (Hok _ _ H2) as (_ & pc' & _ & Hl).
           apply lookup_lt_Some in Hl. lia.
        -- rewrite lookup_insert_eq in H2. rewrite lookup_insert_ne in H1 by done.
           injection H2 as <-. destruct (Hok _ _ H1) as (_ & pc' & _ & Hl).
           apply lookup_lt_Some in Hl. lia.
        -- rewrite lookup_insert_ne in H1, H2 by done. by eapply Hinj.
Qed.

Lemma deepcopy_cells_spec h0 cells : ∀ h pm,
  extends h0 h → pmemo_ok h0 h pm →
  Forall (fun c => is_Some (cell_value h0 c)) cells →
  ∃ cells' pm' h', deepcopy_cells pm cells h = Some ((cells', pm'), h') ∧
    extends h h' ∧ rows h' = rows h ∧ boards h' = boards h ∧ games h' = games h ∧
    pm ⊆ pm' ∧ pmemo_ok h0 h' pm' ∧ Forall2 (copied pm') cells cells'.
Proof.
  induction cells as [|[p|] cells IH]; intros h pm He Hok Hv; simpl.
  - exists [], pm, h. split_and!; try done; try apply extends_refl.
  - apply Forall_cons in Hv as [[v Hv] Hvs]. simpl in Hv.
    destruct (pieces h0 !! p) as [pc|] eqn:Ep; [|done].
    destruct (deepcopy_piece_spec h0 h pm p pc He Hok Ep)
      as (p' & pm1 & h1 & E1 & He1 & Hr1 & Hb1 & Hg1 & Hs1 & Hl1 & Hok1).
    destruct (IH h1 pm1 (extends_trans _ _ _ He He1) Hok1 Hvs)
      as (cells' & pm2 & h2 & E2 & He2 & Hr2 & Hb2 & Hg2 & Hs2 & Hok2 & Hf2).
    exists (Some p' :: cells'), pm2, h2.
    rewrite (bind_eq _ _ _ _ _ E1). simpl. rewrite (bind_eq _ _ _ _ _ E2). simpl.
    split_and!; try done; try congruence.
    + by eapply extends_trans.
    + by etrans.
    + constructor; [|done]. simpl. by eapply lookup_weaken.
  - apply Forall_cons in Hv as [_ Hvs].
    destruct (IH h pm He Hok Hvs)
      as (cells' & pm2 & h2 & E2 & He2 & Hr2 & Hb2 & Hg2 & Hs2 & Hok2 & Hf2).
    exists (None :: cells'), pm2, h2.
    rewrite (bind_eq _ _ _ _ _ E2). simpl.
    split_and!; try done. by constructor.
Qed.

Lemma pmemo_ok_pieces h0 h h' pm :
  pieces h' = pieces h → pmemo_ok h0 h pm → pmemo_ok h0 h' pm.
Proof. intros E [Hok Hinj]. split; [|done]. intros ???. rewrite E. eauto. Qed.

Lemma rmemo_ok_mono h0 h h' rm pm pm' :
  extends h h' → pm ⊆ pm' → rmemo_ok h0 h rm pm → rmemo_ok h0 h' rm pm'.
Proof.
  intros (_ & Hr & _) Hs [Hok Hinj]. split; [|done].
  intros r r' H. destruct (Hok _ _ H) as (? & row & row' & ? & ? & Hf).
  split; [done|]. exists row, row'. split_and!; [done| |].
  - by eapply prefix_lookup_Some.
  - eapply Forall2_impl; [exact Hf|]. intros ??. by apply copied_mono.
Qed.

Lemma deepcopy_row_spec h0 h rm pm rid row :
  extends h0 h → pmemo_ok h0 h pm → rmemo_ok h0 h rm pm →
  rows h0 !! rid = Some row → Forall (fun c => is_Some (cell_value h0 c)) row →
  ∃ rid' rm' pm' h', deepcopy_row rm pm rid h = Some ((rid', rm', pm'), h') ∧
    extends h h' ∧ boards h' = boards h ∧ games h' = games h ∧
    rm ⊆ rm' ∧ pm ⊆ pm' ∧ rm' !! rid = Some rid' ∧
    pmemo_ok h0 h' pm' ∧ rmemo_ok h0 h' rm' pm'.
Proof.
  intros He Hpok Hrok Hrow Hv. unfold deepcopy_row.
  destruct (rm !! rid) as [rid'|] eqn:Erm.
  - exists rid', rm, pm, h. split_and!; try done; try apply extends_refl.
  - assert (rows h !! rid = Some row) as Hrow'.
    { destruct He as (_ & Hr & _). by eapply prefix_lookup_Some. }
    unfold get_row. rewrite (bind_eq _ _ _ row h) by (by rewrite Hrow').
    destruct (deepcopy_cells_spec h0 row h pm He Hpok Hv)
      as (cells' & pm1 & h1 & E1 & He1 & Hr1 & Hb1 & Hg1 & Hs1 & Hok1 & Hf1).
    rewrite (bind_eq _ _ _ _ _ E1). simpl.
    eexists _, _, _, _. split; [reflexivity|]. simpl.
    assert (extends h1 (mkHeap (pieces h1) (rows h1 ++ [cells']) (boards h1) (games h1)))
      as He2 by (repeat split; simpl; try done; apply prefix_snoc).
    assert (pmemo_ok h0 (mkHeap (pieces h1) (rows h1 ++ [cells']) (boards h1) (games h1)) pm1)
      as Hpok' by (by eapply pmemo_ok_pieces).
    assert (rmemo_ok h0 (mkHeap (pieces h1) (rows h1 ++ [cells']) (boards h1) (games h1))
              (<[rid:=length (rows h1)]> rm) pm1) as Hrok'.
    { destruct Hrok as [Hrok Hrinj]. split.
      * intros r r' Hr. destruct (decide (r = rid)) as [->|Hne].
        -- rewrite lookup_insert_eq in Hr. injection Hr as <-.
           split.
           ++ rewrite Hr1. apply prefix_length, He.
           ++ exists row, cells'. split_and!; [done| |done].
              simpl. by apply list_lookup_middle.
        -- rewrite lookup_insert_ne in Hr by done.
           destruct (Hrok _ _ Hr) as (? & row1 & row1' & ? & Hl & Hf).
           split; [done|]. exists row1, row1'. split_and!; [done| |].
           ++ simpl. apply lookup_app_l_Some. by rewrite Hr1.
           ++ eapply Forall2_impl; [exact Hf|]. intros ??. by apply copied_mono.
      * intros q1 q2 v H1 H2.
        destruct (decide (q1 = rid)) as [->|Hne1], (decide (q2 = rid)) as [->|Hne2];
          try done.
        -- rewrite lookup_insert_eq in H1. rewrite lookup_insert_ne in H2 by done.
           injection H1 as <-. destruct (Hrok _ _ H2) as (_ & ? & ? & _ & Hl & _).
           apply lookup_lt_Some in Hl. rewrite Hr1 in *. lia.
        -- rewrite lookup_insert_eq in H2. rewrite lookup_insert_ne in H1 by done.
           injection H2 as <-. destruct (Hrok _ _ H1) as (_ & ? & ? & _ & Hl & _).
           apply lookup_lt_Some in Hl. rewrite Hr1 in *. lia.
        -- rewrite lookup_insert_ne in H1, H2 by done. by eapply Hrinj. }
    split; [by eapply extends_trans|].
    split; [done|]. split; [done|].
    split; [by apply insert_subseteq|]. split; [done|].
    split; [by rewrite lookup_insert_eq|]. done.
Qed.

Lemma deepcopy_rows_spec h0 rids : ∀ cb h rm pm,
  extends h0 h → pmemo_ok h0 h pm → rmemo_ok h0 h rm pm →
  Forall2 (fun rid row => rows h0 !! rid = Some row) rids cb →
  Forall (Forall (fun c => is_Some (cell_value h0 c))) cb →
  ∃ rids' rm' pm' h', deepcopy_rows rm pm rids h = Some ((rids', rm', pm'), h') ∧
    extends h h' ∧ boards h' = boards h ∧ games h' = games h ∧
    rm ⊆ rm' ∧ pm ⊆ pm' ∧
    Forall2 (fun rid rid' => rm' !! rid = Some rid') rids rids' ∧
    pmemo_ok h0 h' pm' ∧ rmemo_ok h0 h' rm' pm'.
Proof.
  induction rids as [|rid rids IH]; intros cb h rm pm He Hpok Hrok Hf Hv; simpl.
  - exists [], rm, pm, h. split_and!; try done; try apply extends_refl.
  - apply Forall2_cons_inv_l in Hf as (row & cb' & Hrow & Hf & ->).
    apply Forall_cons in Hv as [Hv Hvs].
    destruct (deepcopy_row_spec h0 h rm pm rid row He Hpok Hrok Hrow Hv)
      as (rid' & rm1 & pm1 & h1 & E1 & He1 & Hb1 & Hg1 & Hrs1 & Hps1 & Hl1 & Hpok1 & Hrok1).
    destruct (IH cb' h1 rm1 pm1 (extends_trans _ _ _ He He1) Hpok1 Hrok1 Hf Hvs)
      as (rids' & rm2 & pm2 & h2 & E2 & He2 & Hb2 & Hg2 & Hrs2 & Hps2 & Hf2 & Hpok2 & Hrok2).
    exists (rid' :: rids'), rm2, pm2, h2.
    rewrite (bind_eq _ _ _ _ _ E1). simpl. rewrite (bind_eq _ _ _ _ _ E2). simpl.
    split; [done|]. split; [by eapply extends_trans|].
    split; [congruence|]. split; [congruence|].
    split; [by etrans|]. split; [by etrans|].
    split; [|done]. constructor; [|done]. by eapply lookup_weaken.
Qed.

(** ** [make_copy_game] *)

Lemma ref_board_Some h g rids cb :
  ref_board h g = Some (rids, cb) ↔
  ∃ gm, games h !! g = Some gm ∧ boards h !! board gm = Some rids ∧
        Forall2 (fun rid row => rows h !! rid = Some row) rids cb.
Proof.
  unfold ref_board. split.
  - intros H. destruct (games h !! g) as [gm|]; [|done]. simpl in H.
    destruct (boards h !! board gm) as [rids0|] eqn:Eb; [|done]. simpl in H.
    destruct (mapM _ rids0) as [cb0|] eqn:E; [|done]. simpl in H.
    injection H as -> ->. exists gm. split_and!; [done..|]. by apply mapM_Some.
  - intros (gm & -> & Hb & Hf). simpl. rewrite Hb. simpl.
    apply mapM_Some in Hf. by rewrite Hf.
Qed.

Lemma abs_game_Some h g G :
  abs_game h g = Some G ↔
  ∃ gm rids cb b, games h !! g = Some gm ∧ ref_board h g = Some (rids, cb) ∧
    Forall2 (Forall2 (fun c v => cell_value h c = Some v)) cb b ∧
    G = abs_fields gm b.
Proof.
  unfold abs_game. split.
  - intros H. destruct (games h !! g) as [gm|]; [|done]. simpl in H.
    destruct (ref_board h g) as [[rids cb]|] eqn:Erb; [|done]. simpl in H.
    destruct (mapM _ cb) as [b|] eqn:E; [|done]. simpl in H. injection H as <-.
    exists gm, rids, cb, b. split_and!; [done..| |done].
    apply mapM_Some in E. eapply Forall2_impl; [exact E|].
    intros ??. by rewrite mapM_Some.
  - intros (gm & rids & cb & b & -> & -> & Hf & ->). simpl.
    assert (mapM (mapM (cell_value h)) cb = Some b) as ->; [|done].
    apply mapM_Some. eapply Forall2_impl; [exact Hf|].
    intros ??. by rewrite mapM_Some.
Qed.

Lemma Forall2_compose_l {A B C} (R : A → B → Prop) (S : A → C → Prop)
    (T : B → C → Prop) l k m :
  (∀ a b c, R a b → S a c → T b c) → Forall2 R l k → Forall2 S l m → Forall2 T k m.
Proof.
  intros HT HR. revert m. induction HR; intros m HS; inversion HS; subst;
    constructor; eauto.
Qed.

Lemma ref_at_Some cb r c p :
  ref_at cb r c = Some p ↔ ∃ row, cb !! r = Some row ∧ row !! c = Some (Some p).
Proof.
  unfold ref_at. split.
  - intros H. destruct (cb !! r) as [row|]; [|done]. simpl in H.
    destruct (row !! c) as [[q|]|] eqn:Ec; simpl in H; try done. injection H as ->. eauto.
  - intros (row & -> & H). simpl. by rewrite H.
Qed.

Lemma ref_at_copied pm cb cb' r c p' :
  Forall2 (Forall2 (copied pm)) cb cb' → ref_at cb' r c = Some p' →
  ∃ p, ref_at cb r c = Some p ∧ pm !! p = Some p'.
Proof.
  intros Hf H. apply ref_at_Some in H as (row' & Hr & Hc).
  destruct (Forall2_lookup_r _ _ _ _ _ Hf Hr) as (row & Hr0 & Hf0).
  destruct (Forall2_lookup_r _ _ _ _ _ Hf0 Hc) as ([p|] & Hc0 & Hcp); [|done].
  exists p. split; [|done]. apply ref_at_Some. eauto.
Qed.

(** The rows of the copy, read through the row memo. *)
Lemma copied_rows_view h0 h rm pm rids rids' cb :
  rmemo_ok h0 h rm pm →
  Forall2 (fun rid row => rows h0 !! rid = Some row) rids cb →
  Forall2 (fun rid rid' => rm !! rid = Some rid') rids rids' →
  ∃ cb', Forall2 (fun rid' row' => rows h !! rid' = Some row') rids' cb' ∧
         Forall2 (Forall2 (copied pm)) cb cb' ∧
         Forall (fun rid' => length (rows h0) ≤ rid') rids'.
Proof.
  intros [Hok _] Hf. revert rids'.
  induction Hf as [|rid row rids cb Hrow Hf IH]; intros rids' Hm.
  - inversion Hm; subst. exists []. by repeat constructor.
  - inversion Hm as [|? rid' ? rids1 Hrid Hm']; subst.
    destruct (IH _ Hm') as (cb' & ? & ? & ?).
    destruct (Hok _ _ Hrid) as (? & row0 & row' & Hrow0 & ? & ?).
    rewrite Hrow in Hrow0. injection Hrow0 as <-.
    exists (row' :: cb'). by repeat constructor.
Qed.

Lemma make_copy_game_eq self h gm rids rids' rm pm h1 :
  games h !! self = Some gm → boards h !! board gm = Some rids →
  deepcopy_rows ∅ ∅ rids h = Some ((rids', rm, pm), h1) →
  boards h1 = boards h → games h1 = games h →
  make_copy_game self h =
    Some (length (games h),
          mkHeap (pieces h1) (rows h1) (boards h ++ [rids'])
            (games h ++ [mkGame (length (boards h)) (is_white_move gm) "MENU"
                                true true 0 false false])).
Proof.
  intros Eg Eb Ed Hb Hg. unfold make_copy_game, deepcopy_board, CheckersGame_init.
  unfold get_game at 1. rewrite (bind_eq _ _ _ gm h) by (by rewrite Eg).
  rewrite (bind_eq _ _ _ (length (boards h))
             (mkHeap (pieces h1) (rows h1) (boards h ++ [rids']) (games h))).
  2: { unfold get_board. rewrite (bind_eq _ _ _ rids h) by (by rewrite Eb).
       rewrite (bind_eq _ _ _ _ _ Ed). unfold alloc_board. by rewrite Hb, Hg. }
  unfold alloc_game, get_game, put_game, bind, lift, ret. simpl.
  rewrite lookup_app_r by lia. rewrite Nat.sub_diag. simpl.
  rewrite length_app. simpl. case_decide; [|lia].
  do 3 f_equal. rewrite insert_app_r_alt by lia. by rewrite Nat.sub_diag.
Qed.

Lemma memo_empty_ok h : pmemo_ok h h ∅ ∧ rmemo_ok h h ∅ ∅.
Proof. repeat split; intros; by simplify_map_eq. Qed.

Lemma make_copy_game_spec self h G :
  abs_game h self = Some G →
  ∃ c h', make_copy_game self h = Some (c, h') ∧ extends h h' ∧
    abs_game h' c = Some (Rules.make_copy_game G) ∧ beyond h h' c ∧
    (separate h self → separate h' c).
Proof.
  intros HG. apply abs_game_Some in HG as (gm & rids & cb & b & Eg & Erb & Hb & ->).
  apply ref_board_Some in Erb as (gm' & Eg' & Eb & Hrows).
  rewrite Eg in Eg'. injection Eg' as <-.
  assert (Forall (Forall (fun c => is_Some (cell_value h c))) cb) as Hv.
  { apply Forall_forall. intros row Hrow. apply Forall_forall. intros c Hc.
    apply list_elem_of_lookup in Hrow as [i Hi].
    destruct (Forall2_lookup_l _ _ _ _ _ Hb Hi) as (brow & _ & Hf).
    apply list_elem_of_lookup in Hc as [j Hj].
    destruct (Forall2_lookup_l _ _ _ _ _ Hf Hj) as (v & _ & ->). eauto. }
  destruct (memo_empty_ok h) as [Hp0 Hr0].
  destruct (deepcopy_rows_spec h rids cb h ∅ ∅ (extends_refl h) Hp0 Hr0 Hrows Hv)
    as (rids' & rm & pm & h1 & Ed & He & Hbs & Hgs & _ & _ & Hmemo & Hpok & Hrok).
  pose proof (make_copy_game_eq _ _ _ _ _ _ _ _ Eg Eb Ed Hbs Hgs) as Hcopy.
  destruct (copied_rows_view _ _ _ _ _ _ _ Hrok Hrows Hmemo) as (cb' & Hrows' & Hcb & Hfresh).
  set (gm' := mkGame (length (boards h)) (is_white_move gm) "MENU" true true 0 false false)
    in *.
  set (h' := mkHeap (pieces h1) (rows h1) (boards h ++ [rids']) (games h ++ [gm'])) in *.
  assert (games h' !! length (games h) = Some gm') as Eg'.
  { simpl. by apply list_lookup_middle. }
  assert (ref_board h' (length (games h)) = Some (rids', cb')) as Erb'.
  { apply ref_board_Some. exists gm'. split_and!; [done| |done].
    simpl. by apply list_lookup_middle. }
  exists (length (games h)), h'. split; [done|].
  split; [by eapply extending_make_copy_game|].
  split; [|split; [|]].
  - apply abs_game_Some. exists gm', rids', cb', b. split_and!; [done..| |done].
    eapply Forall2_compose_l; [|exact Hcb|exact Hb].
    intros row row' brow Hc Hbr. eapply Forall2_compose_l; [|exact Hc|exact Hbr].
    intros [p|] [p'|] v; simpl; try done. intros Hpm Hval.
    destruct Hpok as [Hpok _]. destruct (Hpok _ _ Hpm) as (_ & pc & Hp & Hp').
    rewrite Hp in Hval. simpl in Hval. by rewrite Hp'.
  - split; [done|]. exists rids', cb'. split_and!; [done..|].
    intros r c p' Hat. destruct (ref_at_copied _ _ _ _ _ _ Hcb Hat) as (p & _ & Hpm).
    destruct Hpok as [Hpok _]. by destruct (Hpok _ _ Hpm) as (? & _).
  - intros (rids0 & cb0 & Erb0 & Hnd & Hinj).
    assert (ref_board h self = Some (rids, cb)) as Erb1.
    { apply ref_board_Some. by exists gm. }
    rewrite Erb1 in Erb0. injection Erb0 as <- <-.
    exists rids', cb'. split_and!; [done| |].
    + destruct Hrok as [_ Hrinj]. apply NoDup_alt. intros i j x Hi Hj.
      destruct (Forall2_lookup_r _ _ _ _ _ Hmemo Hi) as (ri & Hri & Hmi).
      destruct (Forall2_lookup_r _ _ _ _ _ Hmemo Hj) as (rj & Hrj & Hmj).
      pose proof (Hrinj _ _ _ Hmi Hmj) as <-.
      by eapply (proj1 (NoDup_alt rids) Hnd).
    + intros r c r' c' p' H1 H2.
      destruct (ref_at_copied _ _ _ _ _ _ Hcb H1) as (p1 & Hp1 & Hm1).
      destruct (ref_at_copied _ _ _ _ _ _ Hcb H2) as (p2 & Hp2 & Hm2).
      destruct Hpok as [_ Hpinj]. pose proof (Hpinj _ _ _ Hm1 Hm2) as <-.
      by eapply Hinj.
Qed.


(** ** Refinement: the combinators *)

Lemma refines_ret {A B} (R : Heap -> A -> B -> Prop) a b h :
  R h a b → refines R (ret a) h (Some b).
Proof. intros. exists a, h. split_and!; [done| apply extends_refl |done]. Qed.

Lemma refines_same_ret {A} (a : A) h : refines same (ret a) h (Some a).
Proof. by apply refines_ret. Qed.

Lemma refines_raise {A B} (R : Heap -> A -> B -> Prop) h :
  refines R (@raise A) h None.
Proof. done. Qed.

Lemma refines_bind {A A' B B'} (R : Heap -> A -> A' -> Prop)
    (S : Heap -> B -> B' -> Prop) (m : M A) (f : A -> M B) h o (g : A' -> option B') :
  refines R m h o →
  (∀ a a' h', extends h h' → R h' a a' → refines S (f a) h' (g a')) →
  refines S (bind m f) h (o ≫= g).
Proof.
  intros Hm Hf. destruct o as [a'|]; simpl in *.
  - destruct Hm as (a & h1 & E & He & HR).
    specialize (Hf a a' h1 He HR). unfold refines in *.
    destruct (g a') as [b'|].
    + destruct Hf as (b & h2 & E2 & He2 & HS). exists b, h2.
      rewrite (bind_eq _ _ _ _ _ E).
      split_and!; [done| by eapply extends_trans |done].
    + by rewrite (bind_eq _ _ _ _ _ E).
  - by apply bind_None.
Qed.

(** A step that reads the store without changing it. *)
Lemma refines_read {A B C} (R : Heap -> B -> C -> Prop) (m : M A) (f : A -> M B)
    h a o :
  m h = Some (a, h) → refines R (f a) h o → refines R (bind m f) h o.
Proof. intros E. unfold refines. by rewrite (bind_eq _ _ _ _ _ E). Qed.

Lemma refines_weaken {A B} (R S : Heap -> A -> B -> Prop) m h o :
  (∀ h' a b, R h' a b → S h' a b) → refines R m h o → refines S m h o.
Proof.
  intros HRS. destruct o; simpl; [|done].
  intros (a & h' & ? & ? & ?). exists a, h'. eauto.
Qed.

Lemma for_extend_cons {A B} (f : A -> option (list B)) x l :
  Rules.for_extend (x :: l) f =
  (ys ← f x; zs ← Rules.for_extend l f; Some (ys ++ zs)).
Proof.
  unfold Rules.for_extend. simpl. destruct (f x) as [ys|]; simpl; [|done].
  destruct (mapM f l); simpl; done.
Qed.

Lemma refines_for_extend {A A' B B'} (P : Heap -> A -> A' -> Prop)
    (Q : Heap -> B -> B' -> Prop) l l' body pbody :
  stable P → stable Q → ∀ h,
  Forall2 (P h) l l' →
  (∀ x y h', extends h h' → P h' x y →
     refines (fun h => Forall2 (Q h)) (body x) h' (pbody y)) →
  refines (fun h => Forall2 (Q h)) (for_extend l body) h (Rules.for_extend l' pbody).
Proof.
  intros HP HQ h Hl. revert h Hl.
  induction l as [|x l IH] in l' |- *; intros h Hl Hb.
  - inversion Hl; subst. simpl.
    apply (refines_ret (fun h => Forall2 (Q h))). constructor.
  - inversion Hl as [|? y ? l0 Hxy Hl']; subst. rewrite for_extend_cons. simpl.
    eapply (refines_bind (fun h => Forall2 (Q h)) (fun h => Forall2 (Q h))).
    { apply Hb; [apply extends_refl|done]. }
    intros ys ys' h1 He1 Hys.
    eapply (refines_bind (fun h => Forall2 (Q h)) (fun h => Forall2 (Q h))).
    { apply IH.
      - eapply Forall2_impl; [exact Hl'|]. intros ??. by apply HP.
      - intros x0 y0 h' He' ?. apply Hb; [by eapply extends_trans|done]. }
    intros zs zs' h2 He2 Hzs. apply (refines_ret (fun h => Forall2 (Q h))).
    apply Forall2_app; [|done]. eapply Forall2_impl; [exact Hys|].
    intros ??. by apply HQ.
Qed.

Lemma stable_same {A} : stable (@same A).
Proof. by intros ?????. Qed.

Lemma stable_cell_is : stable cell_is.
Proof. intros h h' c v ??. by eapply cell_value_extends. Qed.

Lemma stable_located_is : stable located_is.
Proof. intros h h' x y ? [? ?]. split; [done|]. by eapply piece_extends. Qed.

Lemma Forall2_same {A} (h : Heap) (l k : list A) : Forall2 (same h) l k ↔ l = k.
Proof. unfold same. symmetry. apply list_eq_Forall2. Qed.

Lemma refines_for_extend_same {A A' B} (P : Heap -> A -> A' -> Prop)
    l l' (body : A -> M (list B)) pbody :
  stable P → ∀ h,
  Forall2 (P h) l l' →
  (∀ x y h', extends h h' → P h' x y → refines same (body x) h' (pbody y)) →
  refines same (for_extend l body) h (Rules.for_extend l' pbody).
Proof.
  intros HP h Hl Hb.
  eapply refines_weaken; [|eapply (refines_for_extend P same); try done].
  - intros ???. by rewrite Forall2_same.
  - apply stable_same.
  - intros x y h' ??. eapply refines_weaken; [|by apply Hb].
    intros ??? ->. by apply Forall2_same.
Qed.

(** ** Refinement: reading the board *)

Lemma board_get_refines h self G loc :
  abs_game h self = Some G →
  refines cell_is (board_get self loc.1 loc.2) h (Rules.get (Pure.board G) loc).
Proof.
  intros HG. apply abs_game_Some in HG as (gm & rids & cb & b & Eg & Erb & Hb & ->).
  apply ref_board_Some in Erb as (gm' & Eg' & Eb & Hrows).
  rewrite Eg in Eg'. injection Eg' as <-.
  unfold refines, board_get, Rules.get, get_game, get_board, get_row, bind, lift.
  rewrite Eg, Eb. cbn [Pure.board abs_fields].
  destruct (b !! loc.1) as [brow|] eqn:Ebr; simpl.
  - destruct (Forall2_lookup_r _ _ _ _ _ Hb Ebr) as (row & Hrow & Hf).
    destruct (Forall2_lookup_r _ _ _ _ _ Hrows Hrow) as (rid & Hrid & Hr).
    rewrite Hrid, Hr.
    destruct (brow !! loc.2) as [v|] eqn:Ev; simpl.
    + destruct (Forall2_lookup_r _ _ _ _ _ Hf Ev) as (c & Hc & Hcv).
      exists c, h. rewrite Hc. split_and!; [done| apply extends_refl |done].
    + assert (row !! loc.2 = None) as ->; [|done].
      apply lookup_ge_None. apply lookup_ge_None in Ev.
      by rewrite (Forall2_length _ _ _ Hf).
  - assert (rids !! loc.1 = None) as ->; [|done].
    apply lookup_ge_None. apply lookup_ge_None in Ebr.
    by rewrite (Forall2_length _ _ _ Hrows), (Forall2_length _ _ _ Hb).
Qed.

Lemma get_piece_eq h p pc : pieces h !! p = Some pc → get_piece p h = Some (pc, h).
Proof. unfold get_piece. by intros ->. Qed.

Lemma get_game_eq h g gm : games h !! g = Some gm → get_game g h = Some (gm, h).
Proof. unfold get_game. by intros ->. Qed.

Lemma cell_is_Some h p v :
  cell_is h (Some p) v → ∃ pc, v = Some pc ∧ pieces h !! p = Some pc.
Proof.
  unfold cell_is. simpl. destruct (pieces h !! p) as [pc|]; [|done].
  intros [= <-]. eauto.
Qed.

Lemma cell_is_None h v : cell_is h None v → v = None.
Proof. unfold cell_is. simpl. by intros [= <-]. Qed.

(** ** Refinement: the probes *)

(** One probe refines [Rules.check] in its direction, whatever the
    continuation, as long as the continuation refines its counterpart. *)
Ltac probe_get HG :=
  eapply (refines_bind cell_is same);
  [ match goal with
    | |- refines _ (board_get _ ?a ?b) _ _ =>
        apply (board_get_refines _ _ _ (a, b)); first [exact HG | by eapply abs_game_extends]
    end
  | ].

Ltac probe_landing HG Hextra :=
  probe_get HG;
  let q := fresh "q" in let v := fresh "v" in let h2 := fresh "h" in
  let He := fresh "He" in let Hv := fresh "Hv" in
  intros [q|] v h2 He Hv;
  [ apply cell_is_Some in Hv as (? & -> & ?); apply refines_same_ret
  | apply cell_is_None in Hv as ->;
    cbv beta iota;
    eapply (refines_bind same same);
    [ apply Hextra; by eapply extends_trans
    | intros ? ? ? ? ->; apply refines_same_ret ] ].

Ltac probe_adjacent HG Hextra double :=
  probe_get HG;
  let q := fresh "q" in let v := fresh "v" in let h1 := fresh "h" in
  let He := fresh "He" in let Hv := fresh "Hv" in
  let pc := fresh "pc" in let Hq := fresh "Hq" in
  intros [q|] v h1 He Hv;
  [ apply cell_is_Some in Hv as (pc & -> & Hq);
    cbv beta iota;
    apply (refines_read _ _ _ _ _ _ (get_piece_eq _ _ _ Hq));
    destruct (is_white pc); cbn [negb andb eqb];
    try apply refines_same_ret;
    repeat match goal with
           | |- context [?a <? ?b] => destruct (a <? b) eqn:?
           end;
    cbn [negb andb];
    try apply refines_same_ret;
    probe_landing HG Hextra
  | apply cell_is_None in Hv as ->;
    cbv beta iota;
    destruct double;
    apply refines_same_ret ].

Ltac probe_refines white double :=
  let r := fresh "r" in let c := fresh "c" in
  let HG := fresh "HG" in let Hextra := fresh "Hextra" in
  intros HG Hextra;
  match goal with |- refines _ (_ _ _ _ ?loc _ _) _ _ => destruct loc as [r c] end;
  cbv beta delta [check_tl check_tr check_bl check_br Rules.check
                  Rules.blocked Rules.target Rules.can_jump] iota;
  cbn [fst snd];
  repeat match goal with
         | |- context [?a =? ?b] =>
             first [is_var a | is_var b]; destruct (a =? b) eqn:?
         end;
  destruct white;
  cbn [negb andb orb];
  try apply refines_same_ret;
  probe_adjacent HG Hextra double.

Section probe_refinement.
Variable extra : ref -> nat * nat -> nat * nat -> ref -> M (list Move).
Variable pextra : Pure.Board -> nat * nat -> nat * nat -> option (list Move).
Variables (self p : ref) (G : Pure.Game) (h : Heap).

Let extra_ok : Prop :=
  ∀ h' og loc', extends h h' →
    refines same (extra self og loc' p) h' (pextra (Pure.board G) og loc').

Lemma check_tl_refines white loc double :
  abs_game h self = Some G → extra_ok →
  refines same (check_tl extra self white loc p double) h
          (Rules.check pextra Rules.TL (Pure.board G) white loc double).
Proof. probe_refines white double. Qed.

Lemma check_tr_refines white loc double :
  abs_game h self = Some G → extra_ok →
  refines same (check_tr extra self white loc p double) h
          (Rules.check pextra Rules.TR (Pure.board G) white loc double).
Proof. probe_refines white double. Qed.

Lemma check_bl_refines white loc double :
  abs_game h self = Some G → extra_ok →
  refines same (check_bl extra self white loc p double) h
          (Rules.check pextra Rules.BL (Pure.board G) white loc double).
Proof. probe_refines white double. Qed.

Lemma check_br_refines white loc double :
  abs_game h self = Some G → extra_ok →
  refines same (check_br extra self white loc p double) h
          (Rules.check pextra Rules.BR (Pure.board G) white loc double).
Proof. probe_refines white double. Qed.

End probe_refinement.


(** ** Lists of lists *)

Lemma get_set {A} (b b' : list (list A)) loc loc' v :
  Rules.set b loc v = Some b' →
  Rules.get b' loc' = if decide (loc' = loc) then Some v else Rules.get b loc'.
Proof.
  unfold Rules.set, Rules.get. destruct loc as [r c], loc' as [r' c']. simpl.
  destruct (b !! r) as [row|] eqn:Er; simpl; [|done].
  case_decide as Hc; [|done]. intros [= <-].
  destruct (decide (r' = r)) as [->|Hr].
  - rewrite list_lookup_insert_eq by (by eapply lookup_lt_Some). simpl.
    destruct (decide (c' = c)) as [->|Hc'].
    + rewrite list_lookup_insert_eq by done. by rewrite decide_True.
    + rewrite list_lookup_insert_ne by done. rewrite Er. simpl.
      rewrite decide_False; [done|]. congruence.
  - rewrite list_lookup_insert_ne by done.
    rewrite decide_False; [done|]. congruence.
Qed.

Lemma ref_at_get cb r c : ref_at cb r c = Rules.get cb (r, c) ≫= id.
Proof.
  unfold ref_at, Rules.get. simpl. destruct (cb !! r) as [row|]; simpl; [|done].
  by destruct (row !! c).
Qed.

Lemma ref_at_set cb cb' loc v r c :
  Rules.set cb loc v = Some cb' →
  ref_at cb' r c = if decide ((r, c) = loc) then v else ref_at cb r c.
Proof.
  intros H. rewrite !ref_at_get, (get_set _ _ _ _ _ H). by case_decide.
Qed.

Lemma set_Some {A} (b : list (list A)) loc v b' :
  Rules.set b loc v = Some b' ↔
  ∃ row, b !! loc.1 = Some row ∧ loc.2 < length row ∧
         b' = <[loc.1 := <[loc.2 := v]> row]> b.
Proof.
  unfold Rules.set. split.
  - destruct (b !! loc.1) as [row|]; simpl; [|done]. case_decide; [|done].
    intros [= <-]. eauto.
  - intros (row & -> & ? & ->). simpl. by rewrite decide_True.
Qed.

Lemma set_None {A} (b : list (list A)) loc v :
  Rules.set b loc v = None ↔
  b !! loc.1 = None ∨ ∃ row, b !! loc.1 = Some row ∧ length row ≤ loc.2.
Proof.
  unfold Rules.set. destruct (b !! loc.1) as [row|]; simpl.
  - case_decide; split; try done.
    + intros [?|(? & [= <-] & ?)]; [done|lia].
    + intros _. right. exists row. split; [done|lia].
  - split; auto.
Qed.

(** Two grids of the same shape are updated alike. *)
Lemma set_Forall2 {A B} (R : A → B → Prop) (l : list (list A)) (k : list (list B))
    loc x y :
  Forall2 (Forall2 R) l k → R x y →
  match Rules.set k loc y with
  | Some k' => ∃ l', Rules.set l loc x = Some l' ∧ Forall2 (Forall2 R) l' k'
  | None => Rules.set l loc x = None
  end.
Proof.
  intros Hf HR. destruct (Rules.set k loc y) as [k'|] eqn:E.
  - apply set_Some in E as (krow & Hk & Hlen & ->).
    destruct (Forall2_lookup_r _ _ _ _ _ Hf Hk) as (lrow & Hl & Hrow).
    exists (<[loc.1 := <[loc.2 := x]> lrow]> l). split.
    + apply set_Some. exists lrow. split_and!; [done| |done].
      by rewrite (Forall2_length _ _ _ Hrow).
    + apply Forall2_insert; [done|]. by apply Forall2_insert.
  - apply set_None. apply set_None in E as [E|(krow & Hk & Hlen)].
    + left. apply lookup_ge_None. apply lookup_ge_None in E.
      by rewrite (Forall2_length _ _ _ Hf).
    + destruct (Forall2_lookup_r _ _ _ _ _ Hf Hk) as (lrow & Hl & Hrow).
      right. exists lrow. split; [done|]. by rewrite (Forall2_length _ _ _ Hrow).
Qed.

(** ** The view of a game *)

Lemma view_abs h g gm rids cb b :
  view h g gm rids cb b → abs_game h g = Some (abs_fields gm b) ∧ separate h g.
Proof.
  intros (Eg & Eb & Hrows & Hb & Hnd & Hinj).
  assert (ref_board h g = Some (rids, cb)) as Erb.
  { apply ref_board_Some. by exists gm. }
  split.
  - apply abs_game_Some. by exists gm, rids, cb, b.
  - by exists rids, cb.
Qed.

Lemma abs_view h g G :
  abs_game h g = Some G → separate h g →
  ∃ gm rids cb b, view h g gm rids cb b ∧ G = abs_fields gm b.
Proof.
  intros HG (rids' & cb' & Erb' & Hnd & Hinj).
  apply abs_game_Some in HG as (gm & rids & cb & b & Eg & Erb & Hb & ->).
  rewrite Erb in Erb'. injection Erb' as <- <-.
  apply ref_board_Some in Erb as (gm' & Eg' & Eb & Hrows).
  rewrite Eg in Eg'. injection Eg' as <-.
  exists gm, rids, cb, b. split; [|done]. unfold view. by split_and!.
Qed.

Lemma beyond_newer h0 h g gm rids cb b :
  view h g gm rids cb b → beyond h0 h g ↔ newer h0 g rids cb.
Proof.
  intros (Eg & Eb & Hrows & _).
  assert (ref_board h g = Some (rids, cb)) as Erb.
  { apply ref_board_Some. by exists gm. }
  split.
  - intros (? & rids' & cb' & Erb' & ? & ?).
    rewrite Erb in Erb'. injection Erb' as <- <-. by repeat split.
  - intros (? & ? & ?). split; [done|]. by exists rids, cb.
Qed.

Lemma view_extends h h' g gm rids cb b :
  extends h h' → view h g gm rids cb b → view h' g gm rids cb b.
Proof.
  intros He (Eg & Eb & Hrows & Hb & Hnd & Hinj). destruct He as (Hp & Hr & Hbs & Hgs).
  split_and!; try done.
  - by eapply prefix_lookup_Some.
  - by eapply prefix_lookup_Some.
  - eapply Forall2_impl; [exact Hrows|]. intros ???; simpl in *.
    by eapply prefix_lookup_Some.
  - eapply Forall2_impl; [exact Hb|]. intros ???.
    eapply Forall2_impl; [done|]. intros ???.
    eapply stable_cell_is; [|done]. by repeat split.
Qed.

(** ** Writing a square *)

Lemma board_set_view h g gm rids cb b loc v pv :
  view h g gm rids cb b → cell_is h v pv → unplaced cb v →
  match Rules.set b loc pv with
  | Some b' =>
      ∃ h' cb', board_set g loc.1 loc.2 v h = Some (tt, h') ∧
        Rules.set cb loc v = Some cb' ∧
        view h' g gm rids cb' b' ∧
        pieces h' = pieces h ∧ boards h' = boards h ∧ games h' = games h ∧
        length (rows h') = length (rows h) ∧
        ∀ h0, extends h0 h → newer h0 g rids cb → extends h0 h'
  | None => board_set g loc.1 loc.2 v h = None
  end.
Proof.
  intros (Eg & Eb & Hrows & Hb & Hnd & Hinj) Hv Hun.
  pose proof (set_Forall2 _ _ _ loc v pv Hb Hv) as Hset.
  unfold board_set, get_game, get_board, get_row, bind, lift. rewrite Eg, Eb.
  destruct (Rules.set b loc pv) as [b'|] eqn:E.
  - destruct Hset as (cb' & Ecb & Hb').
    pose proof Ecb as Ecb0.
    apply set_Some in Ecb as (row & Hrow & Hlen & ->).
    destruct (Forall2_lookup_r _ _ _ _ _ Hrows Hrow) as (rid & Hrid & Hr).
    rewrite Hrid, Hr. rewrite decide_True by done.
    unfold put_row. rewrite decide_True by (by eapply lookup_lt_Some).
    eexists _, _. split; [reflexivity|]. split; [done|].
    simpl. split_and!; try done.
    + split_and!; try done; simpl.
      * apply Forall2_same_length_lookup. split.
        { rewrite length_insert. by eapply Forall2_length. }
        intros i rid' row' Hi Hrow'.
        destruct (decide (i = loc.1)) as [->|Hne].
        -- rewrite Hrid in Hi. injection Hi as <-.
           rewrite list_lookup_insert_eq in Hrow' by (by eapply lookup_lt_Some).
           injection Hrow' as <-.
           by rewrite list_lookup_insert_eq by (by eapply lookup_lt_Some).
        -- rewrite list_lookup_insert_ne in Hrow' by done.
           rewrite list_lookup_insert_ne.
           ++ exact (Forall2_lookup_lr _ _ _ _ _ _ Hrows Hi Hrow').
           ++ intros <-. apply Hne. by eapply (proj1 (NoDup_alt rids) Hnd).
      * intros r c r' c' p H1 H2.
        rewrite (ref_at_set _ _ _ _ r c Ecb0) in H1.
        rewrite (ref_at_set _ _ _ _ r' c' Ecb0) in H2.
        destruct (decide ((r, c) = loc)) as [E1|N1],
                 (decide ((r', c') = loc)) as [E2|N2].
        -- rewrite <- E2 in E1. by injection E1.
        -- destruct (Hun p H1 r' c' H2).
        -- destruct (Hun p H2 r c H1).
        -- by eapply Hinj.
    + by rewrite length_insert.
    + intros h0 (Hp0 & Hr0 & Hb0 & Hg0) (_ & Hfresh & _).
      repeat split; simpl; try done.
      apply prefix_insert_ge; [done|]. rewrite Forall_forall in Hfresh.
      apply Hfresh. by eapply list_elem_of_lookup_2.
  - apply set_None in Hset as [Hn|(row & Hrow & Hlen)].
    + assert (rids !! loc.1 = None) as ->; [|done].
      apply lookup_ge_None. apply lookup_ge_None in Hn.
      by rewrite (Forall2_length _ _ _ Hrows).
    + destruct (Forall2_lookup_r _ _ _ _ _ Hrows Hrow) as (rid & Hrid & Hr).
      rewrite Hrid, Hr. rewrite decide_False by lia. done.
Qed.


(** ** Refinement: capture chains *)

Lemma for_extend_two {A B} (f : A -> option (list B)) d1 d2 :
  Rules.for_extend [d1; d2] f = (l1 ← f d1; l2 ← f d2; Some (l1 ++ l2)).
Proof.
  unfold Rules.for_extend. simpl. destruct (f d1); simpl; [|done].
  destruct (f d2); simpl; [|done]. by rewrite app_nil_r.
Qed.

Lemma for_extend_four {A B} (f : A -> option (list B)) d1 d2 d3 d4 :
  Rules.for_extend [d1; d2; d3; d4] f =
  (l1 ← f d1; l2 ← f d2; l3 ← f d3; l4 ← f d4; Some (l1 ++ l2 ++ l3 ++ l4)).
Proof.
  unfold Rules.for_extend. simpl. destruct (f d1); simpl; [|done].
  destruct (f d2); simpl; [|done]. destruct (f d3); simpl; [|done].
  destruct (f d4); simpl; [|done]. by rewrite app_nil_r.
Qed.

(** The method does in [h] what another does in a later store [h2]. *)
Lemma refines_from {A B} (R : Heap -> A -> B -> Prop) (m m' : M A) h h2 o :
  m h = m' h2 → extends h h2 → refines R m' h2 o → refines R m h o.
Proof.
  intros E He. unfold refines. rewrite E. destruct o; [|done].
  intros (a & h' & ? & ? & ?). exists a, h'. split_and!; [done| |done].
  by eapply extends_trans.
Qed.

Lemma abs_game_game h g G :
  abs_game h g = Some G →
  ∃ gm, games h !! g = Some gm ∧ Pure.is_white_move G = is_white_move gm.
Proof.
  intros H. apply abs_game_Some in H as (gm & ? & ? & ? & ? & _ & _ & ->). eauto.
Qed.

(** [extends] along a chain of hypotheses. *)
Ltac ext :=
  match goal with
  | |- extends ?a ?a => apply extends_refl
  | H : extends ?a ?b |- extends ?a ?b => exact H
  | H : extends ?b ?c |- extends ?a ?c => apply (extends_trans a b c); [ext | exact H]
  end.

Lemma check_additional_capture_refines fuel : ∀ self og loc p h G pc,
  abs_game h self = Some G → separate h self → pieces h !! p = Some pc →
  refines same (_check_additional_capture fuel self og loc p) h
    (Rules._check_additional_capture fuel (Pure.is_white_move G) (is_king pc)
       (Pure.board G) og loc).
Proof.
  induction fuel as [|fuel IH]; intros self og loc p h G pc HG Hsep Hp; [done|].
  cbn [_check_additional_capture Rules._check_additional_capture].
  destruct (make_copy_game_spec _ _ _ HG) as (tg & h1 & Ecopy & He1 & HG1 & Hbey & Hsep1).
  specialize (Hsep1 Hsep).
  destruct (abs_view _ _ _ HG1 Hsep1) as (gm1 & rids1 & cb1 & b1 & Hview & EG1).
  assert (b1 = Pure.board G) as ->.
  { by apply (f_equal Pure.board) in EG1. }
  assert (is_white_move gm1 = Pure.is_white_move G) as Ew1.
  { by apply (f_equal Pure.is_white_move) in EG1. }
  pose proof (board_set_view _ _ _ _ _ _
                ((og.1 + loc.1) / 2, (og.2 + loc.2) / 2) None None Hview eq_refl)
    as Hset.
  destruct (Rules.set (Pure.board G) _ None) as [b'|] eqn:Eset.
  2: { cbn [option_bind mbind]. unfold refines. simpl.
       rewrite (bind_eq _ _ _ _ _ Ecopy). apply bind_None. by apply Hset. }
  destruct Hset as (h2 & cb' & Eset2 & _ & Hview2 & Hp2 & _ & Hg2 & _ & Hext); [done|].
  assert (extends h h2) as He2.
  { apply Hext; [done|]. by apply (beyond_newer _ _ _ _ _ _ _ Hview). }
  destruct (view_abs _ _ _ _ _ _ Hview2) as [HG2 Hsep2].
  destruct (abs_game_game _ _ _ HG) as (gm & Eg & Ew).
  pose proof (game_extends _ _ _ _ He2 Eg) as Eg2.
  pose proof (piece_extends _ _ _ _ He2 Hp) as Hpc2.
  simpl.
  eapply (refines_from _ _ _ h h2); [|done|].
  { rewrite (bind_eq _ _ _ _ _ Ecopy). rewrite (bind_eq _ _ _ _ _ Eset2).
    rewrite (bind_eq _ _ _ _ _ (get_game_eq _ _ _ Eg2)).
    rewrite (bind_eq _ _ _ _ _ (get_piece_eq _ _ _ Hpc2)). reflexivity. }
  rewrite <- Ew.
  assert (∀ h' og' loc', extends h2 h' →
            refines same (_check_additional_capture fuel tg og' loc' p) h'
              (Rules._check_additional_capture fuel (Pure.is_white_move G) (is_king pc)
                 b' og' loc')) as IH'.
  { intros h' og' loc' He'.
    pose proof (IH tg og' loc' p h' (abs_fields gm1 b') pc
                  (abs_game_extends _ _ _ _ He' HG2) (separate_extends _ _ _ He' Hsep2)
                  (piece_extends _ _ _ _ He' Hpc2)) as H.
    simpl in H. by rewrite Ew1 in H. }
  change b' with (Pure.board (abs_fields gm1 b')) in IH' |- *.
  eapply (refines_bind same same); [|intros ? ? ? ? ->; apply refines_same_ret].
  unfold Rules.chain_dirs.
  destruct (Pure.is_white_move G), (is_king pc); cbn [negb andb];
    rewrite ?for_extend_two, ?for_extend_four;
    repeat (eapply (refines_bind same same);
            [ first [ apply check_tl_refines | apply check_tr_refines
                    | apply check_bl_refines | apply check_br_refines ];
              [ eapply abs_game_extends; [|exact HG2]; ext
              | intros ? ? ? ?; apply IH'; ext ]
            | intros ? ? ? ? -> ]);
    apply refines_same_ret.
Qed.


(** ** Refinement: the legal moves *)

Lemma cell_selected_eq colour h p pc :
  pieces h !! p = Some pc →
  cell_selected colour (Some p) h = Some (Rules.selected colour pc, h).
Proof.
  intros Hp. unfold cell_selected, Rules.selected.
  destruct (colour =? "any")%string; [done|].
  rewrite (bind_eq _ _ _ _ _ (get_piece_eq _ _ _ Hp)).
  destruct ((colour =? "white")%string && is_white pc); [done|].
  by destruct ((colour =? "black")%string && negb (is_white pc)).
Qed.

Lemma return_all_pieces_location_refines h self G colour :
  abs_game h self = Some G →
  refines (fun h => Forall2 (located_is h)) (return_all_pieces_location self colour) h
          (Rules.return_all_pieces_location (Pure.board G) colour).
Proof.
  intros HG. unfold return_all_pieces_location, Rules.return_all_pieces_location.
  apply (refines_for_extend same located_is);
    [apply stable_same | apply stable_located_is | by apply Forall2_same |].
  intros row row' h1 He1 E; unfold same in E; subst row'.
  apply (refines_for_extend same located_is);
    [apply stable_same | apply stable_located_is | by apply Forall2_same |].
  intros col col' h2 He2 E; unfold same in E; subst col'.
  eapply (refines_bind cell_is (fun h => Forall2 (located_is h))).
  { apply (board_get_refines _ _ _ (row, col)).
    eapply abs_game_extends; [|exact HG]. by eapply extends_trans. }
  intros [p|] v h3 He3 Hv.
  - apply cell_is_Some in Hv as (pc & -> & Hp).
    apply (refines_read _ _ _ _ _ _ (cell_selected_eq colour _ _ _ Hp)).
    destruct (Rules.selected colour pc);
      apply (refines_ret (fun h => Forall2 (located_is h))); by repeat constructor.
  - apply cell_is_None in Hv as ->.
    apply (refines_read _ (ret false) _ _ false); [done|].
    apply (refines_ret (fun h => Forall2 (located_is h))). constructor.
Qed.

Lemma probe_piece_refines h self G x y :
  abs_game h self = Some G → separate h self → located_is h x y →
  refines same (probe_piece self (Pure.is_white_move G) x) h
          (Rules.probe_piece (Pure.board G) (Pure.is_white_move G) y).
Proof.
  intros HG Hsep [Hloc Hp]. unfold probe_piece, Rules.probe_piece, Rules.first_dirs.
  rewrite Hloc.
  assert (∀ h' og loc', extends h h' →
            refines same (_check_additional_capture chain_fuel self og loc' x.2) h'
              (Rules._check_additional_capture chain_fuel (Pure.is_white_move G)
                 (is_king y.2) (Pure.board G) og loc')) as Hextra.
  { intros h' og loc' He. apply check_additional_capture_refines.
    - by eapply abs_game_extends.
    - by eapply separate_extends.
    - by eapply piece_extends. }
  destruct (Pure.is_white_move G), (is_king y.2) eqn:Ek;
    rewrite ?for_extend_two, ?for_extend_four;
    do 2 (eapply (refines_bind same same);
          [ first [ apply check_tl_refines | apply check_tr_refines
                  | apply check_bl_refines | apply check_br_refines ];
            [ eapply abs_game_extends; [|exact HG]; ext
            | intros ? ? ? ?; apply Hextra; ext ]
          | intros ? ? ? ? -> ]);
    (eapply refines_read;
     [ apply get_piece_eq; eapply piece_extends; [|exact Hp]; ext |]);
    rewrite Ek;
    repeat (eapply (refines_bind same same);
            [ first [ apply check_tl_refines | apply check_tr_refines
                    | apply check_bl_refines | apply check_br_refines ];
              [ eapply abs_game_extends; [|exact HG]; ext
              | intros ? ? ? ?; apply Hextra; ext ]
            | intros ? ? ? ? -> ]);
    apply refines_same_ret.
Qed.

Lemma find_legal_moves_refines h self G :
  abs_game h self = Some G → separate h self →
  refines same (find_legal_moves self) h (Rules.find_legal_moves G).
Proof.
  intros HG Hsep. unfold find_legal_moves, Rules.find_legal_moves.
  destruct (abs_game_game _ _ _ HG) as (gm & Eg & Ew).
  apply (refines_read _ _ _ _ _ _ (get_game_eq _ _ _ Eg)). rewrite <- Ew.
  eapply (refines_bind (fun h => Forall2 (located_is h)) same).
  { by apply return_all_pieces_location_refines. }
  intros l l' h1 He1 Hl.
  eapply (refines_bind same same); [|intros ? ? ? ? ->; apply refines_same_ret].
  apply (refines_for_extend_same located_is); [apply stable_located_is | done |].
  intros x y h2 He2 Hxy. apply probe_piece_refines; [| |done].
  - eapply abs_game_extends; [|exact HG]. by eapply extends_trans.
  - eapply separate_extends; [|exact Hsep]. by eapply extends_trans.
Qed.

Lemma find_legal_moves_one_piece_refines h self G x y :
  abs_game h self = Some G → separate h self → located_is h x y →
  refines same (find_legal_moves_one_piece self x) h
          (Rules.find_legal_moves_one_piece G y).
Proof.
  intros HG Hsep Hxy.
  unfold find_legal_moves_one_piece, Rules.find_legal_moves_one_piece.
  destruct (abs_game_game _ _ _ HG) as (gm & Eg & Ew).
  apply (refines_read _ _ _ _ _ _ (get_game_eq _ _ _ Eg)). rewrite <- Ew.
  eapply (refines_bind same same); [|intros ? ? ? ? ->; apply refines_same_ret].
  by apply probe_piece_refines.
Qed.

Lemma material_refines h self G :
  abs_game h self = Some G → refines same (material self) h (Rules.material G).
Proof.
  intros HG. unfold material, Rules.material.
  eapply (refines_bind (fun h => Forall2 (located_is h)) same).
  { by apply return_all_pieces_location_refines. }
  intros w w' h1 He1 Hw.
  eapply (refines_bind (fun h => Forall2 (located_is h)) same).
  { apply return_all_pieces_location_refines. by eapply abs_game_extends. }
  intros bl bl' h2 He2 Hb.
  rewrite (Forall2_length _ _ _ Hw), (Forall2_length _ _ _ Hb).
  apply refines_same_ret.
Qed.


(** ** Methods that only read *)

Lemma reading_ret {A} (a : A) : reading (ret a).
Proof. intros h b h' H. by inv_M. Qed.

Lemma reading_raise {A} : reading (@raise A).
Proof. intros h b h' H. inv_M. Qed.

Lemma reading_lift {A} (x : option A) : reading (lift x).
Proof. intros h b h' H. by inv_M. Qed.

Lemma reading_bind {A B} (m : M A) (f : A -> M B) :
  reading m → (∀ a, reading (f a)) → reading (bind m f).
Proof.
  intros Hm Hf h b h' H. inv_M.
  on (m _ = _) (fun E => apply Hm in E as ->). by eapply Hf.
Qed.

Lemma reading_get_piece p : reading (get_piece p).
Proof. intros h a h' H. unfold get_piece in H. by inv_M. Qed.
Lemma reading_get_row p : reading (get_row p).
Proof. intros h a h' H. unfold get_row in H. by inv_M. Qed.
Lemma reading_get_board p : reading (get_board p).
Proof. intros h a h' H. unfold get_board in H. by inv_M. Qed.
Lemma reading_get_game p : reading (get_game p).
Proof. intros h a h' H. unfold get_game in H. by inv_M. Qed.

Lemma reading_for_extend {A B} (l : list A) (body : A -> M (list B)) :
  (∀ x, reading (body x)) → reading (for_extend l body).
Proof.
  intros Hb. induction l as [|x l IH]; simpl.
  - apply reading_ret.
  - apply reading_bind; [done | intros ?].
    apply reading_bind; [done | intros ?]. apply reading_ret.
Qed.

Create HintDb reads.
#[export] Hint Resolve reading_ret reading_raise reading_lift reading_get_piece
  reading_get_row reading_get_board reading_get_game : reads.

Ltac reads :=
  repeat first
    [ progress eauto with reads
    | apply reading_bind; [| intros ?]
    | apply reading_for_extend; intros ?
    | match goal with
      | |- reading (match ?x with _ => _ end) => destruct x
      end ].

Lemma reading_board_get self r c : reading (board_get self r c).
Proof. unfold board_get. reads. Qed.
#[export] Hint Resolve reading_board_get : reads.

Lemma reading_cell_selected colour cell : reading (cell_selected colour cell).
Proof. unfold cell_selected. reads. Qed.
#[export] Hint Resolve reading_cell_selected : reads.

Lemma reading_return_all_pieces_location self colour :
  reading (return_all_pieces_location self colour).
Proof. unfold return_all_pieces_location. reads. Qed.

(** ** Steps: the combinators *)

Lemma step_bind {A A' B B'} (R : A -> A' -> Prop) (S : B -> B' -> Prop)
    (m : M A) (k : A -> M B) g f fk :
  step R m g f → (∀ a a', R a a' → step S (k a) g (fk a')) →
  step S (bind m k) g (Rules.sbind f fk).
Proof.
  intros Hm Hk h gm rids cb b Hview. specialize (Hm h gm rids cb b Hview).
  unfold Rules.sbind. destruct (f (abs_fields gm b)) as [[a' G']|].
  - destruct Hm as (a & h1 & gm1 & cb1 & E & HR & Hview1 & EG & Hfr).
    rewrite (bind_eq _ _ _ _ _ E).
    specialize (Hk a a' HR h1 gm1 rids cb1 _ Hview1). rewrite <- EG in Hk.
    destruct (fk a' G') as [[b' G2]|]; [|done].
    destruct Hk as (b0 & h2 & gm2 & cb2 & E2 & HS & Hview2 & EG2 & Hfr2).
    exists b0, h2, gm2, cb2. split_and!; try done.
    intros h0 He Hn. destruct (Hfr h0 He Hn) as [He1 Hn1]. by apply Hfr2.
  - by apply bind_None.
Qed.

Lemma step_get_game g : step fields_of (get_game g) g Rules.s_get.
Proof.
  intros h gm rids cb b Hview. simpl.
  exists gm, h, gm, cb. split_and!; try done.
  apply get_game_eq, Hview.
Qed.

Lemma step_ret {A} (a : A) g : step eq (ret a) g (fun G => Some (a, G)).
Proof.
  intros h gm rids cb b Hview. simpl. by exists a, h, gm, cb.
Qed.

(** Writing the fields of the game object. *)
Lemma put_game_view h g gm rids cb b gm' :
  view h g gm rids cb b → board gm' = board gm →
  ∃ h', put_game g gm' h = Some (tt, h') ∧ view h' g gm' rids cb b ∧
        ∀ h0, extends h0 h → newer h0 g rids cb → extends h0 h'.
Proof.
  intros (Eg & Eb & Hrows & Hb & Hnd & Hinj) Ebd. unfold put_game.
  rewrite decide_True by (by eapply lookup_lt_Some).
  eexists. split; [reflexivity|]. split.
  - split_and!; try done; simpl.
    + apply list_lookup_insert_eq. by eapply lookup_lt_Some.
    + by rewrite Ebd.
  - intros h0 (? & ? & ? & ?) (? & _). repeat split; simpl; try done.
    by apply prefix_insert_ge.
Qed.

Lemma step_modify g (fm : CheckersGame -> CheckersGame) (fG : Pure.Game -> Pure.Game) :
  (∀ gm, board (fm gm) = board gm) →
  (∀ gm b, fG (abs_fields gm b) = abs_fields (fm gm) b) →
  step eq (gm <- get_game g ;; put_game g (fm gm)) g
       (Rules.sbind Rules.s_get (fun G => Rules.s_put (fG G))).
Proof.
  intros Hbd Hf h gm rids cb b Hview. unfold Rules.sbind, Rules.s_get, Rules.s_put.
  destruct (put_game_view h g gm rids cb b (fm gm) Hview (Hbd gm)) as (h' & E & Hv' & Hfr).
  exists tt, h', (fm gm), cb. rewrite Hf. cbn [Pure.board abs_fields].
  split_and!; try done.
  - rewrite (bind_eq _ _ _ _ _ (get_game_eq _ _ _ (proj1 Hview))). done.
  - intros h0 ??. split; [by apply Hfr|done].
Qed.

Lemma step_set_moves_since_cap g n :
  step eq (set_moves_since_cap g n) g (Rules.set_moves_since_cap n).
Proof. by apply (step_modify g). Qed.

Lemma step_set_is_white_move g w :
  step eq (set_is_white_move g w) g (Rules.set_is_white_move w).
Proof. by apply (step_modify g). Qed.

Lemma step_end_game g w draw :
  step eq (end_game g w draw) g (Rules.end_game w draw).
Proof. by apply (step_modify g). Qed.

Lemma step_find_legal_moves g :
  step eq (find_legal_moves g) g Rules.s_find.
Proof.
  intros h gm rids cb b Hview. unfold Rules.s_find.
  destruct (view_abs _ _ _ _ _ _ Hview) as [HG Hsep].
  pose proof (find_legal_moves_refines _ _ _ HG Hsep) as Href.
  destruct (Rules.find_legal_moves (abs_fields gm b)) as [ms|]; simpl; [|done].
  destruct Href as (ms' & h' & E & He & <-).
  exists ms', h', gm, cb. split_and!; try done.
  - by eapply view_extends.
  - intros h0 ??. split; [by eapply extends_trans|done].
Qed.


(** ** Steps on the board *)

Lemma get_Forall2 {A B} (R : A → B → Prop) (l : list (list A)) (k : list (list B)) loc :
  Forall2 (Forall2 R) l k →
  match Rules.get k loc with
  | Some y => ∃ x, Rules.get l loc = Some x ∧ R x y
  | None => Rules.get l loc = None
  end.
Proof.
  intros Hf. unfold Rules.get.
  destruct (k !! loc.1) as [krow|] eqn:Ek; simpl.
  - destruct (Forall2_lookup_r _ _ _ _ _ Hf Ek) as (lrow & -> & Hrow). simpl.
    destruct (krow !! loc.2) as [y|] eqn:Ey.
    + destruct (Forall2_lookup_r _ _ _ _ _ Hrow Ey) as (x & -> & ?). eauto.
    + apply lookup_ge_None. apply lookup_ge_None in Ey.
      by rewrite (Forall2_length _ _ _ Hrow).
  - assert (l !! loc.1 = None) as ->; [|done].
    apply lookup_ge_None. apply lookup_ge_None in Ek.
    by rewrite (Forall2_length _ _ _ Hf).
Qed.

Lemma board_get_view h g gm rids cb b loc :
  view h g gm rids cb b →
  board_get g loc.1 loc.2 h = (cell ← Rules.get cb loc; Some (cell, h)).
Proof.
  intros (Eg & Eb & Hrows & _).
  unfold board_get, Rules.get, get_game, get_board, get_row, bind, lift.
  rewrite Eg, Eb.
  destruct (cb !! loc.1) as [row|] eqn:Er; simpl.
  - destruct (Forall2_lookup_r _ _ _ _ _ Hrows Er) as (rid & -> & ->).
    by destruct (row !! loc.2).
  - assert (rids !! loc.1 = None) as ->; [|done].
    apply lookup_ge_None. apply lookup_ge_None in Er.
    by rewrite (Forall2_length _ _ _ Hrows).
Qed.

Lemma newer_set h0 g rids cb cb' loc v :
  Rules.set cb loc v = Some cb' →
  (∀ p, v = Some p → length (pieces h0) ≤ p) →
  newer h0 g rids cb → newer h0 g rids cb'.
Proof.
  intros Hset Hv (? & ? & Hp). split_and!; [done..|].
  intros r c p. rewrite (ref_at_set _ _ _ _ r c Hset).
  case_decide; [by apply Hv | by apply Hp].
Qed.

Lemma board_step_clear g loc :
  board_step (board_set g loc.1 loc.2 None) g (fun b => Rules.set b loc None).
Proof.
  intros h gm rids cb b Hview.
  pose proof (board_set_view _ _ _ _ _ _ loc None None Hview eq_refl) as Hset.
  destruct (Rules.set b loc None) as [b'|]; [|by apply Hset].
  destruct Hset as (h' & cb' & E & Ecb & Hview' & _ & _ & _ & _ & Hfr); [done|].
  exists h', cb'. split_and!; [done..|].
  intros h0 He Hn. split; [by apply Hfr|]. by eapply newer_set.
Qed.

Lemma board_step_seq m m' g f f' :
  board_step m g f → board_step m' g f' →
  board_step (m ;;; m') g (fun b => f b ≫= f').
Proof.
  intros Hm Hm' h gm rids cb b Hview. specialize (Hm h gm rids cb b Hview).
  destruct (f b) as [b1|]; simpl; [|by apply bind_None].
  destruct Hm as (h1 & cb1 & E1 & Hview1 & Hfr1).
  rewrite (bind_eq _ _ _ _ _ E1).
  specialize (Hm' h1 gm rids cb1 b1 Hview1).
  destruct (f' b1) as [b2|]; [|done].
  destruct Hm' as (h2 & cb2 & E2 & Hview2 & Hfr2).
  exists h2, cb2. split_and!; [done..|].
  intros h0 He Hn. destruct (Hfr1 h0 He Hn). by apply Hfr2.
Qed.

Lemma board_step_lift {A} (o : option A) (k : A -> M unit) g fk :
  (∀ a, board_step (k a) g (fk a)) →
  board_step (a <- lift o ;; k a) g (fun b => a ← o; fk a b).
Proof.
  intros Hk h gm rids cb b Hview. destruct o as [a|]; simpl; [|done].
  by apply Hk.
Qed.

Lemma board_step_relocate g s i :
  board_step (relocate g s i) g (fun b => Rules.relocate b s i).
Proof.
  unfold relocate, Rules.relocate.
  apply board_step_lift. intros a. apply board_step_lift. intros b0.
  intros h gm rids cb b Hview.
  pose proof (get_Forall2 (cell_is h) cb b (a, b0) (proj1 (proj2 (proj2 (proj2 Hview)))))
    as Hget.
  pose proof (board_get_view _ _ _ _ _ _ (a, b0) Hview) as Eget. simpl in Eget.
  destruct (Rules.get b (a, b0)) as [pv|]; simpl.
  2: { rewrite Hget in Eget. by apply bind_None. }
  destruct Hget as (cell & Ecell & Hcell). rewrite Ecell in Eget. simpl in Eget.
  rewrite (bind_eq _ _ _ _ _ Eget).
  pose proof (board_set_view _ _ _ _ _ _ (a, b0) None None Hview eq_refl) as Hset1.
  destruct (Rules.set b (a, b0) None) as [b1|]; simpl; [|by apply bind_None, Hset1].
  destruct Hset1 as (h1 & cb1 & E1 & Ecb1 & Hview1 & Hp1 & _ & _ & _ & Hfr1); [done|].
  rewrite (bind_eq _ _ _ _ _ E1).
  destruct (int_at s (i + 2)) as [c|]; simpl; [|done].
  destruct (int_at s (i + 3)) as [d|]; simpl; [|done].
  assert (cell_is h1 cell pv) as Hcell1.
  { unfold cell_is, cell_value in *. by rewrite Hp1. }
  assert (unplaced cb1 cell) as Hun.
  { intros p -> r c0 Hat. rewrite (ref_at_set _ _ _ _ r c0 Ecb1) in Hat.
    case_decide as Hd; [done|]. apply Hd.
    assert (ref_at cb a b0 = Some p) as Hat0 by (by rewrite ref_at_get, Ecell).
    destruct Hview as (_ & _ & _ & _ & _ & Hinj).
    by destruct (Hinj _ _ _ _ _ Hat Hat0) as [-> ->]. }
  pose proof (board_set_view _ _ _ _ _ _ (c, d) cell pv Hview1 Hcell1 Hun) as Hset2.
  destruct (Rules.set b1 (c, d) pv) as [b2|]; [|by apply Hset2].
  destruct Hset2 as (h2 & cb2 & E2 & Ecb2 & Hview2 & _ & _ & _ & _ & Hfr2).
  exists h2, cb2. split_and!; [done..|].
  intros h0 He Hn.
  assert (newer h0 g rids cb1) as Hn1 by (by eapply newer_set).
  split; [apply Hfr2; [by apply Hfr1|done]|].
  eapply newer_set; [exact Ecb2| |done].
  intros p ->. destruct Hn as (_ & _ & Hp). apply (Hp a b0).
  by rewrite ref_at_get, Ecell.
Qed.

Lemma board_step_remove_jumped g s i :
  board_step (remove_jumped g s i) g (fun b => Rules.remove_jumped b s i).
Proof.
  unfold remove_jumped, Rules.remove_jumped.
  apply board_step_lift. intros a. apply board_step_lift. intros c.
  apply board_step_lift. intros b0. apply board_step_lift. intros d.
  apply (board_step_clear g ((a + c) / 2, (b0 + d) / 2)).
Qed.

Lemma foldl_option_None {A B} (f : A -> B -> option A) (l : list B) :
  foldl (fun oa x => a ← oa; f a x) None l = None.
Proof. by induction l. Qed.

Lemma board_step_for_each {A} (l : list A) (body : A -> M unit) g fb :
  (∀ x, board_step (body x) g (fb x)) →
  board_step (for_each l body) g
             (fun b => foldl (fun ob x => b ← ob; fb x b) (Some b) l).
Proof.
  intros Hb. induction l as [|x l IH]; intros h gm rids cb b Hview; simpl.
  - exists h, cb. by split_and!.
  - specialize (Hb x h gm rids cb b Hview).
    destruct (fb x b) as [b1|]; simpl.
    + destruct Hb as (h1 & cb1 & E1 & Hview1 & Hfr1).
      rewrite (bind_eq _ _ _ _ _ E1).
      specialize (IH h1 gm rids cb1 b1 Hview1). simpl in IH.
      destruct (foldl _ (Some b1) l) as [b2|]; [|done].
      destruct IH as (h2 & cb2 & E2 & Hview2 & Hfr2).
      exists h2, cb2. split_and!; [done..|].
      intros h0 He Hn. destruct (Hfr1 h0 He Hn). by apply Hfr2.
    + rewrite foldl_option_None. by apply bind_None.
Qed.

Lemma board_step_hops g s :
  board_step
    (for_each (seq 0 (String.length s / 2 - 1)) (fun submove_num =>
       relocate g s (submove_num * 2) ;;; remove_jumped g s (submove_num * 2)))
    g (Rules.hops s).
Proof.
  unfold Rules.hops.
  apply (board_step_for_each _ _ g
           (fun n b => b1 ← Rules.relocate b s (n * 2); Rules.remove_jumped b1 s (n * 2))).
  intros n. apply board_step_seq; [apply board_step_relocate|].
  apply board_step_remove_jumped.
Qed.

Lemma step_board m g f : board_step m g f → step eq m g (Rules.s_board f).
Proof.
  intros Hm h gm rids cb b Hview. specialize (Hm h gm rids cb b Hview).
  unfold Rules.s_board. cbn [Pure.board abs_fields].
  destruct (f b) as [b'|]; simpl; [|done].
  destruct Hm as (h' & cb' & E & Hview' & Hfr).
  by exists tt, h', gm, cb'.
Qed.


(** ** The locations of the pieces *)

Lemma for_extend_Some {A B} (f : A -> option (list B)) l res :
  Rules.for_extend l f = Some res ↔
  ∃ k, Forall2 (fun x ys => f x = Some ys) l k ∧ res = mjoin k.
Proof.
  unfold Rules.for_extend. split.
  - destruct (mapM f l) as [k|] eqn:E; simpl; [|done]. intros [= <-].
    exists k. split; [|done]. by apply mapM_Some.
  - intros (k & Hk & ->). apply mapM_Some in Hk. by rewrite Hk.
Qed.

Lemma for_extend_elem {A B} (f : A -> option (list B)) l res y :
  Rules.for_extend l f = Some res →
  y ∈ res ↔ ∃ x ys, x ∈ l ∧ f x = Some ys ∧ y ∈ ys.
Proof.
  intros H. apply for_extend_Some in H as (k & Hk & ->).
  rewrite list_elem_of_join. split.
  - intros (ys & Hy & Hys). apply list_elem_of_lookup in Hys as [i Hi].
    destruct (Forall2_lookup_r _ _ _ _ _ Hk Hi) as (x & Hx & Hf).
    exists x, ys. split_and!; [|done..]. by eapply list_elem_of_lookup_2.
  - intros (x & ys & Hx & Hf & Hy). apply list_elem_of_lookup in Hx as [i Hi].
    destruct (Forall2_lookup_l _ _ _ _ _ Hk Hi) as (ys' & Hys' & Hf').
    rewrite Hf in Hf'. injection Hf' as <-.
    exists ys. split; [done|]. by eapply list_elem_of_lookup_2.
Qed.

Lemma elem_of_seq_0 n i : i ∈ seq 0 n ↔ i < n.
Proof. rewrite elem_of_seq. lia. Qed.

Lemma locations_elem b colour l r c pc :
  Rules.return_all_pieces_location b colour = Some l →
  ((r, c), pc) ∈ l ↔
  r < 8 ∧ c < 8 ∧ Rules.get b (r, c) = Some (Some pc) ∧ Rules.selected colour pc = true.
Proof.
  intros H. unfold Rules.return_all_pieces_location in H.
  rewrite (for_extend_elem _ _ _ _ H). split.
  - intros (row & ys & Hrow & Hys & Hin).
    rewrite (for_extend_elem _ _ _ _ Hys) in Hin.
    destruct Hin as (col & zs & Hcol & Hzs & Hin).
    apply elem_of_seq_0 in Hrow, Hcol.
    destruct (Rules.get b (row, col)) as [[pc'|]|] eqn:Eg; simpl in Hzs; try done.
    + destruct (Rules.selected colour pc') eqn:Es; injection Hzs as <-.
      * apply list_elem_of_singleton in Hin. injection Hin as -> -> ->. done.
      * by apply elem_of_nil in Hin.
    + injection Hzs as <-. by apply elem_of_nil in Hin.
  - intros (Hr & Hc & Hg & Hs).
    assert (r ∈ seq 0 8) as Hrow by (by apply elem_of_seq_0).
    apply for_extend_Some in H as (k & Hk & _).
    apply list_elem_of_lookup in Hrow as [i Hi].
    destruct (Forall2_lookup_l _ _ _ _ _ Hk Hi) as (ys & _ & Hys).
    exists r, ys. split_and!; [by eapply list_elem_of_lookup_2|done|].
    rewrite (for_extend_elem _ _ _ _ Hys).
    exists c, [((r, c), pc)]. split_and!.
    + by apply elem_of_seq_0.
    + rewrite Hg. simpl. by rewrite Hs.
    + apply list_elem_of_here.
Qed.

Lemma stable_located_at cb : stable (located_at cb).
Proof. intros h h' x y He [? ?]. split; [|done]. by eapply stable_located_is. Qed.

Lemma return_all_pieces_location_view h g gm rids cb b colour :
  view h g gm rids cb b →
  refines (fun h => Forall2 (located_at cb h)) (return_all_pieces_location g colour) h
          (Rules.return_all_pieces_location b colour).
Proof.
  intros Hview. unfold return_all_pieces_location, Rules.return_all_pieces_location.
  apply (refines_for_extend same (located_at cb));
    [apply stable_same | apply stable_located_at | by apply Forall2_same |].
  intros row row' h1 He1 E; unfold same in E; subst row'.
  apply (refines_for_extend same (located_at cb));
    [apply stable_same | apply stable_located_at | by apply Forall2_same |].
  intros col col' h2 He2 E; unfold same in E; subst col'.
  assert (view h2 g gm rids cb b) as Hview2.
  { eapply view_extends; [|exact Hview]. by eapply extends_trans. }
  pose proof (get_Forall2 (cell_is h2) cb b (row, col)
                (proj1 (proj2 (proj2 (proj2 Hview2))))) as Hget.
  pose proof (board_get_view _ _ _ _ _ _ (row, col) Hview2) as Eget. simpl in Eget.
  destruct (Rules.get b (row, col)) as [v|]; simpl.
  2: { rewrite Hget in Eget. unfold refines. by apply bind_None. }
  destruct Hget as (cell & Ecell & Hcell). rewrite Ecell in Eget. simpl in Eget.
  apply (refines_read _ _ _ _ _ _ Eget).
  destruct cell as [p|].
  - apply cell_is_Some in Hcell as (pc & -> & Hp).
    apply (refines_read _ _ _ _ _ _ (cell_selected_eq colour _ _ _ Hp)).
    destruct (Rules.selected colour pc);
      apply (refines_ret (fun h => Forall2 (located_at cb h))); [|constructor].
    constructor; [|constructor]. split; [by split|]. simpl.
    by rewrite ref_at_get, Ecell.
  - apply cell_is_None in Hcell as ->.
    apply (refines_read _ (ret false) _ _ false); [done|].
    apply (refines_ret (fun h => Forall2 (located_at cb h))). constructor.
Qed.

(** ** [_update_pieces] *)

Lemma crowned_crown r pc : Rules.crowned r (Rules.crown pc) = Rules.crowned r pc.
Proof. done. Qed.

Lemma crown_crown pc : Rules.crown (Rules.crown pc) = Rules.crown pc.
Proof. done. Qed.

Lemma length_crown_all l : ∀ ps, length (crown_all l ps) = length ps.
Proof.
  induction l as [|x l IH]; intros ps; [done|]. unfold crown_all in *. simpl.
  rewrite IH. destruct (ps !! x.2) as [pc|]; [|done].
  destruct (Rules.crowned x.1.1 pc); [|done]. by rewrite length_insert.
Qed.

Lemma update_loop l : ∀ h,
  Forall (fun x : nat * nat * nat => is_Some (pieces h !! x.2)) l →
  for_each l (fun piece_loc =>
    pc <- get_piece piece_loc.2 ;;
    if is_white pc && (piece_loc.1.1 =? 7) then set_is_king piece_loc.2
    else if negb (is_white pc) && (piece_loc.1.1 =? 0) then set_is_king piece_loc.2
    else ret tt) h
  = Some (tt, mkHeap (crown_all l (pieces h)) (rows h) (boards h) (games h)).
Proof.
  induction l as [|x l IH]; intros h Hv.
  - by destruct h.
  - apply Forall_cons in Hv as [[pc Hpc] Hv]. simpl.
    set (h1 := mkHeap (if Rules.crowned x.1.1 pc then <[x.2 := Rules.crown pc]> (pieces h)
                       else pieces h) (rows h) (boards h) (games h)).
    rewrite (bind_eq _ _ _ tt h1).
    + rewrite IH.
      * unfold crown_all. simpl. rewrite Hpc. subst h1. simpl.
        by destruct (Rules.crowned x.1.1 pc).
      * eapply Forall_impl; [exact Hv|]. intros y [pcy Hy]. subst h1. simpl.
        destruct (Rules.crowned x.1.1 pc); [|by eauto].
        apply lookup_lt_is_Some. rewrite length_insert.
        by eapply lookup_lt_Some.
    + rewrite (bind_eq _ _ _ _ _ (get_piece_eq _ _ _ Hpc)).
      subst h1. unfold Rules.crowned, set_is_king.
      assert (put_piece x.2 (mkPiece (is_white pc) true) h =
              Some (tt, mkHeap (<[x.2 := Rules.crown pc]> (pieces h)) (rows h)
                               (boards h) (games h))) as Eput.
      { unfold put_piece. by rewrite decide_True by (by eapply lookup_lt_Some). }
      destruct (is_white pc && (x.1.1 =? 7)); simpl.
      * by rewrite (bind_eq _ _ _ _ _ (get_piece_eq _ _ _ Hpc)).
      * destruct (negb (is_white pc) && (x.1.1 =? 0)).
        -- by rewrite (bind_eq _ _ _ _ _ (get_piece_eq _ _ _ Hpc)).
        -- by destruct h.
Qed.

(** What the loop leaves in a piece object. *)
Lemma crown_all_lookup l : ∀ ps q,
  crown_all l ps !! q =
  (fun pc => if existsb (fun x : nat * nat * nat => (x.2 =? q) && Rules.crowned x.1.1 pc) l
             then Rules.crown pc else pc) <$> ps !! q.
Proof.
  induction l as [|x l IH]; intros ps q.
  - simpl. by destruct (ps !! q).
  - unfold crown_all in *. simpl. rewrite IH. clear IH.
    destruct (ps !! x.2) as [pcx|] eqn:Ex.
    + destruct (Rules.crowned x.1.1 pcx) eqn:Ec.
      * destruct (decide (x.2 = q)) as [<-|Hne].
        -- rewrite list_lookup_insert_eq by (by eapply lookup_lt_Some).
           rewrite Ex. cbn [fmap option_fmap option_map].
           rewrite Nat.eqb_refl, Ec. cbn [andb orb].
           by destruct (existsb _ l).
        -- rewrite list_lookup_insert_ne by done.
           destruct (ps !! q) as [pc|]; [|done]. simpl.
           by rewrite (proj2 (Nat.eqb_neq _ _) Hne).
      * destruct (ps !! q) as [pc|] eqn:Eq; [|done]. simpl.
        destruct (x.2 =? q) eqn:E; [|done]. apply Nat.eqb_eq in E. subst q.
        rewrite Ex in Eq. injection Eq as <-. by rewrite Ec.
    + destruct (ps !! q) as [pc|] eqn:Eq; [|done]. simpl.
      destruct (x.2 =? q) eqn:E; [|done]. apply Nat.eqb_eq in E. subst q.
      by rewrite Ex in Eq.
Qed.

Lemma crown_all_prefix l : ∀ ps0 ps,
  ps0 `prefix_of` ps → Forall (fun x : nat * nat * nat => length ps0 ≤ x.2) l →
  ps0 `prefix_of` crown_all l ps.
Proof.
  induction l as [|x l IH]; intros ps0 ps Hpre Hl; [done|].
  apply Forall_cons in Hl as [Hx Hl]. unfold crown_all in *. simpl.
  apply IH; [|done]. destruct (ps !! x.2) as [pc|]; [|done].
  destruct (Rules.crowned x.1.1 pc); [|done]. by apply prefix_insert_ge.
Qed.

Lemma crowned_row r pc : Rules.crowned r pc = true → r < 8.
Proof.
  unfold Rules.crowned. intros H. apply orb_true_iff in H as [H|H];
    apply andb_true_iff in H as [_ H]; apply Nat.eqb_eq in H; lia.
Qed.

Lemma step_update_pieces g :
  step eq (_update_pieces g) g (Rules.s_board Rules._update_pieces).
Proof.
  apply step_board. intros h gm rids cb b Hview.
  unfold _update_pieces, Rules._update_pieces.
  pose proof (return_all_pieces_location_view _ _ _ _ _ _ "any" Hview) as Href.
  destruct (Rules.return_all_pieces_location b "any") as [l'|] eqn:El'; simpl.
  2: { by apply bind_None. }
  destruct Href as (l & h1 & El & _ & Hl).
  pose proof (reading_return_all_pieces_location _ _ _ _ _ El) as ->.
  rewrite (bind_eq _ _ _ _ _ El).
  assert (Forall (fun x : nat * nat * nat => is_Some (pieces h !! x.2)) l) as Hvalid.
  { apply Forall_forall. intros x Hx. apply list_elem_of_lookup in Hx as [i Hi].
    destruct (Forall2_lookup_l _ _ _ _ _ Hl Hi) as (y & _ & [[_ Hy] _]). eauto. }
  rewrite (update_loop _ _ Hvalid).
  destruct Hview as (Eg & Eb & Hrows & Hb & Hnd & Hinj).
  eexists _, cb. split; [reflexivity|]. split.
  - split_and!; try done. simpl.
    apply Forall2_same_length_lookup. split.
    { rewrite length_imap. by eapply Forall2_length. }
    intros r row brow' Hrow Hbrow'.
    rewrite list_lookup_imap in Hbrow'.
    destruct (b !! r) as [brow|] eqn:Ebrow; [|done]. injection Hbrow' as <-.
    pose proof (Forall2_lookup_lr _ _ _ _ _ _ Hb Hrow Ebrow) as Hrb.
    apply Forall2_same_length_lookup. split.
    { rewrite length_imap. by eapply Forall2_length. }
    intros c cell v' Hcell Hv'.
    rewrite list_lookup_imap in Hv'.
    destruct (brow !! c) as [v|] eqn:Ev; [|done]. injection Hv' as <-.
    pose proof (Forall2_lookup_lr _ _ _ _ _ _ Hrb Hcell Ev) as Hcv.
    destruct cell as [p|].
    + apply cell_is_Some in Hcv as (pc & -> & Hp).
      unfold cell_is, cell_value. simpl. rewrite crown_all_lookup, Hp. simpl.
      assert (ref_at cb r c = Some p) as Hat.
      { apply ref_at_Some. eauto. }
      assert (Rules.get b (r, c) = Some (Some pc)) as Hgb.
      { unfold Rules.get. simpl. rewrite Ebrow. done. }
      destruct (existsb _ l) eqn:Eex.
      * apply existsb_exists in Eex as (x & Hx & Hcond).
        apply andb_true_iff in Hcond as [Hq Hcr]. apply Nat.eqb_eq in Hq.
        apply list_elem_of_In, list_elem_of_lookup in Hx as [i Hi].
        destruct (Forall2_lookup_l _ _ _ _ _ Hl Hi) as (y & Hy & [[Hxy Hpy] Hxat]).
        rewrite Hq in Hxat. destruct (Hinj _ _ _ _ _ Hxat Hat) as [Hr Hc].
        rewrite Hr in Hcr. rewrite Hcr.
        assert (c < 8) as Hc8.
        { apply list_elem_of_lookup_2 in Hy. destruct y as [[yr yc] ypc].
          apply (locations_elem _ _ _ _ _ _ El') in Hy as (_ & Hyc & _).
          simpl in Hxy. rewrite <- Hc. destruct x as [[xr xc] xp]. simpl in *.
          by injection Hxy as -> ->. }
        by rewrite (proj2 (Nat.ltb_lt _ _) Hc8).
      * destruct ((c <? 8) && Rules.crowned r pc) eqn:Econd; [|done]. exfalso.
        apply andb_true_iff in Econd as [Hc8 Hcr]. apply Nat.ltb_lt in Hc8.
        assert (((r, c), pc) ∈ l') as Hin.
        { apply (locations_elem _ _ _ _ _ _ El'). split_and!; try done.
          by eapply crowned_row. }
        apply list_elem_of_lookup in Hin as [i Hi].
        destruct (Forall2_lookup_r _ _ _ _ _ Hl Hi) as (x & Hx & [[Hxy Hpy] Hxat]).
        simpl in Hxy. rewrite Hxy in Hxat. simpl in Hxat. rewrite Hat in Hxat.
        injection Hxat as Hxp.
        assert (existsb (fun x : nat * nat * nat => (x.2 =? p) && Rules.crowned x.1.1 pc) l
                = true) as Hex; [|by rewrite Hex in Eex].
        apply existsb_exists. exists x. split.
        { apply list_elem_of_In. by eapply list_elem_of_lookup_2. }
        rewrite <- Hxp, Nat.eqb_refl, Hxy. done.
    + apply cell_is_None in Hcv as ->. done.
  - intros h0 (Hp0 & Hr0 & Hb0 & Hg0) Hn. split; [|done].
    repeat split; simpl; try done.
    apply crown_all_prefix; [done|].
    apply Forall_forall. intros x Hx. apply list_elem_of_lookup in Hx as [i Hi].
    destruct (Forall2_lookup_l _ _ _ _ _ Hl Hi) as (y & _ & [_ Hxat]).
    destruct Hn as (_ & _ & Hn). by eapply Hn.
Qed.


(** ** [make_move] *)

Lemma fields_of_white gm G : fields_of gm G → is_white_move gm = Pure.is_white_move G.
Proof. unfold fields_of. by intros ->. Qed.

Lemma fields_of_count gm G : fields_of gm G → moves_since_cap gm = Pure.moves_since_cap G.
Proof. unfold fields_of. by intros ->. Qed.

Lemma fields_of_main gm G : fields_of gm G → main_game gm = Pure.main_game G.
Proof. unfold fields_of. by intros ->. Qed.

Lemma step_make_move g m : step eq (make_move g m) g (Rules.make_move_steps m).
Proof.
  unfold make_move, Rules.make_move_steps.
  eapply (step_bind eq eq).
  { destruct (negb (piece_captured m)).
    - apply step_board, board_step_relocate.
    - eapply (step_bind eq eq); [apply step_set_moves_since_cap|].
      intros _ _ _. apply step_board, board_step_hops. }
  intros _ _ _.
  eapply (step_bind fields_of eq); [apply step_get_game|]. intros gm1 G1 H1.
  rewrite (fields_of_white _ _ H1).
  eapply (step_bind eq eq); [apply step_set_is_white_move|]. intros _ _ _.
  eapply (step_bind eq eq); [apply step_update_pieces|]. intros _ _ _.
  eapply (step_bind fields_of eq); [apply step_get_game|]. intros gm2 G2 H2.
  rewrite (fields_of_count _ _ H2).
  eapply (step_bind eq eq); [apply step_set_moves_since_cap|]. intros _ _ _.
  eapply (step_bind eq eq); [apply step_find_legal_moves|]. intros legal ? <-.
  eapply (step_bind fields_of eq); [apply step_get_game|]. intros gm3 G3 H3.
  rewrite (fields_of_white _ _ H3), (fields_of_main _ _ H3).
  destruct (is_nil legal && Pure.is_white_move G3 && Pure.main_game G3);
    [apply step_end_game|].
  eapply (step_bind eq eq); [apply step_find_legal_moves|]. intros legal' ? <-.
  eapply (step_bind fields_of eq); [apply step_get_game|]. intros gm4 G4 H4.
  rewrite (fields_of_white _ _ H4), (fields_of_main _ _ H4), (fields_of_count _ _ H4).
  destruct (is_nil legal' && negb (Pure.is_white_move G4) && Pure.main_game G4);
    [apply step_end_game|].
  destruct ((50 <=? Pure.moves_since_cap G4)%Z && Pure.main_game G4);
    [apply step_end_game|].
  apply step_ret.
Qed.

(** On a game whose board shares nothing, [make_move] does to the value of
    the game what [Rules.make_move] says, fails when that fails, and leaves
    alone every object that is not part of the game. *)
Lemma make_move_refines h g G m :
  abs_game h g = Some G → separate h g →
  match Rules.make_move G m with
  | Some G' =>
      ∃ h', make_move g m h = Some (tt, h') ∧ abs_game h' g = Some G' ∧
            separate h' g ∧
            ∀ h0, extends h0 h → beyond h0 h g → extends h0 h' ∧ beyond h0 h' g
  | None => make_move g m h = None
  end.
Proof.
  intros HG Hsep.
  destruct (abs_view _ _ _ HG Hsep) as (gm & rids & cb & b & Hview & ->).
  pose proof (step_make_move g m h gm rids cb b Hview) as Hstep.
  unfold Rules.make_move.
  destruct (Rules.make_move_steps m (abs_fields gm b)) as [[[] G']|]; simpl; [|done].
  destruct Hstep as ([] & h' & gm' & cb' & E & _ & Hview' & EG & Hfr).
  destruct (view_abs _ _ _ _ _ _ Hview') as [HG' Hsep'].
  exists h'. split_and!; [done| by rewrite EG |done|].
  intros h0 He Hbey.
  apply (beyond_newer _ _ _ _ _ _ _ Hview) in Hbey.
  destruct (Hfr h0 He Hbey) as [He' Hn']. split; [done|].
  by apply (beyond_newer _ _ _ _ _ _ _ Hview').
Qed.


(** ** Boards of eight rows of eight squares *)

Lemma get_is_Some {A} (b : list (list A)) loc :
  wf8 b → in_range loc → is_Some (Rules.get b loc).
Proof.
  intros [Hl Hr] [H1 H2]. unfold Rules.get.
  destruct (lookup_lt_is_Some_2 b loc.1) as [row Erow]; [lia|].
  rewrite Erow. simpl. apply lookup_lt_is_Some_2.
  rewrite (Forall_lookup_1 _ _ _ _ Hr Erow). lia.
Qed.

Lemma get_in_range {A} (b : list (list A)) loc x :
  wf8 b → Rules.get b loc = Some x → in_range loc.
Proof.
  intros [Hl Hr]. unfold Rules.get.
  destruct (b !! loc.1) as [row|] eqn:Erow; simpl; [|done]. intros Hc.
  split.
  - apply lookup_lt_Some in Erow. lia.
  - apply lookup_lt_Some in Hc. rewrite (Forall_lookup_1 _ _ _ _ Hr Erow) in Hc. lia.
Qed.

Lemma set_wf8 {A} (b : list (list A)) loc v b' :
  wf8 b → Rules.set b loc v = Some b' → wf8 b'.
Proof.
  intros [Hl Hr] H. apply set_Some in H as (row & Erow & Hc & ->). split.
  - by rewrite length_insert.
  - apply Forall_insert; [done|]. rewrite length_insert.
    by apply (Forall_lookup_1 _ _ _ _ Hr Erow).
Qed.

Lemma set_is_Some {A} (b : list (list A)) loc v :
  wf8 b → in_range loc → ∃ b', Rules.set b loc v = Some b' ∧ wf8 b'.
Proof.
  intros Hwf [H1 H2]. destruct (Rules.set b loc v) as [b'|] eqn:E.
  - exists b'. split; [done|]. by eapply set_wf8.
  - exfalso. destruct Hwf as [Hl Hr]. apply set_None in E as [E|(row & Erow & E)].
    + apply lookup_ge_None in E. lia.
    + rewrite (Forall_lookup_1 _ _ _ _ Hr Erow) in E. lia.
Qed.

Ltac bools :=
  repeat match goal with
  | H : _ && _ = true |- _ => apply andb_true_iff in H; destruct H
  | H : _ || _ = false |- _ => apply orb_false_iff in H; destruct H
  | H : negb _ = true |- _ => apply negb_true_iff in H
  | H : negb _ = false |- _ => apply negb_false_iff in H
  | H : (_ =? _) = true |- _ => apply Nat.eqb_eq in H
  | H : (_ =? _) = false |- _ => apply Nat.eqb_neq in H
  | H : (_ <? _) = true |- _ => apply Nat.ltb_lt in H
  | H : (_ <? _) = false |- _ => apply Nat.ltb_ge in H
  end.

Lemma target_1_in_range d loc :
  Rules.blocked d loc = false → in_range loc → in_range (Rules.target d 1 loc).
Proof.
  unfold in_range. destruct loc as [r c], d; simpl; intros H [??]; bools; lia.
Qed.

Lemma target_2_in_range d loc :
  Rules.can_jump d loc = true → in_range loc → in_range (Rules.target d 2 loc).
Proof.
  unfold in_range. destruct loc as [r c], d; simpl; intros H [??]; bools; lia.
Qed.

Lemma half_succ n : (n + (n + 2)) / 2 = n + 1.
Proof. symmetry. apply (Nat.div_unique _ 2 _ 0); lia. Qed.

Lemma half_pred n : 1 < n → (n + (n - 2)) / 2 = n - 1.
Proof. intros. symmetry. apply (Nat.div_unique _ 2 _ 0); lia. Qed.

(** The square half-way to the landing square is the one jumped over. *)
Lemma mid_target d loc :
  Rules.can_jump d loc = true →
  ((loc.1 + (Rules.target d 2 loc).1) / 2, (loc.2 + (Rules.target d 2 loc).2) / 2)
  = Rules.target d 1 loc.
Proof.
  destruct loc as [r c], d; simpl; intros H; bools;
    f_equal; (apply half_succ || (apply half_pred; lia)).
Qed.

Lemma jumps_can_jump b white d loc :
  jumps b white d loc = true → Rules.can_jump d loc = true.
Proof.
  unfold jumps. intros H. bools.
  destruct (Rules.get b (Rules.target d 1 loc)) as [[pc|]|]; try done. by bools.
Qed.

Lemma jumps_over b white d loc :
  jumps b white d loc = true →
  ∃ pc, Rules.get b (Rules.target d 1 loc) = Some (Some pc) ∧ is_white pc = negb white.
Proof.
  unfold jumps. intros H. bools.
  destruct (Rules.get b (Rules.target d 1 loc)) as [[pc|]|]; try done. bools.
  exists pc. split; [done|]. by destruct (is_white pc), white.
Qed.

Lemma jumps_landing b white d loc :
  jumps b white d loc = true → Rules.get b (Rules.target d 2 loc) = Some None.
Proof.
  unfold jumps. intros H. bools.
  by destruct (Rules.get b (Rules.target d 2 loc)) as [[pc|]|].
Qed.

(** ** What one probe returns *)

Lemma check_jumps extra d b white loc double :
  jumps b white d loc = true →
  Rules.check extra d b white loc double =
  (more ← extra b loc (Rules.target d 2 loc);
   Some (capture_move loc (Rules.target d 2 loc) :: more)).
Proof.
  unfold jumps, Rules.check. intros H.
  destruct (Rules.blocked d loc); [done|]. simpl in H.
  destruct (Rules.get b (Rules.target d 1 loc)) as [[pc|]|]; try done. simpl.
  destruct (negb (eqb (is_white pc) white) && Rules.can_jump d loc); [|done].
  simpl in H.
  by destruct (Rules.get b (Rules.target d 2 loc)) as [[?|]|].
Qed.

Lemma check_not_jumps extra d b white loc double ms :
  jumps b white d loc = false →
  Rules.check extra d b white loc double = Some ms →
  ms = if negb double && slides b d loc
       then [simple_move loc (Rules.target d 1 loc)] else [].
Proof.
  unfold jumps, slides, Rules.check. intros H.
  destruct (Rules.blocked d loc); simpl.
  { intros [= <-]. by rewrite andb_false_r. }
  simpl in H.
  destruct (Rules.get b (Rules.target d 1 loc)) as [[pc|]|]; simpl; [| |done].
  - rewrite andb_false_r.
    destruct (negb (eqb (is_white pc) white) && Rules.can_jump d loc);
      [|by intros [= <-]].
    simpl in H.
    destruct (Rules.get b (Rules.target d 2 loc)) as [[?|]|]; simpl; try done.
    by intros [= <-].
  - rewrite andb_true_r. by destruct (negb double); intros [= <-].
Qed.

Lemma check_total extra d b white loc double :
  wf8 b → in_range loc →
  (jumps b white d loc = true → is_Some (extra b loc (Rules.target d 2 loc))) →
  is_Some (Rules.check extra d b white loc double).
Proof.
  intros Hwf Hloc Hextra. destruct (jumps b white d loc) eqn:Ej.
  - rewrite (check_jumps _ _ _ _ _ _ Ej). destruct (Hextra eq_refl) as [more ->].
    by eexists.
  - clear Hextra. unfold Rules.check. unfold jumps in Ej.
    destruct (Rules.blocked d loc) eqn:Eb; [by eexists|]. simpl in Ej.
    destruct (get_is_Some b (Rules.target d 1 loc) Hwf) as [c Ec];
      [by apply target_1_in_range|].
    rewrite Ec in *. simpl. destruct c as [pc|]; [|by destruct (negb double); eexists].
    destruct (negb (eqb (is_white pc) white) && Rules.can_jump d loc) eqn:E2;
      [|by eexists].
    bools.
    destruct (get_is_Some b (Rules.target d 2 loc) Hwf) as [c2 Ec2];
      [by apply target_2_in_range|].
    rewrite Ec2 in *. simpl. destruct c2; [by eexists|done].
Qed.

(** ** Chains of captures *)

Lemma loc_eqb_eq p q : loc_eqb p q = true ↔ p = q.
Proof.
  unfold loc_eqb. destruct p, q. simpl. rewrite andb_true_iff, !Nat.eqb_eq.
  split; [by intros [-> ->] | by intros [= -> ->]].
Qed.

Lemma chain_ok_cons white king b loc q rest :
  chain_ok white king b loc (q :: rest) = true ↔
  ∃ d b', d ∈ Rules.chain_dirs white king ∧ q = Rules.target d 2 loc ∧
          jumps b white d loc = true ∧
          Rules.set b (Rules.target d 1 loc) None = Some b' ∧
          chain_ok white king b' q rest = true.
Proof.
  simpl. rewrite existsb_exists. split.
  - intros (d & Hd & H). apply list_elem_of_In in Hd. bools.
    destruct (Rules.set b (Rules.target d 1 loc) None) as [b'|] eqn:E; [|done].
    exists d, b'. split_and!; try done. by apply loc_eqb_eq.
  - intros (d & b' & Hd & -> & Hj & Eb' & Hc). exists d. split.
    + by apply list_elem_of_In.
    + rewrite Hj, Eb', Hc. rewrite (proj2 (loc_eqb_eq _ _) eq_refl). done.
Qed.

Lemma append_String a s t : String a s +:+ t = String a (s +:+ t).
Proof. reflexivity. Qed.

Lemma append_assoc s t u : (s +:+ t) +:+ u = s +:+ (t +:+ u).
Proof. induction s as [|a s IH]; [done|]. by rewrite !append_String, IH. Qed.

Lemma append_nil_r s : s +:+ EmptyString = s.
Proof. induction s as [|a s IH]; [done|]. by rewrite append_String, IH. Qed.

Lemma encode_prepend og path c :
  prepend_origin og (mkMove (encode path) c) = mkMove (encode (og :: path)) c.
Proof. done. Qed.

Lemma capture_move_encode loc dst : capture_move loc dst = mkMove (encode [loc; dst]) true.
Proof. unfold capture_move. simpl. by rewrite append_nil_r. Qed.

Lemma simple_move_encode loc dst : simple_move loc dst = mkMove (encode [loc; dst]) false.
Proof. unfold simple_move. simpl. by rewrite append_nil_r. Qed.

Lemma for_extend_total {A B} (f : A -> option (list B)) l res x :
  Rules.for_extend l f = Some res → x ∈ l → ∃ ys, f x = Some ys ∧ ∀ y, y ∈ ys → y ∈ res.
Proof.
  intros H Hx. pose proof H as H'. apply for_extend_Some in H' as (k & Hk & ->).
  apply list_elem_of_lookup in Hx as [i Hi].
  destruct (Forall2_lookup_l _ _ _ _ _ Hk Hi) as (ys & Hys & Hf).
  exists ys. split; [done|]. intros y Hy.
  apply (for_extend_elem _ _ _ _ H). exists x, ys. split_and!; try done.
  by eapply list_elem_of_lookup_2.
Qed.

Lemma for_extend_is_Some {A B} (f : A -> option (list B)) l :
  (∀ x, x ∈ l → is_Some (f x)) → is_Some (Rules.for_extend l f).
Proof.
  intros Hf. unfold Rules.for_extend.
  destruct (mapM f l) as [k|] eqn:E; [by eexists|]. exfalso.
  apply mapM_None_1 in E. apply Exists_exists in E as (x & Hx & E).
  destruct (Hf x Hx) as [? ?]. congruence.
Qed.

Lemma check_additional_capture_set fuel white king b og loc ms :
  Rules._check_additional_capture fuel white king b og loc = Some ms →
  is_Some (Rules.set b ((og.1 + loc.1) / 2, (og.2 + loc.2) / 2) None).
Proof.
  destruct fuel; [done|]. simpl.
  by destruct (Rules.set b _ None); [eexists|].
Qed.

(** The moves [_check_additional_capture] returns are the chains of captures
    that go on from [loc], each with the square of origin and [loc] in front. *)
Lemma check_additional_capture_elem fuel white king : ∀ b og loc ms m,
  Rules._check_additional_capture fuel white king b og loc = Some ms →
  m ∈ ms ↔
  ∃ test path,
    Rules.set b ((og.1 + loc.1) / 2, (og.2 + loc.2) / 2) None = Some test ∧
    path ≠ [] ∧ chain_ok white king test loc path = true ∧
    m = mkMove (encode (og :: loc :: path)) true.
Proof.
  induction fuel as [|fuel IH]; intros b og loc ms m H; [done|].
  simpl in H.
  destruct (Rules.set b _ None) as [test|] eqn:Etest; simpl in H; [|done].
  destruct (Rules.for_extend _ _) as [moves_list|] eqn:Efor; simpl in H; [|done].
  injection H as <-.
  change (map (prepend_origin og) moves_list) with (prepend_origin og <$> moves_list).
  rewrite list_elem_of_fmap. split.
  - intros (m' & -> & Hm').
    apply (for_extend_elem _ _ _ _ Efor) in Hm' as (d & ys & Hd & Hys & Hm').
    destruct (jumps test white d loc) eqn:Ej.
    2: { apply (check_not_jumps _ _ _ _ _ _ _ Ej) in Hys. simpl in Hys. subst ys.
         by apply elem_of_nil in Hm'. }
    rewrite (check_jumps _ _ _ _ _ _ Ej) in Hys.
    destruct (Rules._check_additional_capture fuel white king test loc _)
      as [more|] eqn:Emore; simpl in Hys; [|done].
    injection Hys as <-.
    pose proof (mid_target _ _ (jumps_can_jump _ _ _ _ Ej)) as Emid.
    apply elem_of_cons in Hm' as [->|Hm'].
    + destruct (check_additional_capture_set _ _ _ _ _ _ _ Emore) as [test' Etest'].
      rewrite Emid in Etest'.
      exists test, [Rules.target d 2 loc]. split_and!; [done|done| |].
      * apply chain_ok_cons. by exists d, test'.
      * by rewrite capture_move_encode, encode_prepend.
    + apply (IH _ _ _ _ _ Emore) in Hm' as (test' & path' & Etest' & Hne & Hc & ->).
      rewrite Emid in Etest'.
      exists test, (Rules.target d 2 loc :: path'). split_and!; [done|done| |].
      * apply chain_ok_cons. by exists d, test'.
      * by rewrite encode_prepend.
  - intros (test0 & path & [= <-] & Hne & Hc & ->).
    destruct path as [|q rest]; [done|].
    apply chain_ok_cons in Hc as (d & b' & Hd & -> & Hj & Eb' & Hc).
    destruct (for_extend_total _ _ _ _ Efor Hd) as (ys & Hys & Hsub).
    rewrite (check_jumps _ _ _ _ _ _ Hj) in Hys.
    destruct (Rules._check_additional_capture fuel white king test loc _)
      as [more|] eqn:Emore; simpl in Hys; [|done].
    injection Hys as <-.
    pose proof (mid_target _ _ (jumps_can_jump _ _ _ _ Hj)) as Emid.
    destruct rest as [|q' rest].
    + exists (capture_move loc (Rules.target d 2 loc)). split.
      * by rewrite capture_move_encode, encode_prepend.
      * apply Hsub. apply elem_of_cons. by left.
    + exists (mkMove (encode (loc :: Rules.target d 2 loc :: q' :: rest)) true). split.
      * by rewrite encode_prepend.
      * apply Hsub. apply elem_of_cons. right.
        apply (IH _ _ _ _ _ Emore). exists b', (q' :: rest).
        rewrite Emid. by split_and!.
Qed.


(** ** The capture chain ends: every hop takes a piece off the scratch board *)

Lemma count_row_clear row c pc :
  row !! c = Some (Some pc) → count_row row = S (count_row (<[c := None]> row)).
Proof.
  intros H. unfold count_row.
  rewrite insert_take_drop by (by eapply lookup_lt_Some).
  rewrite <- (take_drop_middle _ _ _ H) at 1.
  rewrite !filter_app, !length_app.
  rewrite (filter_cons_True _ (Some pc)) by done.
  rewrite (filter_cons_False _ None) by (by intros []).
  simpl. lia.
Qed.

Lemma count_clear b loc pc b' :
  Rules.get b loc = Some (Some pc) → Rules.set b loc None = Some b' →
  count b = S (count b').
Proof.
  intros Hget Hset. apply set_Some in Hset as (row & Erow & Hc & ->).
  unfold Rules.get in Hget. rewrite Erow in Hget. simpl in Hget.
  unfold count.
  rewrite insert_take_drop by (by eapply lookup_lt_Some).
  rewrite <- (take_drop_middle _ _ _ Erow) at 1.
  rewrite !sum_list_with_app. simpl.
  rewrite (count_row_clear _ _ _ Hget). lia.
Qed.

Lemma count_row_le row : count_row row ≤ length row.
Proof. apply length_filter. Qed.

Lemma sum_list_with_le {A} (f : A → nat) k l :
  Forall (fun x => f x ≤ k) l → sum_list_with f l ≤ length l * k.
Proof. induction 1; simpl; lia. Qed.

Lemma count_le b : wf8 b → count b ≤ chain_fuel.
Proof.
  intros [Hl Hr]. unfold count.
  etrans; [apply (sum_list_with_le _ 8)|].
  - eapply Forall_impl; [exact Hr|]. intros row Hrow. simpl in Hrow.
    rewrite <- Hrow. apply count_row_le.
  - rewrite Hl. unfold chain_fuel. lia.
Qed.

Lemma check_additional_capture_total fuel white king : ∀ b og loc,
  wf8 b → in_range loc →
  (∃ pc, Rules.get b ((og.1 + loc.1) / 2, (og.2 + loc.2) / 2) = Some (Some pc)) →
  count b ≤ fuel →
  is_Some (Rules._check_additional_capture fuel white king b og loc).
Proof.
  induction fuel as [|fuel IH]; intros b og loc Hwf Hloc [pc Hpc] Hcount.
  - exfalso. destruct (set_is_Some b _ None Hwf (get_in_range _ _ _ Hwf Hpc))
      as (test & Etest & _).
    rewrite (count_clear _ _ _ _ Hpc Etest) in Hcount. lia.
  - cbn [Rules._check_additional_capture].
    destruct (set_is_Some b _ None Hwf (get_in_range _ _ _ Hwf Hpc))
      as (test & Etest & Hwf').
    rewrite Etest. cbn [mbind option_bind].
    pose proof (count_clear _ _ _ _ Hpc Etest) as Ec.
    destruct (for_extend_is_Some
      (fun d => Rules.check (Rules._check_additional_capture fuel white king)
                  d test white loc true) (Rules.chain_dirs white king)) as [ml Eml].
    + intros d _. apply check_total; [done..|]. intros Hj.
      apply IH; [done| | |lia].
      * apply target_2_in_range; [by eapply jumps_can_jump|done].
      * rewrite (mid_target _ _ (jumps_can_jump _ _ _ _ Hj)).
        destruct (jumps_over _ _ _ _ Hj) as (pc' & Hpc' & _). by exists pc'.
    + rewrite Eml. by eexists.
Qed.

(** ** What the probes of one piece return *)

Lemma dirs_same white king d :
  d ∈ Rules.first_dirs white king ↔ d ∈ Rules.chain_dirs white king.
Proof.
  destruct white, king; simpl; [done|done| |done].
  destruct d; split; intros _; repeat constructor.
Qed.

Lemma slides_not_jumps b white d loc :
  slides b d loc = true → jumps b white d loc = false.
Proof.
  unfold slides, jumps. intros H. bools. rewrite H. simpl.
  by destruct (Rules.get b (Rules.target d 1 loc)) as [[?|]|].
Qed.

Lemma probe_piece_total b white loc pc :
  wf8 b → in_range loc → is_Some (Rules.probe_piece b white (loc, pc)).
Proof.
  intros Hwf Hloc. unfold Rules.probe_piece. cbn [fst snd].
  apply for_extend_is_Some. intros d _. apply check_total; [done..|]. intros Hj.
  apply check_additional_capture_total; [done| | |by apply count_le].
  - apply target_2_in_range; [by eapply jumps_can_jump|done].
  - rewrite (mid_target _ _ (jumps_can_jump _ _ _ _ Hj)).
    destruct (jumps_over _ _ _ _ Hj) as (pc' & Hpc' & _). by exists pc'.
Qed.

(** The moves of one piece: a step to an empty neighbouring square in a
    direction open to the piece, or a chain of captures. *)
Lemma probe_piece_elem b white loc pc ms m :
  Rules.probe_piece b white (loc, pc) = Some ms →
  m ∈ ms ↔
  (∃ d, d ∈ Rules.chain_dirs white (is_king pc) ∧ slides b d loc = true ∧
        m = simple_move loc (Rules.target d 1 loc)) ∨
  (∃ path, path ≠ [] ∧ chain_ok white (is_king pc) b loc path = true ∧
           m = mkMove (encode (loc :: path)) true).
Proof.
  unfold Rules.probe_piece. cbn [fst snd]. intros H. split.
  - intros Hm. apply (for_extend_elem _ _ _ _ H) in Hm as (d & ys & Hd & Hys & Hm).
    apply dirs_same in Hd.
    destruct (jumps b white d loc) eqn:Ej.
    + right. rewrite (check_jumps _ _ _ _ _ _ Ej) in Hys.
      destruct (Rules._check_additional_capture _ _ _ _ _ _) as [more|] eqn:Emore;
        simpl in Hys; [|done].
      injection Hys as <-.
      pose proof (mid_target _ _ (jumps_can_jump _ _ _ _ Ej)) as Emid.
      apply elem_of_cons in Hm as [->|Hm].
      * destruct (check_additional_capture_set _ _ _ _ _ _ _ Emore) as [test Etest].
        rewrite Emid in Etest.
        exists [Rules.target d 2 loc]. split_and!; [done| |].
        -- apply chain_ok_cons. by exists d, test.
        -- by rewrite capture_move_encode.
      * apply (check_additional_capture_elem _ _ _ _ _ _ _ _ Emore) in Hm
          as (test & path & Etest & Hne & Hc & ->).
        rewrite Emid in Etest.
        exists (Rules.target d 2 loc :: path). split_and!; [done| |done].
        apply chain_ok_cons. by exists d, test.
    + left. apply (check_not_jumps _ _ _ _ _ _ _ Ej) in Hys. simpl in Hys.
      destruct (slides b d loc) eqn:Es; subst ys; [|by apply elem_of_nil in Hm].
      apply list_elem_of_singleton in Hm. by exists d.
  - intros [(d & Hd & Hs & ->)|(path & Hne & Hc & ->)].
    + apply dirs_same in Hd.
      destruct (for_extend_total _ _ _ _ H Hd) as (ys & Hys & Hsub).
      apply (check_not_jumps _ _ _ _ _ _ _ (slides_not_jumps _ white _ _ Hs)) in Hys.
      rewrite Hs in Hys. simpl in Hys. subst ys. apply Hsub.
      by apply list_elem_of_singleton.
    + destruct path as [|q rest]; [done|].
      apply chain_ok_cons in Hc as (d & b' & Hd & -> & Hj & Eb' & Hc).
      apply dirs_same in Hd.
      destruct (for_extend_total _ _ _ _ H Hd) as (ys & Hys & Hsub).
      rewrite (check_jumps _ _ _ _ _ _ Hj) in Hys.
      destruct (Rules._check_additional_capture _ _ _ _ _ _) as [more|] eqn:Emore;
        simpl in Hys; [|done].
      injection Hys as <-.
      pose proof (mid_target _ _ (jumps_can_jump _ _ _ _ Hj)) as Emid.
      apply Hsub. destruct rest as [|q' rest].
      * apply elem_of_cons. left. by rewrite capture_move_encode.
      * apply elem_of_cons. right.
        apply (check_additional_capture_elem _ _ _ _ _ _ _ _ Emore).
        exists b', (q' :: rest). rewrite Emid. by split_and!.
Qed.

(** ** The whole board *)

Lemma locations_total b colour :
  wf8 b → is_Some (Rules.return_all_pieces_location b colour).
Proof.
  intros Hwf. unfold Rules.return_all_pieces_location.
  apply for_extend_is_Some. intros row Hrow. apply elem_of_seq_0 in Hrow.
  apply for_extend_is_Some. intros col Hcol. apply elem_of_seq_0 in Hcol.
  destruct (get_is_Some b (row, col) Hwf) as [cell Ecell]; [by split|].
  rewrite Ecell. simpl. destruct cell as [pc|]; [|by eexists].
  destruct (Rules.selected colour pc); by eexists.
Qed.

Lemma selected_side (white : bool) pc :
  Rules.selected (if white then "white" else "black") pc = true ↔ is_white pc = white.
Proof. destruct white, pc as [[] ?]; by vm_compute. Qed.

Lemma selected_any pc : Rules.selected "any" pc = true.
Proof. done. Qed.

Lemma captures_first_elem ms m :
  m ∈ captures_first ms ↔
  m ∈ ms ∧ (piece_captured m = true ∨ ∀ m', m' ∈ ms → piece_captured m' = false).
Proof.
  unfold captures_first.
  destruct (filter _ ms) as [|c cs] eqn:E.
  - split; [|by intros [? _]]. intros Hm. split; [done|]. right. intros m' Hm'.
    destruct (piece_captured m') eqn:Ec; [|done].
    exfalso. eapply (filter_nil_not_elem_of _ _ m' E); done.
  - rewrite <- E, list_elem_of_filter. split; [intros [? ?]; by eauto|].
    intros [Hm [Hc|Hall]]; [done|]. exfalso.
    assert (c ∈ filter (fun m => piece_captured m = true) ms) as Hin
      by (rewrite E; apply elem_of_cons; by left).
    apply list_elem_of_filter in Hin as [Hc Hin]. specialize (Hall _ Hin). congruence.
Qed.

Lemma find_legal_moves_total G :
  wf8 (Pure.board G) → is_Some (Rules.find_legal_moves G).
Proof.
  intros Hwf. unfold Rules.find_legal_moves.
  destruct (locations_total (Pure.board G)
              (if Pure.is_white_move G then "white" else "black") Hwf) as [l El].
  rewrite El. simpl.
  destruct (for_extend_is_Some (Rules.probe_piece (Pure.board G) (Pure.is_white_move G)) l)
    as [nm Enm].
  - intros [[r c] pc] Hx. apply (locations_elem _ _ _ _ _ _ El) in Hx as (? & ? & _).
    by apply probe_piece_total.
  - rewrite Enm. by eexists.
Qed.

(** The moves [find_legal_moves] collects before it filters them. *)
Lemma normal_moves_elem G l nm m :
  Rules.return_all_pieces_location (Pure.board G)
    (if Pure.is_white_move G then "white" else "black") = Some l →
  Rules.for_extend l (Rules.probe_piece (Pure.board G) (Pure.is_white_move G)) = Some nm →
  m ∈ nm ↔
  ∃ loc pc ms, in_range loc ∧ Rules.get (Pure.board G) loc = Some (Some pc) ∧
    is_white pc = Pure.is_white_move G ∧
    Rules.probe_piece (Pure.board G) (Pure.is_white_move G) (loc, pc) = Some ms ∧ m ∈ ms.
Proof.
  intros El Enm. rewrite (for_extend_elem _ _ _ _ Enm). split.
  - intros ([[r c] pc] & ms & Hx & Hms & Hm).
    apply (locations_elem _ _ _ _ _ _ El) in Hx as (? & ? & Hget & Hsel).
    apply selected_side in Hsel. exists (r, c), pc, ms. by split_and!.
  - intros ([r c] & pc & ms & [??] & Hget & Hside & Hms & Hm).
    exists ((r, c), pc), ms. split_and!; [|done..].
    apply (locations_elem _ _ _ _ _ _ El). split_and!; [done..|].
    by apply selected_side.
Qed.


(** ** Reading a digit string back *)

Lemma str_digit n :
  n < 10 → ∃ c, str n = String c EmptyString ∧ digit_of_ascii c = Some n.
Proof.
  intros Hn.
  do 10 (destruct n as [|n]; [eexists; split; reflexivity|]). lia.
Qed.

Lemma encode_cons p rest :
  in_range p →
  ∃ c1 c2, encode (p :: rest) = String c1 (String c2 (encode rest)) ∧
           digit_of_ascii c1 = Some p.1 ∧ digit_of_ascii c2 = Some p.2.
Proof.
  intros [H1 H2].
  destruct (str_digit p.1) as (c1 & E1 & D1); [lia|].
  destruct (str_digit p.2) as (c2 & E2 & D2); [lia|].
  exists c1, c2. split; [|done]. cbn [encode]. by rewrite E1, E2.
Qed.

Lemma int_at_encode path : ∀ i p,
  Forall in_range path → path !! i = Some p →
  int_at (encode path) (2 * i) = Some p.1 ∧ int_at (encode path) (2 * i + 1) = Some p.2.
Proof.
  induction path as [|q rest IH]; intros i p Hall Hi; [done|].
  apply Forall_cons in Hall as [Hq Hall].
  destruct (encode_cons q rest Hq) as (c1 & c2 & -> & D1 & D2).
  destruct i as [|i].
  - injection Hi as <-. by split.
  - simpl in Hi. destruct (IH i p Hall Hi) as [E1 E2].
    replace (2 * S i) with (S (S (2 * i))) by lia.
    replace (S (S (2 * i)) + 1) with (S (S (2 * i + 1))) by lia.
    done.
Qed.

Lemma length_encode path :
  Forall in_range path → String.length (encode path) = 2 * length path.
Proof.
  induction 1 as [|q rest Hq _ IH]; [done|].
  destruct (encode_cons q rest Hq) as (c1 & c2 & -> & _). simpl. rewrite IH. lia.
Qed.

(** ** [make_move] goes through on a well-formed move *)

Lemma relocate_total b path i p q :
  wf8 b → Forall in_range path → path !! i = Some p → path !! S i = Some q →
  ∃ b', Rules.relocate b (encode path) (i * 2) = Some b' ∧ wf8 b'.
Proof.
  intros Hwf Hall Hp Hq.
  destruct (int_at_encode _ _ _ Hall Hp) as [E1 E2].
  destruct (int_at_encode _ _ _ Hall Hq) as [E3 E4].
  pose proof (Forall_lookup_1 _ _ _ _ Hall Hp) as Rp.
  pose proof (Forall_lookup_1 _ _ _ _ Hall Hq) as Rq.
  unfold Rules.relocate.
  replace (i * 2) with (2 * i) by lia.
  replace (2 * i + 2) with (2 * S i) by lia.
  replace (2 * i + 3) with (2 * S i + 1) by lia.
  rewrite E1, E2, E3, E4. cbn [mbind option_bind].
  destruct (get_is_Some b (p.1, p.2) Hwf Rp) as [piece ->]. cbn [mbind option_bind].
  destruct (set_is_Some b (p.1, p.2) None Hwf Rp) as (b1 & -> & Hwf1).
  cbn [mbind option_bind].
  by apply set_is_Some.
Qed.

Lemma half_lt a c : a < 8 → c < 8 → (a + c) / 2 < 8.
Proof. intros. apply Nat.Div0.div_lt_upper_bound. lia. Qed.

Lemma remove_jumped_total b path i p q :
  wf8 b → Forall in_range path → path !! i = Some p → path !! S i = Some q →
  ∃ b', Rules.remove_jumped b (encode path) (i * 2) = Some b' ∧ wf8 b'.
Proof.
  intros Hwf Hall Hp Hq.
  destruct (int_at_encode _ _ _ Hall Hp) as [E1 E2].
  destruct (int_at_encode _ _ _ Hall Hq) as [E3 E4].
  destruct (Forall_lookup_1 _ _ _ _ Hall Hp) as [? ?].
  destruct (Forall_lookup_1 _ _ _ _ Hall Hq) as [? ?].
  unfold Rules.remove_jumped.
  replace (i * 2) with (2 * i) by lia.
  replace (2 * i + 2) with (2 * S i) by lia.
  replace (2 * i + 3) with (2 * S i + 1) by lia.
  rewrite E1, E2, E3, E4. cbn [mbind option_bind].
  apply set_is_Some; [done|]. split; by apply half_lt.
Qed.

Lemma hops_total b path :
  wf8 b → Forall in_range path →
  ∃ b', Rules.hops (encode path) b = Some b' ∧ wf8 b'.
Proof.
  intros Hwf Hall. unfold Rules.hops. rewrite (length_encode _ Hall).
  replace (2 * length path / 2) with (length path)
    by (rewrite Nat.mul_comm; symmetry; apply Nat.div_mul; lia).
  assert (∀ k, k ≤ length path - 1 →
    ∃ b', foldl (fun ob n => b ← ob; b1 ← Rules.relocate b (encode path) (n * 2);
                    Rules.remove_jumped b1 (encode path) (n * 2))
            (Some b) (seq 0 k) = Some b' ∧ wf8 b') as Hk; [|by apply Hk].
  induction k as [|k IH]; intros Hle; [by exists b|].
  destruct IH as (b1 & E1 & Hwf1); [lia|].
  rewrite seq_S, foldl_app, E1. cbn [foldl mbind option_bind Nat.add].
  destruct (lookup_lt_is_Some_2 path k) as [p Hp]; [lia|].
  destruct (lookup_lt_is_Some_2 path (S k)) as [q Hq]; [lia|].
  destruct (relocate_total b1 path k p q Hwf1 Hall Hp Hq) as (b2 & -> & Hwf2).
  cbn [mbind option_bind].
  by apply (remove_jumped_total b2 path k p q).
Qed.

Lemma imap_wf8 {A} (f : nat → nat → A → A) (b : list (list A)) :
  wf8 b → wf8 (imap (fun row cells => imap (f row) cells) b).
Proof.
  intros [Hl Hr]. split; [by rewrite length_imap|].
  apply Forall_lookup. intros i row Hi.
  rewrite list_lookup_imap in Hi.
  destruct (b !! i) as [row0|] eqn:Erow; [|done]. injection Hi as <-.
  rewrite length_imap. by apply (Forall_lookup_1 _ _ _ _ Hr Erow).
Qed.

Lemma update_pieces_total b :
  wf8 b → ∃ b', Rules._update_pieces b = Some b' ∧ wf8 b'.
Proof.
  intros Hwf. unfold Rules._update_pieces.
  destruct (locations_total b "any" Hwf) as [l ->]. cbn [mbind option_bind].
  eexists. split; [done|]. by apply imap_wf8.
Qed.

(** After [_update_pieces] a piece on its crowning row is a king. *)
Lemma update_pieces_crowned b b' loc pc :
  wf8 b → Rules._update_pieces b = Some b' →
  Rules.get b' loc = Some (Some pc) → Rules.crowned loc.1 pc = true →
  is_king pc = true.
Proof.
  intros Hwf. unfold Rules._update_pieces.
  destruct (locations_total b "any" Hwf) as [l ->]. cbn [mbind option_bind].
  intros [= <-]. unfold Rules.get. rewrite list_lookup_imap.
  destruct (b !! loc.1) as [row|] eqn:Erow; [|done]. cbn.
  rewrite list_lookup_imap.
  destruct (row !! loc.2) as [cell|] eqn:Ecell; [|done]. cbn.
  destruct cell as [pc0|]; [|done].
  assert (loc.2 < 8) as Hc.
  { apply lookup_lt_Some in Ecell.
    by rewrite (Forall_lookup_1 _ _ _ _ (proj2 Hwf) Erow) in Ecell. }
  assert ((loc.2 <=? 7) = true) as -> by (apply Nat.leb_le; lia). cbn [andb].
  destruct (Rules.crowned loc.1 pc0) eqn:Ecr.
  - by intros [= <-].
  - intros [= <-] ?. congruence.
Qed.

(** [_update_pieces] square by square: nothing moves, no side changes, and
    the crown is put on or kept. *)
Lemma update_pieces_get b b' loc :
  Rules._update_pieces b = Some b' →
  match Rules.get b loc with
  | Some (Some pc) =>
      Rules.get b' loc =
      Some (Some (mkPiece (is_white pc)
                    (is_king pc || ((loc.2 <? 8) && Rules.crowned loc.1 pc))))
  | c => Rules.get b' loc = c
  end.
Proof.
  unfold Rules._update_pieces.
  destruct (Rules.return_all_pieces_location b "any") as [l|]; [|done].
  cbn [mbind option_bind]. intros [= <-]. unfold Rules.get.
  rewrite list_lookup_imap.
  destruct (b !! loc.1) as [row|] eqn:Erow; [|done]. cbn [fmap option_fmap option_map mbind option_bind].
  rewrite list_lookup_imap.
  destruct (row !! loc.2) as [cell|] eqn:Ecell; [|done]. cbn [fmap option_fmap option_map].
  destruct cell as [pc|]; [|done].
  destruct ((loc.2 <? 8) && Rules.crowned loc.1 pc).
  - by rewrite orb_true_r.
  - rewrite orb_false_r. by destruct pc.
Qed.

(** ** [make_move] written out *)

Ltac fields :=
  cbn [mbind option_bind fst snd negb andb Pure.board Pure.is_white_move Pure.gamestate
       Pure.white_win Pure.moves_since_cap Pure.is_draw Pure.main_game].

Lemma make_move_eq G m :
  Rules.make_move G m =
  (b1 ← (if negb (piece_captured m) then Rules.relocate (Pure.board G) (move m) 0
         else Rules.hops (move m) (Pure.board G));
   b2 ← Rules._update_pieces b1;
   legal ← Rules.find_legal_moves
     (Pure.mkGame b2 (negb (Pure.is_white_move G)) (Pure.gamestate G) (Pure.white_win G)
        ((if piece_captured m then -1 else Pure.moves_since_cap G) + 1)
        (Pure.is_draw G) (Pure.main_game G));
   Some
     (if is_nil legal && Pure.main_game G then
        Pure.mkGame b2 (negb (Pure.is_white_move G)) "END" (Pure.is_white_move G)
          ((if piece_captured m then -1 else Pure.moves_since_cap G) + 1)
          (Pure.is_draw G) (Pure.main_game G)
      else if (50 <=? (if piece_captured m then -1 else Pure.moves_since_cap G) + 1)%Z
              && Pure.main_game G then
        Pure.mkGame b2 (negb (Pure.is_white_move G)) "END" true
          ((if piece_captured m then -1 else Pure.moves_since_cap G) + 1)
          true (Pure.main_game G)
      else
        Pure.mkGame b2 (negb (Pure.is_white_move G)) (Pure.gamestate G) (Pure.white_win G)
          ((if piece_captured m then -1 else Pure.moves_since_cap G) + 1)
          (Pure.is_draw G) (Pure.main_game G))).
Proof.
  destruct G as [b w gs ww n dr mg]. cbn [Pure.board Pure.is_white_move Pure.gamestate
    Pure.white_win Pure.moves_since_cap Pure.is_draw Pure.main_game].
  unfold Rules.make_move, Rules.make_move_steps, Rules.set_moves_since_cap,
    Rules.set_is_white_move, Rules.end_game, Rules.s_find, Rules.s_board,
    Rules.sbind, Rules.s_get, Rules.s_put.
  destruct (piece_captured m), w, mg;
    cbn [negb Pure.board Pure.is_white_move Pure.gamestate
         Pure.white_win Pure.moves_since_cap Pure.is_draw Pure.main_game];
    match goal with
    | |- context [Rules.hops ?s ?b] => destruct (Rules.hops s b) as [b1|]
    | |- context [Rules.relocate ?b ?s ?i] => destruct (Rules.relocate b s i) as [b1|]
    end; fields; try done;
    (destruct (Rules._update_pieces b1) as [b2|]; fields; [|done]);
    (destruct (Rules.find_legal_moves _) as [legal|] eqn:E; fields; [|done]);
    destruct legal as [|m0 legal];
    repeat (first [rewrite E | progress (cbn [is_nil]; fields)]);
    try done;
    match goal with |- context [(50 <=? ?x)%Z] => by destruct (50 <=? x)%Z end.
Qed.

(** ** The legal moves *)

Lemma chain_ok_in_range white king : ∀ path b loc,
  in_range loc → chain_ok white king b loc path = true → Forall in_range path.
Proof.
  induction path as [|q rest IH]; intros b loc Hloc Hc; [done|].
  apply chain_ok_cons in Hc as (d & b' & Hd & -> & Hj & Eb' & Hc).
  assert (in_range (Rules.target d 2 loc)) as Hq
    by (apply target_2_in_range; [by eapply jumps_can_jump|done]).
  apply Forall_cons. split; [done|]. by eapply IH.
Qed.

Lemma find_legal_moves_elem G ms m :
  wf8 (Pure.board G) → Rules.find_legal_moves G = Some ms →
  m ∈ ms ↔
  piece_move (Pure.board G) (Pure.is_white_move G) m ∧
  (piece_captured m = true ∨
   ∀ m', piece_move (Pure.board G) (Pure.is_white_move G) m' → piece_captured m' = false).
Proof.
  intros Hwf. unfold Rules.find_legal_moves.
  destruct (Rules.return_all_pieces_location _ _) as [l|] eqn:El;
    cbn [mbind option_bind]; [|done].
  destruct (Rules.for_extend l _) as [nm|] eqn:Enm; cbn [mbind option_bind]; [|done].
  intros [= <-]. rewrite captures_first_elem.
  assert (∀ m, m ∈ nm ↔ piece_move (Pure.board G) (Pure.is_white_move G) m) as Hnm.
  { intros m0. rewrite (normal_moves_elem _ _ _ _ El Enm). unfold piece_move. split.
    - intros (loc & pc & ms & Hloc & Hget & Hside & Hms & Hm).
      exists loc, pc. split_and!; [done..|].
      by apply (probe_piece_elem _ _ _ _ _ _ Hms).
    - intros (loc & pc & Hloc & Hget & Hside & Hm).
      destruct (probe_piece_total (Pure.board G) (Pure.is_white_move G) loc pc Hwf Hloc)
        as [ms Hms].
      exists loc, pc, ms. split_and!; [done..|].
      by apply (probe_piece_elem _ _ _ _ _ _ Hms). }
  rewrite Hnm. split; intros [? [?|Hall]]; (split; [done|]); auto; right; intros m' Hm';
    apply Hall; by apply Hnm.
Qed.

Lemma piece_move_well_formed b white m : piece_move b white m → well_formed m.
Proof.
  intros (loc & pc & Hloc & Hget & Hside & [(d & Hd & Hs & ->)|(path & Hne & Hc & ->)]).
  - exists [loc; Rules.target d 1 loc]. rewrite simple_move_encode. split_and!; [done..|].
    apply Forall_cons. split; [done|]. apply Forall_cons. split; [|done].
    apply target_1_in_range; [|done]. unfold slides in Hs. by bools.
  - exists (loc :: path). split_and!; [done| |].
    + destruct path; [done|simpl; lia].
    + apply Forall_cons. split; [done|]. by eapply chain_ok_in_range.
Qed.

Lemma make_move_total G m :
  wf8 (Pure.board G) → well_formed m →
  ∃ G', Rules.make_move G m = Some G' ∧ wf8 (Pure.board G').
Proof.
  intros Hwf (path & Em & Hlen & Hall). rewrite make_move_eq.
  assert (∃ b1, (if negb (piece_captured m)
                 then Rules.relocate (Pure.board G) (move m) 0
                 else Rules.hops (move m) (Pure.board G)) = Some b1 ∧ wf8 b1)
    as (b1 & -> & Hwf1).
  { rewrite Em. destruct (piece_captured m); cbn [negb].
    - by apply hops_total.
    - destruct (lookup_lt_is_Some_2 path 0) as [p Hp]; [lia|].
      destruct (lookup_lt_is_Some_2 path 1) as [q Hq]; [lia|].
      apply (relocate_total _ path 0 p q); done. }
  cbn [mbind option_bind].
  destruct (update_pieces_total b1 Hwf1) as (b2 & -> & Hwf2). cbn [mbind option_bind].
  match goal with |- context [Rules.find_legal_moves ?g] =>
    destruct (find_legal_moves_total g Hwf2) as [legal ->] end.
  cbn [mbind option_bind]. eexists. split; [done|].
  destruct (is_nil legal && _); [done|]. by destruct (_ && _).
Qed.

Lemma legal_move_total G ms m :
  wf8 (Pure.board G) → Rules.find_legal_moves G = Some ms → m ∈ ms →
  ∃ G', Rules.make_move G m = Some G' ∧ wf8 (Pure.board G').
Proof.
  intros Hwf Hms Hm. apply make_move_total; [done|].
  apply (find_legal_moves_elem _ _ _ Hwf Hms) in Hm as [Hm _].
  by eapply piece_move_well_formed.
Qed.


(** ** The computed checks are sound *)

Lemma nodupb_NoDup l : nodupb l = true → NoDup l.
Proof.
  induction l as [|x l IH]; simpl; intros H; [constructor|].
  apply andb_true_iff in H as [Hx Hl]. constructor; [|by apply IH].
  intros Hin. apply negb_true_iff in Hx.
  assert (existsb (Nat.eqb x) l = true) as E; [|congruence].
  apply existsb_exists. exists x. split; [by apply list_elem_of_In|].
  apply Nat.eqb_refl.
Qed.

Lemma row_refs_inj (row : list (option ref)) c c' p :
  NoDup (omap id row) → row !! c = Some (Some p) → row !! c' = Some (Some p) → c = c'.
Proof.
  revert c c'. induction row as [|x row IH]; intros c c' Hnd Hc Hc'; [done|].
  assert (∀ i, row !! i = Some (Some p) → p ∈ omap id row) as Hin.
  { intros i Hi. apply list_elem_of_omap. exists (Some p). split; [|done].
    by eapply list_elem_of_lookup_2. }
  destruct c as [|c], c' as [|c']; simpl in *; [done| | |].
  - injection Hc as ->. simpl in Hnd. apply NoDup_cons in Hnd as [Hn _].
    destruct Hn. by eapply Hin.
  - injection Hc' as ->. simpl in Hnd. apply NoDup_cons in Hnd as [Hn _].
    destruct Hn. by eapply Hin.
  - f_equal. apply IH; [|done..]. destruct x; simpl in Hnd; [|done].
    by apply NoDup_cons in Hnd as [_ ?].
Qed.

Lemma board_refs_inj cb : ∀ r c r' c' p,
  NoDup (board_refs cb) →
  ref_at cb r c = Some p → ref_at cb r' c' = Some p → r = r' ∧ c = c'.
Proof.
  unfold board_refs.
  assert (∀ cb r c p, ref_at cb r c = Some p →
            ∃ row, cb !! r = Some row ∧ row !! c = Some (Some p)) as Hat.
  { intros cb0 r c p. unfold ref_at.
    destruct (cb0 !! r) as [row|]; simpl; [|done].
    destruct (row !! c) as [[q|]|] eqn:E; simpl; try done. intros [= ->]. eauto. }
  assert (∀ (cb : list (list (option ref))) r row c p,
            cb !! r = Some row → row !! c = Some (Some p) →
            p ∈ omap id (mjoin cb)) as Hin.
  { intros cb0 r row c p Hr Hc. apply list_elem_of_omap. exists (Some p).
    split; [|done]. apply list_elem_of_join. exists row.
    split; by eapply list_elem_of_lookup_2. }
  induction cb as [|row cb IH]; intros r c r' c' p Hnd H1 H2.
  { by destruct r. }
  simpl in Hnd. rewrite omap_app in Hnd.
  apply NoDup_app in Hnd as (Hrow & Hdis & Hrest).
  apply Hat in H1 as (row1 & Hr1 & Hc1). apply Hat in H2 as (row2 & Hr2 & Hc2).
  assert (∀ c, row !! c = Some (Some p) → p ∈ omap id row) as Hhere.
  { intros i Hi. apply list_elem_of_omap. exists (Some p). split; [|done].
    by eapply list_elem_of_lookup_2. }
  destruct r as [|r], r' as [|r']; simpl in *.
  - injection Hr1 as <-. injection Hr2 as <-. split; [done|].
    exact (row_refs_inj _ _ _ _ Hrow Hc1 Hc2).
  - injection Hr1 as <-. destruct (Hdis p); [by eapply Hhere | by eapply Hin].
  - injection Hr2 as <-. destruct (Hdis p); [by eapply Hhere | by eapply Hin].
  - destruct (IH r c r' c' p Hrest) as [-> ->]; [| |done].
    + unfold ref_at. rewrite Hr1. simpl. by rewrite Hc1.
    + unfold ref_at. rewrite Hr2. simpl. by rewrite Hc2.
Qed.

Lemma separateb_sound h g : separateb h g = true → separate h g.
Proof.
  unfold separateb, separate.
  destruct (ref_board h g) as [[rids cb]|]; [|done]. intros H.
  apply andb_true_iff in H as [H1 H2]. exists rids, cb. split_and!; [done| |].
  - by apply nodupb_NoDup.
  - intros r c r' c' p. apply board_refs_inj. by apply nodupb_NoDup.
Qed.

Lemma wf8b_sound {A} (b : list (list A)) : wf8b b = true → wf8 b.
Proof.
  unfold wf8b, wf8. intros H. apply andb_true_iff in H as [H1 H2].
  apply Nat.eqb_eq in H1. split; [done|].
  apply Forall_forall. intros row Hrow.
  rewrite forallb_forall in H2. apply Nat.eqb_eq, H2. by apply list_elem_of_In.
Qed.

(** ** Running a method on a game that shares nothing *)

Lemma step_run {A A'} (R : A → A' → Prop) (m : M A) g f h G :
  step R m g f → abs_game h g = Some G → separate h g →
  match f G with
  | Some (a', G') =>
      ∃ a h', m h = Some (a, h') ∧ R a a' ∧ abs_game h' g = Some G' ∧ separate h' g ∧
        ∀ h0, extends h0 h → beyond h0 h g → extends h0 h' ∧ beyond h0 h' g
  | None => m h = None
  end.
Proof.
  intros Hstep HG Hsep.
  destruct (abs_view _ _ _ HG Hsep) as (gm & rids & cb & b & Hview & ->).
  specialize (Hstep h gm rids cb b Hview).
  destruct (f (abs_fields gm b)) as [[a' G']|]; [|done].
  destruct Hstep as (a & h' & gm' & cb' & E & HR & Hview' & EG & Hfr).
  destruct (view_abs _ _ _ _ _ _ Hview') as [HG' Hsep'].
  exists a, h'. split_and!; [done|done|by rewrite EG|done|].
  intros h0 He Hbey.
  apply (beyond_newer _ _ _ _ _ _ _ Hview) in Hbey.
  destruct (Hfr h0 He Hbey) as [He' Hn']. split; [done|].
  by apply (beyond_newer _ _ _ _ _ _ _ Hview').
Qed.

Lemma find_legal_moves_run h g G :
  abs_game h g = Some G → separate h g → wf8 (Pure.board G) →
  ∃ ms h', find_legal_moves g h = Some (ms, h') ∧ extends h h' ∧
           Rules.find_legal_moves G = Some ms.
Proof.
  intros HG Hsep Hwf. pose proof (find_legal_moves_refines _ _ _ HG Hsep) as Href.
  destruct (find_legal_moves_total G Hwf) as [ms Hms]. rewrite Hms in Href.
  destruct Href as (ms' & h' & E & He & ->). by exists ms, h'.
Qed.

Lemma find_legal_moves_value h g G ms h' :
  abs_game h g = Some G → separate h g →
  find_legal_moves g h = Some (ms, h') → Rules.find_legal_moves G = Some ms.
Proof.
  intros HG Hsep E. pose proof (find_legal_moves_refines _ _ _ HG Hsep) as Href.
  destruct (Rules.find_legal_moves G) as [ms'|]; [|unfold refines in Href; congruence].
  destruct Href as (ms0 & h0 & E0 & _ & Heq). unfold same in Heq. congruence.
Qed.

Lemma make_move_value h g G m h' :
  abs_game h g = Some G → separate h g → make_move g m h = Some (tt, h') →
  ∃ G', Rules.make_move G m = Some G' ∧ abs_game h' g = Some G' ∧ separate h' g ∧
        ∀ h0, extends h0 h → beyond h0 h g → extends h0 h' ∧ beyond h0 h' g.
Proof.
  intros HG Hsep E. pose proof (make_move_refines _ _ _ m HG Hsep) as Href.
  destruct (Rules.make_move G m) as [G'|]; [|congruence].
  destruct Href as (h0 & E0 & ? & ? & ?). exists G'.
  assert (h0 = h') as -> by congruence. done.
Qed.

Lemma make_move_run h g G m :
  abs_game h g = Some G → separate h g → wf8 (Pure.board G) → well_formed m →
  ∃ h' G', make_move g m h = Some (tt, h') ∧ Rules.make_move G m = Some G' ∧
           abs_game h' g = Some G' ∧ separate h' g ∧ wf8 (Pure.board G').
Proof.
  intros HG Hsep Hwf Hm. pose proof (make_move_refines _ _ _ m HG Hsep) as Href.
  destruct (make_move_total G m Hwf Hm) as (G' & E & Hwf'). rewrite E in Href.
  destruct Href as (h' & E' & ? & ? & _). by exists h', G'.
Qed.


(** ** The square a chain starts from *)

(** The piece that captures stays on its square of the scratch board, so no
    hop of the chain lands there. *)
Lemma chain_ok_avoids white king o pc : ∀ path b cur,
  Rules.get b o = Some (Some pc) → is_white pc = white →
  chain_ok white king b cur path = true → o ∉ path.
Proof.
  induction path as [|q rest IH]; intros b cur Ho Hside Hc; [apply not_elem_of_nil|].
  apply chain_ok_cons in Hc as (d & b' & Hd & -> & Hj & Eb' & Hc).
  apply not_elem_of_cons. split.
  - intros ->. rewrite (jumps_landing _ _ _ _ Hj) in Ho. done.
  - eapply IH; [|exact Hside|exact Hc]. rewrite (get_set _ _ _ _ _ Eb').
    case_decide as E; [|done]. subst o.
    destruct (jumps_over _ _ _ _ Hj) as (pc' & Hpc' & Hw).
    rewrite Hpc' in Ho. injection Ho as ->. destruct white; simpl in Hw; congruence.
Qed.

(** ** The board read through the store *)

Lemma view_cell h g gm rids cb b loc pc :
  view h g gm rids cb b → Rules.get b loc = Some (Some pc) →
  ∃ p, Rules.get cb loc = Some (Some p) ∧ pieces h !! p = Some pc.
Proof.
  intros Hview Hget.
  pose proof (get_Forall2 (cell_is h) cb b loc (proj1 (proj2 (proj2 (proj2 Hview)))))
    as Hc.
  rewrite Hget in Hc. destruct Hc as (x & Hx & Hcell).
  destruct x as [p|]; unfold cell_is, cell_value in Hcell; [|done].
  destruct (pieces h !! p) as [pc0|] eqn:Ep; simpl in Hcell; [|done].
  exists p. split; [done|]. congruence.
Qed.

Lemma view_cell_inv h g gm rids cb b loc p pc :
  view h g gm rids cb b → Rules.get cb loc = Some (Some p) → pieces h !! p = Some pc →
  Rules.get b loc = Some (Some pc).
Proof.
  intros Hview Hget Hp.
  pose proof (get_Forall2 (cell_is h) cb b loc (proj1 (proj2 (proj2 (proj2 Hview)))))
    as Hc.
  destruct (Rules.get b loc) as [y|] eqn:Ey; [|congruence].
  destruct Hc as (x & Hx & Hcell). rewrite Hget in Hx. injection Hx as <-.
  unfold cell_is, cell_value in Hcell. rewrite Hp in Hcell. simpl in Hcell. congruence.
Qed.

Lemma board_get_cell h g gm rids cb b r c x :
  view h g gm rids cb b →
  board_get g r c h = Some (x, h) ↔ Rules.get cb (r, c) = Some x.
Proof.
  intros Hview. pose proof (board_get_view _ _ _ _ _ _ (r, c) Hview) as E.
  cbn [fst snd] in E. rewrite E.
  destruct (Rules.get cb (r, c)) as [y|]; simpl; [|done].
  split; [by intros [= ->] | by intros [= ->]].
Qed.

(** ** [return_all_pieces_location] *)

Lemma return_all_pieces_location_elem h g G colour :
  abs_game h g = Some G → separate h g → wf8 (Pure.board G) →
  ∃ l, return_all_pieces_location g colour h = Some (l, h) ∧
    ∀ r c p, ((r, c), p) ∈ l ↔
      r < 8 ∧ c < 8 ∧ board_get g r c h = Some (Some p, h) ∧
      ∃ pc, pieces h !! p = Some pc ∧ Rules.selected colour pc = true.
Proof.
  intros HG Hsep Hwf.
  destruct (abs_view _ _ _ HG Hsep) as (gm & rids & cb & b & Hview & ->).
  cbn [Pure.board abs_fields] in Hwf.
  pose proof (return_all_pieces_location_view _ _ _ _ _ _ colour Hview) as Href.
  destruct (locations_total b colour Hwf) as [l' El']. rewrite El' in Href.
  destruct Href as (l & h' & E & _ & Hl).
  assert (h' = h) as -> by (by eapply reading_return_all_pieces_location).
  exists l. split; [done|]. intros r c p. split.
  - intros Hin. apply list_elem_of_lookup in Hin as [i Hi].
    destruct (Forall2_lookup_l _ _ _ _ _ Hl Hi) as ([[r' c'] pc] & Hy & [[Hloc Hp] Hat]).
    simpl in Hloc, Hp, Hat. injection Hloc as <- <-.
    apply list_elem_of_lookup_2 in Hy.
    apply (locations_elem _ _ _ _ _ _ El') in Hy as (? & ? & Hget & Hsel).
    split_and!; [done..| |by exists pc].
    apply (board_get_cell _ _ _ _ _ _ _ _ _ Hview).
    rewrite ref_at_get in Hat.
    destruct (Rules.get cb (r, c)) as [[q|]|]; simpl in Hat; try done. congruence.
  - intros (Hr & Hc & Hget & pc & Hp & Hsel).
    apply (board_get_cell _ _ _ _ _ _ _ _ _ Hview) in Hget.
    pose proof (view_cell_inv _ _ _ _ _ _ _ _ _ Hview Hget Hp) as Hb.
    assert (((r, c), pc) ∈ l') as Hin by (by apply (locations_elem _ _ _ _ _ _ El')).
    apply list_elem_of_lookup in Hin as [i Hi].
    destruct (Forall2_lookup_r _ _ _ _ _ Hl Hi) as ([[r' c'] q] & Hx & [[Hloc Hq] Hat]).
    simpl in Hloc, Hq, Hat. injection Hloc as -> ->.
    rewrite ref_at_get, Hget in Hat. simpl in Hat. injection Hat as ->.
    by eapply list_elem_of_lookup_2.
Qed.

Lemma selected_unknown colour pc :
  colour ≠ "any" → colour ≠ "white" → colour ≠ "black" →
  Rules.selected colour pc = false.
Proof.
  intros H1 H2 H3. unfold Rules.selected.
  apply String.eqb_neq in H1, H2, H3. by rewrite H1, H2, H3.
Qed.

(** ** The moves of one piece *)

Lemma one_piece_run h g G loc p pc :
  abs_game h g = Some G → separate h g → wf8 (Pure.board G) → in_range loc →
  pieces h !! p = Some pc →
  ∃ pm ms h', Rules.probe_piece (Pure.board G) (Pure.is_white_move G) (loc, pc) = Some pm ∧
    ms = captures_first pm ∧
    find_legal_moves_one_piece g (loc, p) h = Some (ms, h') ∧ extends h h'.
Proof.
  intros HG Hsep Hwf Hloc Hp.
  pose proof (find_legal_moves_one_piece_refines h g G (loc, p) (loc, pc) HG Hsep) as Href.
  destruct (probe_piece_total (Pure.board G) (Pure.is_white_move G) loc pc Hwf Hloc)
    as [pm Hpm].
  unfold Rules.find_legal_moves_one_piece in Href. rewrite Hpm in Href.
  cbn [mbind option_bind] in Href.
  destruct Href as (ms & h' & E & He & Hs); [by split|]. unfold same in Hs. subst ms.
  by exists pm, (captures_first pm), h'.
Qed.

Lemma piece_move_holds b white loc pc pm m :
  in_range loc → Rules.get b loc = Some (Some pc) → is_white pc = white →
  Rules.probe_piece b white (loc, pc) = Some pm → m ∈ pm → piece_move b white m.
Proof.
  intros Hloc Hget Hside Hpm Hm. exists loc, pc. split_and!; [done..|].
  by apply (probe_piece_elem _ _ _ _ _ _ Hpm).
Qed.

(** A probe that finds no capture in any direction returns the quiet moves
    only. *)
Lemma probe_piece_quiet b white loc pc pm :
  Rules.probe_piece b white (loc, pc) = Some pm →
  (∀ d, d ∈ Rules.chain_dirs white (is_king pc) → jumps b white d loc = false) →
  (∀ m, m ∈ pm → piece_captured m = false) ∧
  ∀ m, m ∈ pm ↔ ∃ d, d ∈ Rules.chain_dirs white (is_king pc) ∧ slides b d loc = true ∧
                     m = simple_move loc (Rules.target d 1 loc).
Proof.
  intros Hpm Hno.
  assert (∀ m, m ∈ pm ↔ ∃ d, d ∈ Rules.chain_dirs white (is_king pc) ∧
            slides b d loc = true ∧ m = simple_move loc (Rules.target d 1 loc)) as Hiff.
  { intros m. rewrite (probe_piece_elem _ _ _ _ _ _ Hpm). split; [|by left].
    intros [?|(path & Hne & Hc & _)]; [done|]. exfalso.
    destruct path as [|q rest]; [done|].
    apply chain_ok_cons in Hc as (d & b' & Hd & _ & Hj & _). rewrite (Hno d Hd) in Hj.
    done. }
  split; [|done]. intros m Hm. apply Hiff in Hm as (d & _ & _ & ->). done.
Qed.

Lemma captures_first_quiet pm :
  (∀ m, m ∈ pm → piece_captured m = false) → captures_first pm = pm.
Proof.
  intros H. unfold captures_first.
  destruct (filter _ pm) as [|c cs] eqn:E; [done|]. exfalso.
  assert (c ∈ filter (fun m => piece_captured m = true) pm) as Hin
    by (rewrite E; apply elem_of_cons; by left).
  apply list_elem_of_filter in Hin as [Hc Hin]. specialize (H _ Hin). congruence.
Qed.

(** ** The fields [find_legal_moves] reads *)

Lemma find_legal_moves_fields G G' :
  Pure.board G = Pure.board G' → Pure.is_white_move G = Pure.is_white_move G' →
  Rules.find_legal_moves G = Rules.find_legal_moves G'.
Proof. unfold Rules.find_legal_moves. by intros -> ->. Qed.

(** ** Strings that are too short *)

Lemma int_at_short s i : String.length s ≤ i → int_at s i = None.
Proof.
  unfold int_at. revert i. induction s as [|a s IH]; intros i Hi; [by destruct i|].
  destruct i as [|i]; simpl in *; [lia|]. apply IH. lia.
Qed.

Lemma relocate_short g s h : String.length s < 4 → relocate g s 0 h = None.
Proof.
  intros Hlen. unfold relocate.
  assert (int_at s (0 + 3) = None) as E3 by (apply int_at_short; simpl; lia).
  unfold bind at 1. destruct (lift (int_at s 0) h) as [[a h1]|]; [|done].
  unfold bind at 1. destruct (lift (int_at s (0 + 1)) h1) as [[b0 h2]|]; [|done].
  unfold bind at 1. destruct (board_get g a b0 h2) as [[piece h3]|]; [|done].
  unfold bind at 1. destruct (board_set g a b0 None h3) as [[[] h4]|]; [|done].
  unfold bind at 1. destruct (lift (int_at s (0 + 2)) h4) as [[c h5]|]; [|done].
  unfold bind at 1. by rewrite E3.
Qed.


(** ** What [make_move] leaves behind *)

Lemma make_move_result G m G' :
  Rules.make_move G m = Some G' →
  ∃ legal, Rules.find_legal_moves G' = Some legal ∧
    Pure.is_white_move G' = negb (Pure.is_white_move G) ∧
    Pure.moves_since_cap G' =
      (if piece_captured m then 0 else Pure.moves_since_cap G + 1)%Z ∧
    Pure.main_game G' = Pure.main_game G ∧
    if Pure.main_game G then
      if is_nil legal then
        Pure.gamestate G' = "END" ∧ Pure.white_win G' = negb (Pure.is_white_move G') ∧
        Pure.is_draw G' = Pure.is_draw G
      else if (50 <=? Pure.moves_since_cap G')%Z then
        Pure.gamestate G' = "END" ∧ Pure.white_win G' = true ∧ Pure.is_draw G' = true
      else
        Pure.gamestate G' = Pure.gamestate G ∧ Pure.white_win G' = Pure.white_win G ∧
        Pure.is_draw G' = Pure.is_draw G
    else
      Pure.gamestate G' = Pure.gamestate G ∧ Pure.white_win G' = Pure.white_win G ∧
      Pure.is_draw G' = Pure.is_draw G.
Proof.
  rewrite make_move_eq.
  destruct (if negb (piece_captured m) then _ else _) as [b1|];
    cbn [mbind option_bind]; [|done].
  destruct (Rules._update_pieces b1) as [b2|]; cbn [mbind option_bind]; [|done].
  destruct (Rules.find_legal_moves _) as [legal|] eqn:E; cbn [mbind option_bind]; [|done].
  intros [= <-]. exists legal.
  assert ((if piece_captured m then -1 else Pure.moves_since_cap G) + 1 =
          if piece_captured m then 0 else Pure.moves_since_cap G + 1)%Z as En
    by (by destruct (piece_captured m)).
  rewrite En in *.
  destruct (Pure.main_game G) eqn:Emain, (is_nil legal) eqn:Enil;
    cbn [andb Pure.board Pure.is_white_move Pure.gamestate Pure.white_win
         Pure.moves_since_cap Pure.is_draw Pure.main_game];
    rewrite ?andb_true_r, ?andb_false_r;
    try (destruct (50 <=? _)%Z eqn:E50);
    cbn [andb Pure.board Pure.is_white_move Pure.gamestate Pure.white_win
         Pure.moves_since_cap Pure.is_draw Pure.main_game];
    rewrite ?E50, ?negb_involutive;
    (split; [by rewrite <- E|]); done.
Qed.

(** ** [_update_pieces] on the store *)

Lemma update_pieces_run g h G h' :
  abs_game h g = Some G → separate h g → _update_pieces g h = Some (tt, h') →
  ∃ b', Rules._update_pieces (Pure.board G) = Some b' ∧
    abs_game h' g =
    Some (Pure.mkGame b' (Pure.is_white_move G) (Pure.gamestate G) (Pure.white_win G)
            (Pure.moves_since_cap G) (Pure.is_draw G) (Pure.main_game G)) ∧
    separate h' g.
Proof.
  intros HG Hsep E.
  pose proof (step_run _ _ _ _ _ _ (step_update_pieces g) HG Hsep) as Hrun.
  unfold Rules.s_board in Hrun.
  destruct (Rules._update_pieces (Pure.board G)) as [b'|]; cbn [mbind option_bind] in Hrun;
    [|congruence].
  destruct Hrun as ([] & h0 & E0 & _ & HG' & Hsep' & _).
  assert (h0 = h') as -> by congruence. by exists b'.
Qed.


(** ** Trees *)

Lemma tree_ind' (P : CheckersGameTree → Prop) :
  (∀ m w sts, Forall P sts → P (Tree m w sts)) → ∀ t, P t.
Proof.
  intros H. fix IH 1. intros [m w sts]. apply H.
  induction sts as [|st sts IHs]; constructor; [apply IH | exact IHs].
Qed.

(** ** A move tried on a copy *)

Lemma refines_child {B B'} (S : Heap → B → B' → Prop) (k : ref → M B)
    (ko : Pure.Game → option B') h g G m :
  abs_game h g = Some G → separate h g →
  (∀ c h2 G', extends h h2 → abs_game h2 c = Some G' → separate h2 c →
              refines S (k c) h2 (ko G')) →
  refines S (game_copy <- make_copy_game g ;; make_move game_copy m ;;; k game_copy) h
          (Search.child G m ≫= ko).
Proof.
  intros HG Hsep Hk.
  destruct (make_copy_game_spec _ _ _ HG) as (c & h1 & E1 & He1 & Hc & Hbey & Hsepc).
  unfold refines. rewrite (bind_eq _ _ _ _ _ E1).
  pose proof (make_move_refines h1 c _ m Hc (Hsepc Hsep)) as Hmv. unfold Search.child.
  destruct (Rules.make_move (Rules.make_copy_game G) m) as [G'|]; simpl.
  - destruct Hmv as (h2 & E2 & HG' & Hsep' & Hfr). rewrite (bind_eq _ _ _ _ _ E2).
    destruct (Hfr h He1 Hbey) as [He2 _].
    specialize (Hk c h2 G' He2 HG' Hsep'). unfold refines in Hk.
    destruct (ko G') as [b|]; [|done].
    destruct Hk as (a & h3 & E3 & He3 & HS). exists a, h3.
    split_and!; [done| |done]. by eapply extends_trans.
  - by apply bind_None.
Qed.

Lemma refines_for_append {A B} (l : list A) (body : A → M B) (pbody : A → option B) :
  ∀ h, (∀ x h', extends h h' → refines same (body x) h' (pbody x)) →
  refines same (for_append l body) h (mapM pbody l).
Proof.
  induction l as [|x l IH]; intros h Hb; [by apply refines_same_ret|].
  cbn [for_append mapM].
  apply (refines_bind same same); [apply Hb, extends_refl|].
  intros y y' h1 He1 Hy. unfold same in Hy. subst y'.
  apply (refines_bind same same).
  { apply IH. intros x' h' He'. apply Hb. by eapply extends_trans. }
  intros ys ys' h2 He2 Hys. unfold same in Hys. subst ys'.
  by apply refines_same_ret.
Qed.

(** ** [generate_game_tree] *)

Lemma generate_game_tree_refines depth : ∀ g h G root,
  abs_game h g = Some G → separate h g →
  refines same (generate_game_tree depth g root) h
          (Search.generate_game_tree depth G root).
Proof.
  induction depth as [|depth IH]; intros g h G root HG Hsep;
    destruct (abs_game_game _ _ _ HG) as (gm & Eg & Ew).
  - cbn [generate_game_tree Search.generate_game_tree].
    apply (refines_read _ _ _ _ _ _ (get_game_eq _ _ _ Eg)). rewrite Ew.
    by apply refines_same_ret.
  - cbn [generate_game_tree Search.generate_game_tree].
    apply (refines_read _ _ _ _ _ _ (get_game_eq _ _ _ Eg)). rewrite Ew.
    apply (refines_bind same same); [by apply find_legal_moves_refines|].
    intros pm pm' h1 He1 Hpm. unfold same in Hpm. subst pm'.
    apply (refines_bind same same).
    + apply refines_for_append. intros m h2 He2.
      apply (refines_child same (fun c => generate_game_tree depth c m)
               (fun G' => Search.generate_game_tree depth G' m) h2 g G m).
      * eapply abs_game_extends; [|done]. by eapply extends_trans.
      * eapply separate_extends; [|done]. by eapply extends_trans.
      * intros c h3 G' _ HG' Hsep'. by apply IH.
    + intros sts sts' h2 He2 Hs. unfold same in Hs. subst sts'.
      by apply refines_same_ret.
Qed.

(** ** [MinimaxBot.calc_best_move] *)

Lemma refines_lift {A} (o : option A) h : refines same (lift o) h o.
Proof. destruct o as [a|]; [|done]. exists a, h. split_and!; [done|apply extends_refl|done]. Qed.

Lemma minimax_loop g G h0 (l : list CheckersGameTree) :
  Forall (fun tree => ∀ g h G, abs_game h g = Some G → separate h g →
            refines same (MinimaxBot.calc_best_move g tree) h (Search.minimax G tree)) l →
  abs_game h0 g = Some G → separate h0 g →
  ∀ h, extends h0 h →
  refines same
    ((fix each (l : list CheckersGameTree) : M (list (Move * Z)) :=
        match l with
        | [] => ret []
        | subtree :: rest =>
            game_copy <- make_copy_game g ;;
            make_move game_copy (tree_move subtree) ;;;
            r <- MinimaxBot.calc_best_move game_copy subtree ;;
            rs <- each rest ;;
            ret (r :: rs)
        end) l) h
    (mapM (fun subtree => Search.child G (tree_move subtree)
                          ≫= fun G' => Search.minimax G' subtree) l).
Proof.
  intros Hl HG Hsep. induction Hl as [|st rest Hst Hrest IH]; intros h He.
  { by apply refines_same_ret. }
  cbn [mapM].
  assert (∀ (o : option Pure.Game) (f : Pure.Game → option (Move * Z))
            (k : Move * Z → option (list (Move * Z))),
            (o ≫= f) ≫= k = o ≫= (fun G' => f G' ≫= k)) as Hassoc
    by (by intros [?|] ??).
  rewrite Hassoc.
  apply (refines_child same
           (fun c => r <- MinimaxBot.calc_best_move c st ;; _) _ h g G (tree_move st)).
  - by eapply abs_game_extends.
  - by eapply separate_extends.
  - intros c h2 G' He2 HG' Hsep'.
    apply (refines_bind same same); [by apply Hst|].
    intros r r' h3 He3 Hr. unfold same in Hr. subst r'.
    apply (refines_bind same same).
    + apply IH. eapply extends_trans; [exact He|]. by eapply extends_trans.
    + intros rs rs' h4 _ Hrs. unfold same in Hrs. subst rs'. by apply refines_same_ret.
Qed.

Lemma minimax_refines : ∀ tree g h G,
  abs_game h g = Some G → separate h g →
  refines same (MinimaxBot.calc_best_move g tree) h (Search.minimax G tree).
Proof.
  induction tree as [tmove w sts IH] using tree_ind'. intros g h G HG Hsep.
  destruct sts as [|st rest].
  - cbn [MinimaxBot.calc_best_move Search.minimax].
    apply (refines_bind same same); [by apply material_refines|].
    intros v v' h1 _ Hv. unfold same in Hv. subst v'. by apply refines_same_ret.
  - cbn [MinimaxBot.calc_best_move Search.minimax].
    pose proof (minimax_loop g G h (st :: rest) IH HG Hsep h (extends_refl h)) as Hl.
    apply (refines_bind same same _ _ _ _ _ Hl).
    intros sm sm' h1 He1 Hs. unfold same in Hs. subst sm'.
    destruct (abs_game_game _ _ _ HG) as (gm & Eg & Ew).
    apply (refines_read _ _ _ _ _ _ (get_game_eq _ _ _ (game_extends _ _ _ _ He1 Eg))).
    rewrite Ew.
    apply (refines_bind same same); [apply refines_lift|].
    intros bm bm' h2 _ Hb. unfold same in Hb. subst bm'.
    destruct (negb _); by apply refines_same_ret.
Qed.

(** ** [MinimaxPruneBot.calc_best_move] *)

Lemma prune_loop_white g G tmove beta h0 (l : list CheckersGameTree) :
  Forall (fun tree => ∀ g h G alpha beta, abs_game h g = Some G → separate h g →
            refines same (MinimaxPruneBot.calc_best_move g tree alpha beta) h
                    (Search.alphabeta G tree alpha beta)) l →
  abs_game h0 g = Some G → separate h0 g →
  ∀ best_move alpha h, extends h0 h →
  refines same
    ((fix each (l : list CheckersGameTree) (best_move : Move * num)
               (alpha : num) : M (Move * num) :=
        match l with
        | [] => ret (MinimaxPruneBot.answer tmove best_move)
        | subtree :: rest =>
            game_copy <- make_copy_game g ;;
            make_move game_copy (tree_move subtree) ;;;
            potential_move <- MinimaxPruneBot.calc_best_move game_copy subtree alpha beta ;;
            let best_move :=
              if num_lt best_move.2 potential_move.2
              then potential_move else best_move in
            let alpha := num_max alpha best_move.2 in
            if num_le beta alpha then ret (MinimaxPruneBot.answer tmove best_move)
            else each rest best_move alpha
        end) l best_move alpha) h
    ((fix each (l : list CheckersGameTree) (best_move : Move * num)
               (alpha : num) : option (Move * num) :=
        match l with
        | [] => Some (MinimaxPruneBot.answer tmove best_move)
        | subtree :: rest =>
            G' ← Search.child G (tree_move subtree);
            potential_move ← Search.alphabeta G' subtree alpha beta;
            let best_move :=
              if num_lt best_move.2 potential_move.2
              then potential_move else best_move in
            let alpha := num_max alpha best_move.2 in
            if num_le beta alpha then Some (MinimaxPruneBot.answer tmove best_move)
            else each rest best_move alpha
        end) l best_move alpha).
Proof.
  intros Hl HG Hsep. induction Hl as [|st rest Hst Hrest IH]; intros best alpha h He.
  { by apply refines_same_ret. }
  apply (refines_child same
           (fun c => pm <- MinimaxPruneBot.calc_best_move c st alpha beta ;; _) _
           h g G (tree_move st)).
  - by eapply abs_game_extends.
  - by eapply separate_extends.
  - intros c h2 G' He2 HG' Hsep'.
    apply (refines_bind same same); [by apply Hst|].
    intros pm pm' h3 He3 Hr. unfold same in Hr. subst pm'. cbv zeta.
    destruct (num_le beta _); [by apply refines_same_ret|].
    apply IH. eapply extends_trans; [exact He|]. by eapply extends_trans.
Qed.

Lemma prune_loop_black g G tmove alpha h0 (l : list CheckersGameTree) :
  Forall (fun tree => ∀ g h G alpha beta, abs_game h g = Some G → separate h g →
            refines same (MinimaxPruneBot.calc_best_move g tree alpha beta) h
                    (Search.alphabeta G tree alpha beta)) l →
  abs_game h0 g = Some G → separate h0 g →
  ∀ best_move beta h, extends h0 h →
  refines same
    ((fix each (l : list CheckersGameTree) (best_move : Move * num)
               (beta : num) : M (Move * num) :=
        match l with
        | [] => ret (MinimaxPruneBot.answer tmove best_move)
        | subtree :: rest =>
            game_copy <- make_copy_game g ;;
            make_move game_copy (tree_move subtree) ;;;
            potential_move <- MinimaxPruneBot.calc_best_move game_copy subtree alpha beta ;;
            let best_move :=
              if num_lt potential_move.2 best_move.2
              then potential_move else best_move in
            let beta := num_min beta best_move.2 in
            if num_le beta alpha then ret (MinimaxPruneBot.answer tmove best_move)
            else each rest best_move beta
        end) l best_move beta) h
    ((fix each (l : list CheckersGameTree) (best_move : Move * num)
               (beta : num) : option (Move * num) :=
        match l with
        | [] => Some (MinimaxPruneBot.answer tmove best_move)
        | subtree :: rest =>
            G' ← Search.child G (tree_move subtree);
            potential_move ← Search.alphabeta G' subtree alpha beta;
            let best_move :=
              if num_lt potential_move.2 best_move.2
              then potential_move else best_move in
            let beta := num_min beta best_move.2 in
            if num_le beta alpha then Some (MinimaxPruneBot.answer tmove best_move)
            else each rest best_move beta
        end) l best_move beta).
Proof.
  intros Hl HG Hsep. induction Hl as [|st rest Hst Hrest IH]; intros best beta h He.
  { by apply refines_same_ret. }
  apply (refines_child same
           (fun c => pm <- MinimaxPruneBot.calc_best_move c st alpha beta ;; _) _
           h g G (tree_move st)).
  - by eapply abs_game_extends.
  - by eapply separate_extends.
  - intros c h2 G' He2 HG' Hsep'.
    apply (refines_bind same same); [by apply Hst|].
    intros pm pm' h3 He3 Hr. unfold same in Hr. subst pm'. cbv zeta.
    destruct (num_le _ alpha); [by apply refines_same_ret|].
    apply IH. eapply extends_trans; [exact He|]. by eapply extends_trans.
Qed.

Lemma alphabeta_refines : ∀ tree g h G alpha beta,
  abs_game h g = Some G → separate h g →
  refines same (MinimaxPruneBot.calc_best_move g tree alpha beta) h
          (Search.alphabeta G tree alpha beta).
Proof.
  induction tree as [tmove w sts IH] using tree_ind'. intros g h G alpha beta HG Hsep.
  destruct sts as [|st rest].
  - cbn [MinimaxPruneBot.calc_best_move Search.alphabeta].
    apply (refines_bind same same); [by apply material_refines|].
    intros v v' h1 _ Hv. unfold same in Hv. subst v'. by apply refines_same_ret.
  - destruct (abs_game_game _ _ _ HG) as (gm & Eg & Ew).
    unfold MinimaxPruneBot.calc_best_move; fold MinimaxPruneBot.calc_best_move.
    unfold Search.alphabeta; fold Search.alphabeta.
    apply (refines_read _ _ _ _ _ _ (get_game_eq _ _ _ Eg)). rewrite <- Ew.
    destruct (Pure.is_white_move G).
    + exact (prune_loop_white g G tmove beta h (st :: rest) IH HG Hsep _ _ h
               (extends_refl h)).
    + exact (prune_loop_black g G tmove alpha h (st :: rest) IH HG Hsep _ _ h
               (extends_refl h)).
Qed.


(** ** Scores *)

Ltac num_cases := repeat match goal with x : num |- _ => destruct x end.

Ltac z_cases :=
  repeat match goal with
  | |- context [(?x <? ?y)%Z] => destruct (Z.ltb_spec x y)
  | H : context [(?x <? ?y)%Z] |- _ => destruct (Z.ltb_spec x y)
  | |- context [(?x >? ?y)%Z] => rewrite (Z.gtb_ltb x y)
  | H : context [(?x >? ?y)%Z] |- _ => rewrite (Z.gtb_ltb x y) in H
  end.

Ltac num_solve :=
  intros; num_cases; unfold num_max, num_min, num_le, num_lt in *; simpl in *;
  z_cases; simpl in *;
  repeat match goal with H : Int _ = Int _ |- _ => injection H as H end;
  try done; try lia; try (f_equal; lia).

Lemma within_cases a beta w r :
  num_lt a beta = true → within a beta w r →
  (num_le (Int w) a = true ∧ num_le r a = true) ∨
  (num_lt a (Int w) = true ∧ num_lt (Int w) beta = true ∧ r = Int w) ∨
  (num_le beta (Int w) = true ∧ num_le beta r = true).
Proof.
  intros Hab (H1 & H2 & H3).
  destruct (num_le (Int w) a) eqn:E1; [left; auto|].
  destruct (num_le beta (Int w)) eqn:E2; [right; right; auto|].
  right. left.
  assert (num_lt a (Int w) = true) as E3 by (revert E1; num_solve).
  assert (num_lt (Int w) beta = true) as E4 by (revert E2; num_solve).
  auto.
Qed.

Lemma answer_value tmove best : (MinimaxPruneBot.answer tmove best).2 = best.2.
Proof. unfold MinimaxPruneBot.answer. by destruct (_ =? _)%string. Qed.

Lemma num_max_assoc a x t : num_max (num_max a x) t = num_max a (num_max x t).
Proof. num_solve. Qed.

Lemma num_min_assoc a x t : num_min (num_min a x) t = num_min a (num_min x t).
Proof. num_solve. Qed.

Lemma num_le_max_l b r : num_le b (num_max b r) = true.
Proof. num_solve. Qed.

Lemma num_le_min_l b r : num_le (num_min b r) b = true.
Proof. num_solve. Qed.

Lemma num_le_max_r a b : num_le b (num_max a b) = true.
Proof. num_solve. Qed.

Lemma num_le_min_r a b : num_le (num_min a b) b = true.
Proof. num_solve. Qed.

Lemma num_le_trans a b c : num_le a b = true → num_le b c = true → num_le a c = true.
Proof. num_solve. Qed.

Lemma num_le_false a b : num_le a b = false → num_lt b a = true.
Proof. num_solve. Qed.

Lemma num_max_absorb a x r : num_le x r = true → num_max (num_max a x) r = num_max a r.
Proof. num_solve. Qed.

Lemma num_min_absorb a x r : num_le r x = true → num_min (num_min a x) r = num_min a r.
Proof. num_solve. Qed.

(** The window of a maximising node after one more child, when the search
    goes on. *)
Lemma max_step a beta b r v :
  num_le b a = true → num_lt a beta = true → within a beta v r →
  num_le beta (num_max a (num_max b r)) = false →
  num_max a (num_max b r) = num_max a (Int v).
Proof.
  intros Hb Hab Hw Hcut.
  destruct (within_cases _ _ _ _ Hab Hw) as [[H1 H2]|[(H1 & H2 & ->)|[H1 H2]]];
    revert Hb Hab Hcut; try revert H1; try revert H2; clear; num_solve.
Qed.

Lemma max_cut a beta b r v :
  num_le b a = true → num_lt a beta = true → within a beta v r →
  num_le beta (num_max a (num_max b r)) = true →
  num_le beta (Int v) = true ∧ num_le beta (num_max b r) = true.
Proof.
  intros Hb Hab Hw Hcut.
  destruct (within_cases _ _ _ _ Hab Hw) as [[H1 H2]|[(H1 & H2 & ->)|[H1 H2]]];
    revert Hb Hab Hcut; try revert H1; try revert H2; clear; num_solve.
Qed.

Lemma max_cut_above a beta x t :
  num_le beta x = true → num_lt (num_max a (num_max x t)) beta = true → False.
Proof. num_solve. Qed.

Lemma min_step alpha bt b r v :
  num_le bt b = true → num_lt alpha bt = true → within alpha bt v r →
  num_le (num_min bt (num_min b r)) alpha = false →
  num_min bt (num_min b r) = num_min bt (Int v).
Proof.
  intros Hb Hab Hw Hcut.
  destruct (within_cases _ _ _ _ Hab Hw) as [[H1 H2]|[(H1 & H2 & ->)|[H1 H2]]];
    revert Hb Hab Hcut; try revert H1; try revert H2; clear; num_solve.
Qed.

Lemma min_cut alpha bt b r v :
  num_le bt b = true → num_lt alpha bt = true → within alpha bt v r →
  num_le (num_min bt (num_min b r)) alpha = true →
  num_le (Int v) alpha = true ∧ num_le (num_min b r) alpha = true.
Proof.
  intros Hb Hab Hw Hcut.
  destruct (within_cases _ _ _ _ Hab Hw) as [[H1 H2]|[(H1 & H2 & ->)|[H1 H2]]];
    revert Hb Hab Hcut; try revert H1; try revert H2; clear; num_solve.
Qed.

Lemma min_cut_below alpha bt x t :
  num_le x alpha = true → num_lt alpha (num_min bt (num_min x t)) = true → False.
Proof. num_solve. Qed.

(** ** The value [MinimaxBot] backs up *)

Lemma fold_best_max (l : list (Move * Z)) : ∀ b,
  Int (fold_left (fun best_move possible_move : Move * Z =>
                    if (possible_move.2 >? best_move.2)%Z
                    then possible_move else best_move) l b).2
  = num_max (Int b.2) (vmax l.*2).
Proof.
  induction l as [|x l IH]; intros b; [done|].
  cbn [fold_left fmap list_fmap vmax foldr]. rewrite IH.
  change (foldr _ NegInf (l.*2)) with (vmax l.*2). generalize (vmax l.*2). intros t.
  destruct x as [mx vx], b as [mb vb]. cbn [snd].
  destruct (Z.gtb_spec vx vb); cbn [snd]; revert t; num_solve.
Qed.

Lemma fold_best_min (l : list (Move * Z)) : ∀ b,
  Int (fold_left (fun best_move possible_move : Move * Z =>
                    if (possible_move.2 <? best_move.2)%Z
                    then possible_move else best_move) l b).2
  = num_min (Int b.2) (vmin l.*2).
Proof.
  induction l as [|x l IH]; intros b; [done|].
  cbn [fold_left fmap list_fmap vmin foldr]. rewrite IH.
  change (foldr _ PosInf (l.*2)) with (vmin l.*2). generalize (vmin l.*2). intros t.
  destruct x as [mx vx], b as [mb vb]. cbn [snd].
  destruct (Z.ltb_spec vx vb); cbn [snd]; revert t; num_solve.
Qed.

Lemma pick_best_gtb sm best :
  pick_best Z.gtb sm = Some best → Int best.2 = vmax sm.*2.
Proof.
  destruct sm as [|[mf vf] rest]; [done|]. intros [= <-]. rewrite fold_best_max.
  cbn [fmap list_fmap vmax foldr snd].
  change (foldr _ NegInf (rest.*2)) with (vmax rest.*2).
  generalize (vmax rest.*2). num_solve.
Qed.

Lemma pick_best_ltb sm best :
  pick_best Z.ltb sm = Some best → Int best.2 = vmin sm.*2.
Proof.
  destruct sm as [|[mf vf] rest]; [done|]. intros [= <-]. rewrite fold_best_min.
  cbn [fmap list_fmap vmin foldr snd].
  change (foldr _ PosInf (rest.*2)) with (vmin rest.*2).
  generalize (vmin rest.*2). num_solve.
Qed.

(** ** Pruning does not change the value *)

Lemma child_minimax_Some G st y :
  (Search.child G (tree_move st) ≫= fun G' => Search.minimax G' st) = Some y →
  ∃ G', Search.child G (tree_move st) = Some G' ∧ Search.minimax G' st = Some y.
Proof. destruct (Search.child G (tree_move st)) as [G'|]; [|done]. eauto. Qed.

Lemma ab_loop_white G tmove beta (l : list CheckersGameTree) (ys : list (Move * Z)) :
  Forall (fun tree => ∀ G m v, Search.minimax G tree = Some (m, v) →
            ∀ alpha beta, num_lt alpha beta = true →
            ∃ m' r, Search.alphabeta G tree alpha beta = Some (m', r) ∧
                    within alpha beta v r) l →
  Forall2 (fun st y => (Search.child G (tree_move st)
                        ≫= fun G' => Search.minimax G' st) = Some y) l ys →
  ∀ bm a, num_le bm.2 a = true → num_lt a beta = true →
  ∃ res,
    (fix each (l : list CheckersGameTree) (best_move : Move * num)
              (alpha : num) : option (Move * num) :=
       match l with
       | [] => Some (MinimaxPruneBot.answer tmove best_move)
       | subtree :: rest =>
           G' ← Search.child G (tree_move subtree);
           potential_move ← Search.alphabeta G' subtree alpha beta;
           let best_move :=
             if num_lt best_move.2 potential_move.2
             then potential_move else best_move in
           let alpha := num_max alpha best_move.2 in
           if num_le beta alpha then Some (MinimaxPruneBot.answer tmove best_move)
           else each rest best_move alpha
       end) l bm a = Some res ∧
    num_le bm.2 res.2 = true ∧
    (num_lt (num_max a (vmax ys.*2)) beta = true →
     num_max a res.2 = num_max a (vmax ys.*2)) ∧
    (num_le beta (num_max a (vmax ys.*2)) = true → num_le beta res.2 = true).
Proof.
  intros HP Hys. revert HP.
  induction Hys as [|st [my v] rest ys Hy Hrest IH]; intros HP bm a Hb Hab.
  - eexists. split; [reflexivity|]. rewrite answer_value. cbn [fmap list_fmap vmax foldr].
    destruct bm as [mb b]. cbn [snd] in *.
    split_and!.
    + revert Hb. clear. num_solve.
    + intros _. revert Hb. clear. num_solve.
    + intros H. exfalso. revert Hab H. clear. num_solve.
  - apply Forall_cons in HP as [Hst HP].
    apply child_minimax_Some in Hy as (G' & EG' & Hmm).
    destruct (Hst G' my v Hmm a beta Hab) as (m' & r & Eab & Hw).
    rewrite EG'. cbn [mbind option_bind]. rewrite Eab. cbn [mbind option_bind snd].
    cbv zeta.
    assert ((if num_lt bm.2 r then (m', r) else bm).2 = num_max bm.2 r) as Ebest
      by (unfold num_max; by destruct (num_lt bm.2 r)).
    cbn [fmap list_fmap vmax foldr snd].
    change (foldr _ NegInf (ys.*2)) with (vmax ys.*2).
    destruct (num_le beta (num_max a (if num_lt bm.2 r then (m', r) else bm).2)) eqn:Ecut.
    + eexists. split; [reflexivity|]. rewrite answer_value, Ebest. rewrite Ebest in Ecut.
      destruct (max_cut _ _ _ _ _ Hb Hab Hw Ecut) as [Hv Hr].
      split_and!; [apply num_le_max_l| |done].
      intros H. exfalso. exact (max_cut_above _ _ _ _ Hv H).
    + destruct (IH HP (if num_lt bm.2 r then (m', r) else bm)
                  (num_max a (if num_lt bm.2 r then (m', r) else bm).2))
        as (res & Eres & H1 & H2 & H3).
      { apply num_le_max_r. }
      { by apply num_le_false. }
      exists res. split; [exact Eres|].
      rewrite Ebest in *.
      pose proof (max_step _ _ _ _ _ Hb Hab Hw Ecut) as Estep.
      rewrite Estep, num_max_assoc in H2, H3.
      split_and!.
      * eapply num_le_trans; [apply num_le_max_l|exact H1].
      * intros HM. rewrite <- (H2 HM). rewrite <- Estep.
        symmetry. by apply num_max_absorb.
      * exact H3.
Qed.

Lemma ab_loop_black G tmove alpha (l : list CheckersGameTree) (ys : list (Move * Z)) :
  Forall (fun tree => ∀ G m v, Search.minimax G tree = Some (m, v) →
            ∀ alpha beta, num_lt alpha beta = true →
            ∃ m' r, Search.alphabeta G tree alpha beta = Some (m', r) ∧
                    within alpha beta v r) l →
  Forall2 (fun st y => (Search.child G (tree_move st)
                        ≫= fun G' => Search.minimax G' st) = Some y) l ys →
  ∀ bm bt, num_le bt bm.2 = true → num_lt alpha bt = true →
  ∃ res,
    (fix each (l : list CheckersGameTree) (best_move : Move * num)
              (beta : num) : option (Move * num) :=
       match l with
       | [] => Some (MinimaxPruneBot.answer tmove best_move)
       | subtree :: rest =>
           G' ← Search.child G (tree_move subtree);
           potential_move ← Search.alphabeta G' subtree alpha beta;
           let best_move :=
             if num_lt potential_move.2 best_move.2
             then potential_move else best_move in
           let beta := num_min beta best_move.2 in
           if num_le beta alpha then Some (MinimaxPruneBot.answer tmove best_move)
           else each rest best_move beta
       end) l bm bt = Some res ∧
    num_le res.2 bm.2 = true ∧
    (num_lt alpha (num_min bt (vmin ys.*2)) = true →
     num_min bt res.2 = num_min bt (vmin ys.*2)) ∧
    (num_le (num_min bt (vmin ys.*2)) alpha = true → num_le res.2 alpha = true).
Proof.
  intros HP Hys. revert HP.
  induction Hys as [|st [my v] rest ys Hy Hrest IH]; intros HP bm bt Hb Hab.
  - eexists. split; [reflexivity|]. rewrite answer_value. cbn [fmap list_fmap vmin foldr].
    destruct bm as [mb b]. cbn [snd] in *.
    split_and!.
    + revert Hb. clear. num_solve.
    + intros _. revert Hb. clear. num_solve.
    + intros H. exfalso. revert Hab H. clear. num_solve.
  - apply Forall_cons in HP as [Hst HP].
    apply child_minimax_Some in Hy as (G' & EG' & Hmm).
    destruct (Hst G' my v Hmm alpha bt Hab) as (m' & r & Eab & Hw).
    rewrite EG'. cbn [mbind option_bind]. rewrite Eab. cbn [mbind option_bind snd].
    cbv zeta.
    assert ((if num_lt r bm.2 then (m', r) else bm).2 = num_min bm.2 r) as Ebest
      by (unfold num_min; by destruct (num_lt r bm.2)).
    cbn [fmap list_fmap vmin foldr snd].
    change (foldr _ PosInf (ys.*2)) with (vmin ys.*2).
    destruct (num_le (num_min bt (if num_lt r bm.2 then (m', r) else bm).2) alpha) eqn:Ecut.
    + eexists. split; [reflexivity|]. rewrite answer_value, Ebest. rewrite Ebest in Ecut.
      destruct (min_cut _ _ _ _ _ Hb Hab Hw Ecut) as [Hv Hr].
      split_and!; [apply num_le_min_l| |done].
      intros H. exfalso. exact (min_cut_below _ _ _ _ Hv H).
    + destruct (IH HP (if num_lt r bm.2 then (m', r) else bm)
                  (num_min bt (if num_lt r bm.2 then (m', r) else bm).2))
        as (res & Eres & H1 & H2 & H3).
      { apply num_le_min_r. }
      { by apply num_le_false. }
      exists res. split; [exact Eres|].
      rewrite Ebest in *.
      pose proof (min_step _ _ _ _ _ Hb Hab Hw Ecut) as Estep.
      rewrite Estep, num_min_assoc in H2, H3.
      split_and!.
      * eapply num_le_trans; [exact H1|apply num_le_min_l].
      * intros HM. rewrite <- (H2 HM). rewrite <- Estep.
        symmetry. by apply num_min_absorb.
      * exact H3.
Qed.

Lemma within_max alpha beta v t r :
  num_lt alpha beta = true → Int v = t →
  (num_lt (num_max alpha t) beta = true → num_max alpha r = num_max alpha t) →
  (num_le beta (num_max alpha t) = true → num_le beta r = true) →
  within alpha beta v r.
Proof.
  intros Hab <- H2 H3.
  destruct (num_lt (num_max alpha (Int v)) beta) eqn:E.
  - specialize (H2 eq_refl). clear H3. unfold within. split_and!; num_solve.
  - assert (num_le beta r = true) as H by (apply H3; revert E; clear; num_solve).
    clear H2 H3. unfold within. split_and!; num_solve.
Qed.

Lemma within_min alpha beta v t r :
  num_lt alpha beta = true → Int v = t →
  (num_lt alpha (num_min beta t) = true → num_min beta r = num_min beta t) →
  (num_le (num_min beta t) alpha = true → num_le r alpha = true) →
  within alpha beta v r.
Proof.
  intros Hab <- H2 H3.
  destruct (num_lt alpha (num_min beta (Int v))) eqn:E.
  - specialize (H2 eq_refl). clear H3. unfold within. split_and!; num_solve.
  - assert (num_le r alpha = true) as H by (apply H3; revert E; clear; num_solve).
    clear H2 H3. unfold within. split_and!; num_solve.
Qed.

(** A node with subtrees runs the loop of its side over them. *)
Lemma alphabeta_node G tmove w sts alpha beta :
  sts ≠ [] →
  Search.alphabeta G (Tree tmove w sts) alpha beta =
  if Pure.is_white_move G then
    (fix each (l : list CheckersGameTree) (best_move : Move * num)
              (alpha : num) : option (Move * num) :=
       match l with
       | [] => Some (MinimaxPruneBot.answer tmove best_move)
       | subtree :: rest =>
           G' ← Search.child G (tree_move subtree);
           potential_move ← Search.alphabeta G' subtree alpha beta;
           let best_move :=
             if num_lt best_move.2 potential_move.2
             then potential_move else best_move in
           let alpha := num_max alpha best_move.2 in
           if num_le beta alpha then Some (MinimaxPruneBot.answer tmove best_move)
           else each rest best_move alpha
       end) sts (mkMove EmptyString false, NegInf) alpha
  else
    (fix each (l : list CheckersGameTree) (best_move : Move * num)
              (beta : num) : option (Move * num) :=
       match l with
       | [] => Some (MinimaxPruneBot.answer tmove best_move)
       | subtree :: rest =>
           G' ← Search.child G (tree_move subtree);
           potential_move ← Search.alphabeta G' subtree alpha beta;
           let best_move :=
             if num_lt potential_move.2 best_move.2
             then potential_move else best_move in
           let beta := num_min beta best_move.2 in
           if num_le beta alpha then Some (MinimaxPruneBot.answer tmove best_move)
           else each rest best_move beta
       end) sts (mkMove EmptyString false, PosInf) beta.
Proof. by destruct sts. Qed.

(** Whenever plain minimax gives a node the value [v], the search with a
    window gives an answer that is right for [v] and the window. *)
Lemma alphabeta_minimax : ∀ tree G m v,
  Search.minimax G tree = Some (m, v) →
  ∀ alpha beta, num_lt alpha beta = true →
  ∃ m' r, Search.alphabeta G tree alpha beta = Some (m', r) ∧ within alpha beta v r.
Proof.
  induction tree as [tmove w sts IH] using tree_ind'. intros G m v Hmm alpha beta Hab.
  destruct sts as [|st rest].
  - cbn [Search.minimax Search.alphabeta] in *.
    destruct (Rules.material G) as [x|]; cbn [mbind option_bind] in *; [|done].
    injection Hmm as <- <-. exists tmove, (Int x). split; [done|].
    unfold within. split_and!; num_solve.
  - unfold Search.minimax in Hmm; fold Search.minimax in Hmm.
    rewrite alphabeta_node by done.
    destruct (mapM _ (st :: rest)) as [sm|] eqn:Esm; cbn [mbind option_bind] in Hmm;
      [|done].
    apply mapM_Some in Esm.
    destruct (pick_best _ sm) as [best|] eqn:Ebest; cbn [mbind option_bind] in Hmm;
      [|done].
    assert (v = best.2) as -> by (destruct (negb _); by simplify_eq).
    destruct (Pure.is_white_move G).
    + destruct (ab_loop_white G tmove beta (st :: rest) sm IH Esm
                  (mkMove EmptyString false, NegInf) alpha)
        as ([m' r] & Eres & _ & H2 & H3); [by destruct alpha|done|].
      exists m', r. split; [exact Eres|].
      eapply within_max; [done|by apply pick_best_gtb|done..].
    + destruct (ab_loop_black G tmove alpha (st :: rest) sm IH Esm
                  (mkMove EmptyString false, PosInf) beta)
        as ([m' r] & Eres & _ & H2 & H3); [by destruct beta|done|].
      exists m', r. split; [exact Eres|].
      eapply within_min; [done|by apply pick_best_ltb|done..].
Qed.


(** ** The move the searches answer with *)






(** ** The search from the root with the full window *)




(** ** Generated trees *)

Lemma Forall_exists_Forall2 {A B} (Q : A → B → Prop) (l : list A) :
  Forall (fun x => ∃ y, Q x y) l → ∃ k, Forall2 Q l k.
Proof.
  induction 1 as [|x l [y Hy] _ [k Hk]]; [by exists []|].
  exists (y :: k). by constructor.
Qed.

Lemma child_total G ms m :
  wf8 (Pure.board G) → Rules.find_legal_moves G = Some ms → m ∈ ms →
  ∃ G', Search.child G m = Some G' ∧ wf8 (Pure.board G').
Proof.
  intros Hwf Hms Hm. unfold Search.child.
  apply (legal_move_total _ ms); [done| |done].
  rewrite <- Hms. by apply find_legal_moves_fields.
Qed.

Lemma material_total G : wf8 (Pure.board G) → is_Some (Rules.material G).
Proof.
  intros Hwf. unfold Rules.material.
  destruct (locations_total (Pure.board G) "white" Hwf) as [ws ->].
  destruct (locations_total (Pure.board G) "black" Hwf) as [bs ->].
  by eexists.
Qed.


Lemma height_le w root d (sts : list CheckersGameTree) :
  Forall (fun st => height st ≤ d) sts → height (Tree root w sts) ≤ S d.
Proof.
  intros H. cbn [height subtrees]. destruct sts as [|st rest]; [lia|].
  apply le_n_S. induction H as [|x l Hx _ IH]; [simpl; lia|].
  cbn [map foldr]. lia.
Qed.

(** What [generate_game_tree] returns on a board of eight rows of eight
    squares. *)
Lemma generated depth : ∀ G root, wf8 (Pure.board G) →
  ∃ tree, Search.generate_game_tree depth G root = Some tree ∧
    tree_move tree = root ∧ white_turn tree = Pure.is_white_move G ∧
    height tree ≤ depth ∧ is_Some (Search.minimax G tree) ∧
    ∀ ms, 0 < depth → Rules.find_legal_moves G = Some ms →
          tree_move <$> subtrees tree = ms.
Proof.
  induction depth as [|depth IH]; intros G root Hwf.
  - exists (Tree root (Pure.is_white_move G) []). split_and!; try done.
    + cbn [Search.minimax]. destruct (material_total G Hwf) as [v ->]. by eexists.
    + intros ms H. lia.
  - destruct (find_legal_moves_total G Hwf) as [ms Hms].
    assert (∃ sts, Forall2 (fun m st =>
              (Search.child G m ≫= fun G' => Search.generate_game_tree depth G' m)
                = Some st ∧
              tree_move st = m ∧ height st ≤ depth ∧
              is_Some (Search.child G (tree_move st)
                       ≫= fun G' => Search.minimax G' st)) ms sts) as [sts Hsts].
    { apply Forall_exists_Forall2, Forall_forall. intros m Hm.
      destruct (child_total G ms m Hwf Hms Hm) as (G' & EG' & Hwf').
      destruct (IH G' m Hwf') as (st & Est & Emv & _ & Hh & Hmm & _).
      exists st. rewrite Emv, EG'. by split_and!. }
    exists (Tree root (Pure.is_white_move G) sts).
    assert (mapM (fun m => Search.child G m
                           ≫= fun G' => Search.generate_game_tree depth G' m) ms
            = Some sts) as Emap.
    { apply mapM_Some. eapply Forall2_impl; [exact Hsts|]. by intros m st [? _]. }
    split_and!.
    + cbn [Search.generate_game_tree]. rewrite Hms. cbn [mbind option_bind].
      by rewrite Emap.
    + done.
    + done.
    + apply height_le. eapply Forall2_Forall_r; [exact Hsts|].
      apply Forall_forall. by intros m _ st (_ & _ & ? & _).
    + destruct sts as [|st rest].
      { cbn [Search.minimax]. destruct (material_total G Hwf) as [v ->]. by eexists. }
      unfold Search.minimax; fold Search.minimax.
      assert (is_Some (mapM (fun subtree => Search.child G (tree_move subtree)
                               ≫= fun G' => Search.minimax G' subtree) (st :: rest)))
        as [sm Esm].
      { apply mapM_is_Some. eapply Forall2_Forall_r; [exact Hsts|].
        apply Forall_forall. by intros m _ st0 (_ & _ & _ & ?). }
      rewrite Esm. cbn [mbind option_bind].
      apply mapM_Some, Forall2_length in Esm.
      destruct sm as [|y sm]; [done|]. unfold pick_best. cbn [mbind option_bind].
      destruct (negb _); by eexists.
    + intros ms' _ Hms'. cbn [subtrees]. rewrite Hms in Hms'. injection Hms' as <-.
      clear -Hsts. induction Hsts as [|m st ms sts (_ & E & _) _ IHs]; [done|].
      cbn [fmap list_fmap]. rewrite E. f_equal. exact IHs.
Qed.


(** ** Runs of methods that refine functions on values *)

Lemma refines_same_run {A} (m : M A) h o a h' :
  refines same m h o → m h = Some (a, h') → o = Some a ∧ extends h h'.
Proof.
  destruct o as [b|]; simpl.
  - intros (a0 & h0 & E & He & Hs) E'. unfold same in Hs. rewrite E in E'.
    by simplify_eq.
  - congruence.
Qed.

Lemma refines_same_Some {A} (m : M A) h b :
  refines same m h (Some b) → ∃ h', m h = Some (b, h') ∧ extends h h'.
Proof. intros (a & h' & E & He & Hs). unfold same in Hs. subst a. eauto. Qed.

(** ** The move at the root *)





(** ** The bots, run in the store *)

Lemma generate_game_tree_run depth g h G root :
  abs_game h g = Some G → separate h g → wf8 (Pure.board G) →
  ∃ tree h', generate_game_tree depth g root h = Some (tree, h') ∧ extends h h' ∧
    Search.generate_game_tree depth G root = Some tree.
Proof.
  intros HG Hsep Hwf.
  destruct (generated depth G root Hwf) as (tree & Et & _).
  pose proof (generate_game_tree_refines depth g h G root HG Hsep) as Href.
  rewrite Et in Href. apply refines_same_Some in Href as (h' & E & He).
  by exists tree, h'.
Qed.



(** ** A tree without subtrees *)

Lemma make_move_nothing g h : make_move g (mkMove EmptyString false) h = None.
Proof.
  unfold make_move. cbn [piece_captured negb move].
  apply bind_None. apply relocate_short. simpl. lia.
Qed.

Lemma minimax_bot_leaf g w h :
  (best_move <- MinimaxBot.calc_best_move g (Tree (mkMove EmptyString false) w []) ;;
   make_move g best_move.1 ;;;
   ret (Tree (mkMove EmptyString false) w [])) h = None.
Proof.
  cbn [MinimaxBot.calc_best_move]. unfold bind at 1 2.
  destruct (material g h) as [[v h1]|]; [|done]. unfold ret at 1. cbn [fst].
  apply bind_None, make_move_nothing.
Qed.

Lemma prune_bot_leaf g w h :
  (best_move <- MinimaxPruneBot.calc_best_move g (Tree (mkMove EmptyString false) w [])
                  NegInf PosInf ;;
   make_move g best_move.1 ;;;
   ret (Tree (mkMove EmptyString false) w [])) h = None.
Proof.
  cbn [MinimaxPruneBot.calc_best_move]. unfold bind at 1 2.
  destruct (material g h) as [[v h1]|]; [|done]. unfold ret at 1. cbn [fst].
  apply bind_None, make_move_nothing.
Qed.

Lemma generate_game_tree_leaf d g h G root tree h' :
  abs_game h g = Some G → separate h g → Rules.find_legal_moves G = Some [] →
  generate_game_tree d g root h = Some (tree, h') →
  tree = Tree root (Pure.is_white_move G) [].
Proof.
  intros HG Hsep Hms E.
  destruct (refines_same_run _ _ _ _ _
              (generate_game_tree_refines d g h G root HG Hsep) E) as [Et _].
  destruct d as [|d]; cbn [Search.generate_game_tree] in Et.
  - by injection Et as <-.
  - rewrite Hms in Et. cbn [mbind option_bind mapM] in Et. by injection Et as <-.
Qed.


(** ** Strings of digits *)

Lemma all_digits_app s t : all_digits (s +:+ t) = all_digits s && all_digits t.
Proof.
  induction s as [|c s IH]; [done|]. rewrite append_String. cbn [all_digits].
  rewrite IH. by rewrite andb_assoc.
Qed.

Lemma all_digits_uint d : all_digits (NilEmpty.string_of_uint d) = true.
Proof. induction d; cbn [NilEmpty.string_of_uint all_digits]; by rewrite ?IHd. Qed.

Lemma all_digits_str n : all_digits (str n) = true.
Proof. apply all_digits_uint. Qed.

Lemma digit_not_space c d : digit_of_ascii c = Some d → is_space c = false.
Proof.
  unfold digit_of_ascii, is_space. cbv zeta.
  destruct (48 <=? nat_of_ascii c) eqn:E1; [|done].
  destruct (nat_of_ascii c <=? 57) eqn:E2; [|done]. intros _.
  apply Nat.leb_le in E1, E2.
  apply orb_false_iff. split; apply andb_false_iff; right + left; apply Nat.leb_gt; lia.
Qed.

Lemma digit_code c d : digit_of_ascii c = Some d → 48 ≤ nat_of_ascii c ≤ 57.
Proof.
  unfold digit_of_ascii. cbv zeta.
  destruct (48 <=? nat_of_ascii c) eqn:E1; [|done].
  destruct (nat_of_ascii c <=? 57) eqn:E2; [|done]. intros _.
  apply Nat.leb_le in E1, E2. lia.
Qed.

(** ** Reversing and stripping *)

Lemma string_rev_app s t : string_rev (s +:+ t) = string_rev t +:+ string_rev s.
Proof.
  induction s as [|c s IH]; [by rewrite append_nil_r|].
  rewrite append_String. cbn [string_rev]. by rewrite IH, append_assoc.
Qed.

Lemma string_rev_involutive s : string_rev (string_rev s) = s.
Proof.
  induction s as [|c s IH]; [done|]. cbn [string_rev].
  by rewrite string_rev_app, IH.
Qed.

Lemma all_digits_rev s : all_digits (string_rev s) = all_digits s.
Proof.
  induction s as [|c s IH]; [done|]. cbn [string_rev all_digits].
  rewrite all_digits_app, IH. cbn [all_digits]. rewrite andb_true_r. apply andb_comm.
Qed.

Lemma lstrip_digits s : all_digits s = true → lstrip s = s.
Proof.
  destruct s as [|c s]; [done|]. cbn [all_digits lstrip].
  destruct (digit_of_ascii c) as [d|] eqn:E; [|done]. intros _.
  by rewrite (digit_not_space _ _ E).
Qed.

Lemma strip_digits_newline s :
  all_digits s = true → strip (s +:+ String "010" EmptyString) = s.
Proof.
  intros H. destruct s as [|c0 s0]; [reflexivity|].
  remember (String c0 s0) as s eqn:Es. unfold strip.
  assert (lstrip (s +:+ String "010" EmptyString) = s +:+ String "010" EmptyString) as ->.
  { subst s. rewrite append_String. cbn [lstrip all_digits] in *.
    destruct (digit_of_ascii c0) as [d|] eqn:E; [|done].
    by rewrite (digit_not_space _ _ E). }
  rewrite string_rev_app.
  change (string_rev (String "010" EmptyString)) with (String "010" EmptyString).
  rewrite append_String. cbn [lstrip]. change (is_space "010") with true. cbv iota.
  change (EmptyString +:+ string_rev s) with (string_rev s).
  rewrite lstrip_digits by by rewrite all_digits_rev.
  apply string_rev_involutive.
Qed.

(** ** [int] of what [str] wrote *)

Lemma digits_value_uint d : ∀ acc,
  digits_value acc (Some true) (NilEmpty.string_of_uint d) = Some (Nat.of_uint_acc d acc).
Proof.
  induction d; intros acc; cbn [NilEmpty.string_of_uint digits_value Nat.of_uint_acc];
    [done|..];
    (match goal with
     | |- context [digit_of_ascii ?c] => change (digit_of_ascii c) with
         (Some (nat_of_ascii c - 48))
     end; cbn [nat_of_ascii]; rewrite IHd; f_equal; f_equal;
     rewrite Nat.tail_mul_spec; simpl; lia).
Qed.

Lemma digits_value_str n : digits_value 0 None (str n) = Some n.
Proof.
  unfold str. rewrite <- (DecimalNat.Unsigned.of_to n) at 2.
  unfold Nat.of_uint.
  destruct (Nat.to_uint n) eqn:E.
  - exfalso. pose proof (DecimalNat.Unsigned.to_of (Nat.to_uint n)) as H.
    rewrite DecimalNat.Unsigned.of_to, E in H.
    by apply (DecimalFacts.unorm_nonnil Decimal.Nil).
  - apply (digits_value_uint (Decimal.D0 u) 0).
  - apply (digits_value_uint (Decimal.D1 u) 0).
  - apply (digits_value_uint (Decimal.D2 u) 0).
  - apply (digits_value_uint (Decimal.D3 u) 0).
  - apply (digits_value_uint (Decimal.D4 u) 0).
  - apply (digits_value_uint (Decimal.D5 u) 0).
  - apply (digits_value_uint (Decimal.D6 u) 0).
  - apply (digits_value_uint (Decimal.D7 u) 0).
  - apply (digits_value_uint (Decimal.D8 u) 0).
  - apply (digits_value_uint (Decimal.D9 u) 0).
Qed.

Lemma py_int_str n : py_int (str n +:+ String "010" EmptyString) = Some (Z.of_nat n).
Proof.
  unfold py_int. rewrite strip_digits_newline by apply all_digits_str.
  pose proof (digits_value_str n) as H. unfold str in *.
  destruct (Nat.to_uint n) eqn:E; cbn [NilEmpty.string_of_uint] in *;
    [done|rewrite H; done..].
Qed.


(** ** Rows of a file *)

Lemma file_rows_newline s :
  file_rows (String "010" s) = String "010" EmptyString :: file_rows s.
Proof. done. Qed.

Lemma file_rows_char c s r rs :
  (nat_of_ascii c =? 10) = false → file_rows s = r :: rs →
  file_rows (String c s) = String c r :: rs.
Proof. intros Hc Hs. cbn [file_rows]. by rewrite Hc, Hs. Qed.

Lemma file_rows_digits a : ∀ s r rs,
  all_digits a = true → file_rows s = r :: rs → file_rows (a +:+ s) = (a +:+ r) :: rs.
Proof.
  induction a as [|c a IH]; intros s r rs Ha Hs; [done|].
  cbn [all_digits] in Ha. apply andb_true_iff in Ha as [Hc Ha].
  rewrite !append_String. apply file_rows_char; [|by apply IH].
  destruct (digit_of_ascii c) as [d|] eqn:E; [|done].
  apply digit_code in E. apply Nat.eqb_neq. lia.
Qed.

Lemma flag_char (b : bool) s r rs :
  file_rows s = r :: rs →
  file_rows ((if b then "1" else "0") +:+ s) = ((if b then "1" else "0") +:+ r) :: rs.
Proof. intros Hs. destruct b; by apply file_rows_char. Qed.

(** A row [export_tree] writes is read back as one row. *)
Lemma file_rows_row tree rest :
  all_digits (move (tree_move tree)) = true →
  file_rows (export_row tree +:+ rest) = export_row tree :: file_rows rest.
Proof.
  intros Hm. unfold export_row. rewrite !append_assoc.
  apply file_rows_digits; [done|]. apply flag_char, flag_char.
  apply (file_rows_char ","); [done|].
  apply file_rows_digits; [apply all_digits_str|]. apply file_rows_newline.
Qed.

Lemma text_app rows rows' : text (rows ++ rows') = text rows +:+ text rows'.
Proof.
  induction rows as [|r rows IH]; [done|]. cbn [text foldr app].
  change (foldr String.append EmptyString (rows ++ rows')) with (text (rows ++ rows')).
  by rewrite IH, append_assoc.
Qed.

Lemma file_rows_text rows rest :
  Forall (fun r => ∀ rest, file_rows (r +:+ rest) = r :: file_rows rest) rows →
  file_rows (text rows +:+ rest) = rows ++ file_rows rest.
Proof.
  induction 1 as [|r rows Hr _ IH]; [done|]. cbn [text foldr].
  change (foldr String.append EmptyString rows) with (text rows).
  by rewrite append_assoc, Hr, IH.
Qed.

Lemma file_rows_not_nil c s : file_rows (String c s) ≠ [].
Proof.
  cbn [file_rows]. destruct (nat_of_ascii c =? 10); [done|].
  by destruct (file_rows s).
Qed.

Lemma file_rows_complete old : ∀ s,
  complete old = true → file_rows (old +:+ s) = file_rows old ++ file_rows s.
Proof.
  induction old as [|c old IH]; intros s Hc; [done|].
  cbn [complete] in Hc. apply andb_true_iff in Hc as [_ Hc].
  rewrite append_String. destruct old as [|c' old'].
  - apply Nat.eqb_eq in Hc. cbn [file_rows]. rewrite Hc. done.
  - specialize (IH s Hc). cbn [file_rows] in *.
    destruct (nat_of_ascii c =? 10); [by rewrite IH|].
    rewrite IH.
    pose proof (file_rows_not_nil c' old') as Hne. cbn [file_rows] in Hne.
    by destruct (if nat_of_ascii c' =? 10 then _ else _).
Qed.

(** ** The fields of a row *)

Lemma split_comma_char c s f fs :
  (nat_of_ascii c =? 44) = false → split_comma s = f :: fs →
  split_comma (String c s) = String c f :: fs.
Proof. intros Hc Hs. cbn [split_comma]. by rewrite Hc, Hs. Qed.

Lemma split_comma_digits a : ∀ s f fs,
  all_digits a = true → split_comma s = f :: fs →
  split_comma (a +:+ s) = (a +:+ f) :: fs.
Proof.
  induction a as [|c a IH]; intros s f fs Ha Hs; [done|].
  cbn [all_digits] in Ha. apply andb_true_iff in Ha as [Hc Ha].
  rewrite !append_String. apply split_comma_char; [|by apply IH].
  destruct (digit_of_ascii c) as [d|] eqn:E; [|done].
  apply digit_code in E. apply Nat.eqb_neq. lia.
Qed.

Lemma split_comma_flag (b : bool) s f fs :
  split_comma s = f :: fs →
  split_comma ((if b then "1" else "0") +:+ s) = ((if b then "1" else "0") +:+ f) :: fs.
Proof. intros Hs. destruct b; by apply split_comma_char. Qed.

Lemma split_comma_flag_end (b : bool) s fs :
  split_comma s = EmptyString :: fs →
  split_comma ((if b then "1" else "0") +:+ s) = (if b then "1" else "0") :: fs.
Proof. intros Hs. destruct b; by apply split_comma_char. Qed.

(** The move and the two flags, as [export_tree] writes them. *)
Lemma split_comma_row tree :
  all_digits (move (tree_move tree)) = true →
  split_comma (export_row tree) =
  [ move (tree_move tree)
      +:+ (if piece_captured (tree_move tree) then "1" else "0")
      +:+ (if white_turn tree then "1" else "0");
    str (length (subtrees tree)) +:+ String "010" EmptyString ].
Proof.
  intros Hm. unfold export_row.
  assert (split_comma (str (length (subtrees tree)) +:+ String "010" EmptyString)
          = [str (length (subtrees tree)) +:+ String "010" EmptyString]) as Hn.
  { apply split_comma_digits; [apply all_digits_str|done]. }
  apply split_comma_digits; [done|]. apply split_comma_flag, split_comma_flag_end.
  change (split_comma ("," +:+ ?x)) with (EmptyString :: split_comma x).
  by rewrite Hn.
Qed.

(** ** A node read back *)

Lemma length_app_string a t : String.length (a +:+ t) = String.length a + String.length t.
Proof. induction a as [|c a IH]; [done|]. rewrite append_String. simpl. by rewrite IH. Qed.

Lemma get_app_string a t i : String.get (String.length a + i) (a +:+ t) = String.get i t.
Proof. induction a as [|c a IH]; [done|]. rewrite append_String. simpl. exact IH. Qed.

Lemma substring_app_string a t : String.substring 0 (String.length a) (a +:+ t) = a.
Proof.
  induction a as [|c a IH]; [by destruct t|]. rewrite append_String. simpl. by rewrite IH.
Qed.

Lemma node_of_key m (c w : bool) :
  node_of (move m +:+ (if c then "1" else "0") +:+ (if w then "1" else "0"))
  = Some (Tree (mkMove (move m) c) w []).
Proof.
  unfold node_of, from_end, but_last_two.
  assert (String.length (move m +:+ (if c then "1" else "0") +:+ (if w then "1" else "0"))
          = String.length (move m) + 2) as ->.
  { rewrite !length_app_string. by destruct c, w. }
  rewrite !decide_True by lia.
  replace (String.length (move m) + 2 - 2) with (String.length (move m) + 0) by lia.
  replace (String.length (move m) + 2 - 1) with (String.length (move m) + 1) by lia.
  rewrite !get_app_string. rewrite Nat.add_0_r, substring_app_string.
  by destruct c, w.
Qed.

(** ** What [export_tree] writes *)

Lemma append_file_app name a b fs :
  append_file name b (append_file name a fs) = append_file name (a +:+ b) fs.
Proof.
  unfold append_file. rewrite lookup_insert_eq. cbn [default]. unfold id.
  by rewrite insert_insert_eq, append_assoc.
Qed.

Lemma export_tree_rows mode filename : ∀ tree fs,
  export_tree mode filename tree fs
  = append_file (filename +:+ ".txt") (text (exported mode tree)) fs.
Proof.
  induction tree as [m w sts IH] using tree_ind'. intros fs.
  assert (∀ acc fs0,
    (fix each (l : list CheckersGameTree) (fs : gmap string string) :=
       match l with
       | [] => fs
       | subtree :: rest => each rest (export_tree mode filename subtree fs)
       end) sts (append_file (filename +:+ ".txt") acc fs0)
    = append_file (filename +:+ ".txt")
        (acc +:+ text (concat (map (exported mode) sts))) fs0) as Hloop.
  { induction IH as [|st rest Hst _ IHrest]; intros acc fs0.
    - cbn [map concat text foldr]. by rewrite append_nil_r.
    - rewrite Hst, append_file_app, IHrest. cbn [map concat].
      by rewrite text_app, append_assoc. }
  destruct mode; cbn [export_tree exported subtrees].
  - rewrite append_file_app. change (EmptyString +:+ ?x) with x.
    rewrite Hloop. done.
  - rewrite Hloop, append_file_app. change (EmptyString +:+ ?x) with x.
    cbn [rows_after subtrees]. rewrite text_app. cbn [text foldr].
    by rewrite append_nil_r.
Qed.


(** ** [import_compile], one step at a time *)

Lemma import_compile_eq fuel' (data : list (list string)) :
  import_compile (S fuel') data =
  (first ← data !! 0;
   x ← first !! 0;
   root_tree ← node_of x;
   import_loop fuel' data first root_tree (length data) 1 0 []).
Proof. reflexivity. Qed.

Lemma import_loop_eq fuel' (data : list (list string)) (first : list string) root_tree
    steps data_index subtrees_added root_subtrees :
  import_loop fuel' data first root_tree steps data_index subtrees_added root_subtrees =
  if data_index <? length data then
    count ← first !! 1 ≫= py_int;
    if (Z.of_nat subtrees_added <? count)%Z then
      match steps with
      | O => None
      | S steps' =>
          row ← data !! data_index;
          n ← row !! 1 ≫= py_int;
          if (n =? 0)%Z then
            y ← row !! 0;
            leaf ← node_of y;
            import_loop fuel' data first root_tree steps' (data_index + 1)
              (subtrees_added + 1) (root_subtrees ++ [leaf])
          else
            value_and_skip ← import_compile fuel' (drop data_index data);
            import_loop fuel' data first root_tree steps'
              (data_index + value_and_skip.2) (subtrees_added + 1)
              (root_subtrees ++ [value_and_skip.1])
      end
    else Some (Tree (tree_move root_tree) (white_turn root_tree) root_subtrees,
               data_index)
  else Some (Tree (tree_move root_tree) (white_turn root_tree) root_subtrees,
             data_index).
Proof. destruct steps; reflexivity. Qed.

(** ** Rows in the order of the nodes *)

Lemma rows_before_cons tree :
  rows_before tree = export_row tree :: concat (map rows_before (subtrees tree)).
Proof. by destruct tree. Qed.

Lemma rows_after_snoc tree :
  rows_after tree = concat (map rows_after (subtrees tree)) ++ [export_row tree].
Proof. by destruct tree. Qed.

Lemma clean_node tree :
  clean tree = true →
  all_digits (move (tree_move tree)) = true ∧ Forall (fun st => clean st = true) (subtrees tree).
Proof.
  destruct tree as [m w sts]. cbn [clean tree_move subtrees]. intros H.
  apply andb_true_iff in H as [Hm Hs]. split; [done|].
  apply Forall_forall. intros st Hst. apply list_elem_of_In in Hst.
  by apply (proj1 (forallb_forall _ _) Hs).
Qed.

Lemma node_of_row tree :
  node_of (move (tree_move tree)
           +:+ (if piece_captured (tree_move tree) then "1" else "0")
           +:+ (if white_turn tree then "1" else "0"))
  = Some (Tree (tree_move tree) (white_turn tree) []).
Proof. rewrite node_of_key. by destruct (tree_move tree). Qed.

Lemma height_subtree m w sts st fuel' :
  st ∈ sts → height (Tree m w sts) < S fuel' → height st < fuel'.
Proof.
  intros Hin. cbn [height subtrees]. destruct sts as [|s0 sts0]; [by apply elem_of_nil in Hin|].
  intros H. apply Nat.succ_lt_mono in H.
  eapply Nat.le_lt_trans; [|exact H]. clear H.
  induction Hin as [x l|x y l _ IH]; cbn [map foldr]; lia.
Qed.

(** ** Reading rows written node first *)

Lemma import_loop_ok fuel' m w (sts : list CheckersGameTree) (first : list string) rest :
  first !! 1 ≫= py_int = Some (Z.of_nat (length sts)) →
  ∀ todo dn steps, sts = dn ++ todo → length todo ≤ steps →
    Forall (fun st => clean st = true ∧
              ∀ rest, import_compile fuel'
                        (map split_comma (rows_before st) ++ rest)
                      = Some (st, length (rows_before st))) todo →
    import_loop fuel'
      (first :: map split_comma (concat (map rows_before sts)) ++ rest)
      first (Tree m w []) steps (1 + length (concat (map rows_before dn)))
      (length dn) dn
    = Some (Tree m w sts, 1 + length (concat (map rows_before sts))).
Proof.
  intros Hcount. induction todo as [|st todo IH]; intros dn steps Ests Hsteps Hall.
  - rewrite app_nil_r in Ests. subst dn. rewrite import_loop_eq, Hcount.
    cbn [mbind option_bind tree_move white_turn]. rewrite Z.ltb_irrefl.
    by destruct (_ <? _).
  - apply Forall_cons in Hall as [[Hclean Hst] Hall].
    rewrite import_loop_eq.
    set (loop := import_loop fuel'
                   (first :: map split_comma (concat (map rows_before sts)) ++ rest)
                   first (Tree m w [])) in *.
    destruct steps as [|steps']; [simpl in Hsteps; lia|].
    destruct (clean_node st Hclean) as [Hm _].
    assert (concat (map rows_before sts)
            = concat (map rows_before dn) ++ rows_before st
              ++ concat (map rows_before todo)) as Erows.
    { rewrite Ests, map_app, concat_app. by cbn [map concat]. }
    assert (drop (1 + length (concat (map rows_before dn)))
              (first :: map split_comma (concat (map rows_before sts)) ++ rest)
            = map split_comma (rows_before st)
              ++ (map split_comma (concat (map rows_before todo)) ++ rest)) as Edrop.
    { cbn [Nat.add drop]. rewrite Erows, !map_app, <- !app_assoc.
      rewrite <- (length_map split_comma (concat (map rows_before dn))).
      apply drop_app_length. }
    assert ((first :: map split_comma (concat (map rows_before sts)) ++ rest)
              !! (1 + length (concat (map rows_before dn)))
            = Some (split_comma (export_row st))) as Erow.
    { rewrite <- (Nat.add_0_r (1 + _)), <- lookup_drop, Edrop.
      by rewrite rows_before_cons. }
    assert ((1 + length (concat (map rows_before dn))
             <? length (first :: map split_comma (concat (map rows_before sts)) ++ rest))
            = true) as ->.
    { apply Nat.ltb_lt. apply lookup_lt_Some in Erow. exact Erow. }
    rewrite Hcount. cbn [mbind option_bind].
    assert ((Z.of_nat (length dn) <? Z.of_nat (length sts))%Z = true) as ->.
    { apply Z.ltb_lt. rewrite Ests, length_app. simpl. lia. }
    rewrite Erow. cbn [mbind option_bind]. rewrite (split_comma_row st Hm).
    cbn [lookup list_lookup mbind option_bind]. rewrite py_int_str.
    cbn [mbind option_bind].
    assert (dn ++ st :: todo = (dn ++ [st]) ++ todo) as Eapp by by rewrite <- app_assoc.
    destruct (Z.eqb_spec (Z.of_nat (length (subtrees st))) 0) as [Hz|Hnz].
    + assert (subtrees st = []) as Hleaf by (destruct (subtrees st); [done|simpl in Hz; lia]).
      rewrite node_of_row. cbn [mbind option_bind].
      assert (Tree (tree_move st) (white_turn st) [] = st) as ->
        by (destruct st as [m0 w0 s0]; cbn [subtrees] in Hleaf; by subst).
      assert (1 + length (concat (map rows_before dn)) + 1
              = 1 + length (concat (map rows_before (dn ++ [st])))) as ->.
      { rewrite map_app, concat_app, length_app. cbn [map concat].
        rewrite app_nil_r, (rows_before_cons st), Hleaf. simpl. lia. }
      assert (length dn + 1 = length (dn ++ [st])) as -> by by rewrite length_app.
      apply IH; [by rewrite Ests|simpl in Hsteps; lia|done].
    + rewrite Edrop, Hst. cbn [mbind option_bind fst snd].
      assert (1 + length (concat (map rows_before dn)) + length (rows_before st)
              = 1 + length (concat (map rows_before (dn ++ [st])))) as ->.
      { rewrite map_app, concat_app, length_app. cbn [map concat].
        rewrite app_nil_r. lia. }
      assert (length dn + 1 = length (dn ++ [st])) as -> by by rewrite length_app.
      apply IH; [by rewrite Ests|simpl in Hsteps; lia|done].
Qed.

Lemma import_compile_rows : ∀ tree, clean tree = true →
  ∀ fuel rest, height tree < fuel →
    import_compile fuel (map split_comma (rows_before tree) ++ rest)
    = Some (tree, length (rows_before tree)).
Proof.
  induction tree as [m w sts IH] using tree_ind'. intros Hclean fuel rest Hfuel.
  destruct fuel as [|fuel']; [lia|].
  destruct (clean_node _ Hclean) as [Hm Hsts]. cbn [tree_move subtrees] in Hm, Hsts.
  rewrite rows_before_cons. cbn [subtrees map app].
  rewrite import_compile_eq. cbn [lookup list_lookup mbind option_bind].
  rewrite (split_comma_row (Tree m w sts) Hm).
  cbn [lookup list_lookup mbind option_bind].
  rewrite (node_of_row (Tree m w sts)).
  cbn [mbind option_bind tree_move white_turn subtrees].
  pose proof (import_loop_ok fuel' m w sts
    [move m +:+ (if piece_captured m then "1" else "0") +:+ (if w then "1" else "0");
     str (length sts) +:+ String "010" EmptyString] rest) as Hloop.
  specialize (Hloop (py_int_str (length sts)) sts [] (length
    ([move m +:+ (if piece_captured m then "1" else "0") +:+ (if w then "1" else "0");
      str (length sts) +:+ String "010" EmptyString]
     :: map split_comma (concat (map rows_before sts)) ++ rest)) eq_refl).
  cbn [map concat length Nat.add] in Hloop. cbn [length]. apply Hloop.
  - rewrite length_app, length_map. clear. induction sts as [|st sts IHs]; [simpl; lia|].
    cbn [map concat length]. rewrite length_app, rows_before_cons. simpl. lia.
  - apply Forall_forall. intros st Hst. split.
    + by apply (proj1 (Forall_forall _ _) Hsts).
    + intros rest'. apply (proj1 (Forall_forall _ _) IH st Hst).
      * by apply (proj1 (Forall_forall _ _) Hsts).
      * by eapply height_subtree.
Qed.

(** ** The mirror image *)

Lemma export_row_mirror tree : export_row (mirror tree) = export_row tree.
Proof.
  destruct tree as [m w sts]. unfold export_row. cbn [mirror tree_move white_turn subtrees].
  by rewrite length_reverse, length_map.
Qed.

Lemma rows_mirror : ∀ tree, rows_before (mirror tree) = reverse (rows_after tree).
Proof.
  induction tree as [m w sts IH] using tree_ind'.
  rewrite rows_before_cons, rows_after_snoc, export_row_mirror.
  cbn [mirror subtrees]. rewrite reverse_app. cbn [reverse rev_append app]. f_equal.
  induction IH as [|st rest Hst _ IHrest]; [done|].
  cbn [map concat]. rewrite reverse_cons, map_app, concat_app. cbn [map concat].
  by rewrite app_nil_r, reverse_app, IHrest, Hst.
Qed.

Lemma clean_mirror : ∀ tree, clean tree = true → clean (mirror tree) = true.
Proof.
  induction tree as [m w sts IH] using tree_ind'. cbn [clean mirror]. intros H.
  apply andb_true_iff in H as [Hm Hs]. apply andb_true_iff. split; [done|].
  apply forallb_forall. intros st Hst. apply list_elem_of_In in Hst.
  rewrite elem_of_reverse in Hst.
  apply list_elem_of_In, in_map_iff in Hst as (st0 & <- & Hin).
  apply list_elem_of_In in Hin.
  apply (proj1 (Forall_forall _ _) IH st0 Hin).
  apply (proj1 (forallb_forall _ _) Hs). by apply list_elem_of_In.
Qed.

Lemma height_lt_rows : ∀ tree, height tree < length (rows_before tree).
Proof.
  induction tree as [m w sts IH] using tree_ind'.
  rewrite rows_before_cons. cbn [height subtrees length].
  assert (sts = [] ∨ foldr Nat.max 0 (map height sts)
                      < length (concat (map rows_before sts))) as Hmax.
  { induction IH as [|st rest Hst _ IHrest]; [by left|]. right.
    cbn [map foldr concat]. rewrite length_app.
    destruct IHrest as [->|IHrest]; cbn [map foldr concat length]; lia. }
  destruct sts as [|s0 sts0]; [lia|]. destruct Hmax as [?|Hmax]; [done|]. lia.
Qed.

Lemma rows_after_whole : ∀ tree, clean tree = true →
  Forall (fun r => ∀ rest, file_rows (r +:+ rest) = r :: file_rows rest) (rows_after tree).
Proof.
  induction tree as [m w sts IH] using tree_ind'. intros Hclean.
  destruct (clean_node _ Hclean) as [Hm Hsts]. cbn [subtrees] in Hsts.
  rewrite rows_after_snoc. cbn [subtrees]. apply Forall_app. split.
  - clear Hclean Hm. induction IH as [|st rest Hst _ IHrest]; [constructor|].
    apply Forall_cons in Hsts as [Hc Hsts]. cbn [map concat]. apply Forall_app.
    split; [by apply Hst | by apply IHrest].
  - apply Forall_cons. split; [|constructor]. intros rest. by apply file_rows_row.
Qed.

Lemma map_reverse {A B} (f : A → B) l : map f (reverse l) = reverse (map f l).
Proof. change (f <$> reverse l = reverse (f <$> l)). apply fmap_reverse. Qed.

(** What [import_tree] makes of rows written subtrees first, after any text
    of whole rows. *)
Lemma import_tree_rows_after filename tree old fs :
  clean tree = true → complete old = true →
  fs !! (filename +:+ ".txt") = Some (old +:+ text (rows_after tree)) →
  import_tree filename fs = Some (mirror tree).
Proof.
  intros Hclean Hold Efs. unfold import_tree. rewrite Efs. cbn [mbind option_bind].
  rewrite (file_rows_complete _ _ Hold).
  rewrite <- (append_nil_r (text (rows_after tree))).
  rewrite (file_rows_text _ EmptyString (rows_after_whole tree Hclean)).
  cbn [file_rows]. rewrite app_nil_r, map_app, reverse_app.
  rewrite <- map_reverse, <- rows_mirror.
  rewrite import_compile_rows; [done|by apply clean_mirror|].
  rewrite length_app, length_map. pose proof (height_lt_rows (mirror tree)). lia.
Qed.


(** ** The claims *)

(** C5: if the list [find_legal_moves] returns holds a move with
    [piece_captured] set, every move of the list has it set. *)
Theorem find_legal_moves_only_captures self h ms h' :
  find_legal_moves self h = Some (ms, h') →
  (∃ m, m ∈ ms ∧ piece_captured m = true) →
  ∀ m, m ∈ ms → piece_captured m = true.
Proof.
  unfold find_legal_moves. intros H. inv_M. apply captures_first_all.
Qed.

Lemma find_legal_moves_only_captures_witness :
  ∃ ms h', find_legal_moves forced_capture_game.1 forced_capture_game.2 = Some (ms, h') ∧
           mkMove "2143" true ∈ ms ∧
           ∀ m, m ∈ ms → piece_captured m = true.
Proof.
  destruct (find_legal_moves forced_capture_game.1 forced_capture_game.2)
    as [[ms h']|] eqn:E; [|vm_compute in E; discriminate E].
  assert (mkMove "2143" true ∈ ms) as Hin.
  { vm_compute in E. injection E as <- _. apply list_elem_of_here. }
  exists ms, h'. split; [reflexivity|]. split; [exact Hin|].
  apply (find_legal_moves_only_captures _ _ _ _ E).
  exists (mkMove "2143" true). split; [exact Hin|reflexivity].
Defined.

(** C9: [find_legal_moves] leaves every object of the store as it was, so
    the board and the fields of the game read the same before and after. *)
Theorem find_legal_moves_leaves_state self h ms h' :
  find_legal_moves self h = Some (ms, h') →
  extends h h' ∧
  (∀ gm, games h !! self = Some gm → games h' !! self = Some gm) ∧
  (∀ G, abs_game h self = Some G → abs_game h' self = Some G).
Proof.
  intros H. apply extending_find_legal_moves in H.
  split_and!; [done | |]; intros ??.
  - by eapply game_extends.
  - by eapply abs_game_extends.
Qed.

Lemma find_legal_moves_leaves_state_witness :
  ∃ ms h', find_legal_moves double_capture_game.1 double_capture_game.2 = Some (ms, h') ∧
           extends double_capture_game.2 h'.
Proof.
  destruct (find_legal_moves double_capture_game.1 double_capture_game.2)
    as [[ms h']|] eqn:E; [|vm_compute in E; discriminate E].
  exists ms, h'. split; [reflexivity|].
  exact (proj1 (find_legal_moves_leaves_state _ _ _ _ E)).
Defined.


(** ** Further properties of the game *)

Ltac computed := vm_compute; reflexivity.
Ltac shares_nothing := apply separateb_sound; vm_compute; reflexivity.
Ltac eight_by_eight := apply wf8b_sound; vm_compute; reflexivity.

(** X1: [make_copy_game] returns a new game with the board contents and the
    side to move of the original, [gamestate] ['MENU'], [white_win] true,
    [moves_since_cap] 0, [is_draw] false and [main_game] false.  No object of
    the store it starts from is changed, and the game, the rows and the
    pieces of the copy are new objects. *)
Theorem make_copy_game_fresh self h G :
  abs_game h self = Some G →
  ∃ c h', make_copy_game self h = Some (c, h') ∧ extends h h' ∧ beyond h h' c ∧
    abs_game h' c =
    Some (Pure.mkGame (Pure.board G) (Pure.is_white_move G) "MENU" true 0 false false).
Proof.
  intros HG. destruct (make_copy_game_spec _ _ _ HG) as (c & h' & ? & ? & ? & ? & _).
  by exists c, h'.
Qed.

Lemma make_copy_game_fresh_witness :
  ∃ c h', make_copy_game forced_capture_game.1 forced_capture_game.2 = Some (c, h') ∧
    extends forced_capture_game.2 h' ∧ beyond forced_capture_game.2 h' c ∧
    abs_game h' c =
    Some (Pure.mkGame (Pure.board forced_capture_value)
            (Pure.is_white_move forced_capture_value) "MENU" true 0 false false).
Proof.
  apply (make_copy_game_fresh forced_capture_game.1 forced_capture_game.2
           forced_capture_value).
  computed.
Defined.

(** X2: a move made on the copy [make_copy_game] returned changes nothing of
    the game that was copied: its board and its fields read as before. *)
Theorem make_move_on_copy_keeps_original g h G c h1 m h2 :
  abs_game h g = Some G → separate h g →
  make_copy_game g h = Some (c, h1) → make_move c m h1 = Some (tt, h2) →
  extends h h2 ∧ abs_game h2 g = Some G.
Proof.
  intros HG Hsep Hc Hm.
  destruct (make_copy_game_spec _ _ _ HG) as (c' & h' & E & He & Hc' & Hbey & Hsep').
  rewrite E in Hc. injection Hc as -> ->.
  destruct (make_move_value _ _ _ _ _ Hc' (Hsep' Hsep) Hm) as (G' & _ & _ & _ & Hfr).
  destruct (Hfr h He Hbey) as [He2 _]. split; [done|]. by eapply abs_game_extends.
Qed.

Lemma make_move_on_copy_keeps_original_witness :
  extends forced_capture_game.2 forced_capture_copy_moved.2 ∧
  abs_game forced_capture_copy_moved.2 forced_capture_game.1 = Some forced_capture_value.
Proof.
  apply (make_move_on_copy_keeps_original forced_capture_game.1 forced_capture_game.2
           forced_capture_value forced_capture_copy.1 forced_capture_copy.2
           (mkMove "2143" true) forced_capture_copy_moved.2).
  - computed.
  - shares_nothing.
  - computed.
  - computed.
Defined.

(** X3: on an 8 by 8 board [find_legal_moves] returns, and the list it
    returns holds exactly the moves of the pieces of the side to move: the
    steps to an empty neighbouring square and the chains of captures, in the
    directions open to the piece; the steps are left out when a capture
    exists. *)
Theorem find_legal_moves_spec g h G :
  abs_game h g = Some G → separate h g → wf8 (Pure.board G) →
  ∃ ms h', find_legal_moves g h = Some (ms, h') ∧
    ∀ m, m ∈ ms ↔
      piece_move (Pure.board G) (Pure.is_white_move G) m ∧
      (piece_captured m = true ∨
       ∀ m', piece_move (Pure.board G) (Pure.is_white_move G) m' →
             piece_captured m' = false).
Proof.
  intros HG Hsep Hwf.
  destruct (find_legal_moves_run _ _ _ HG Hsep Hwf) as (ms & h' & E & _ & Hms).
  exists ms, h'. split; [done|]. intros m. by apply find_legal_moves_elem.
Qed.

Lemma find_legal_moves_spec_witness :
  ∃ ms h', find_legal_moves forced_capture_game.1 forced_capture_game.2 = Some (ms, h') ∧
    ∀ m, m ∈ ms ↔
      piece_move (Pure.board forced_capture_value)
                 (Pure.is_white_move forced_capture_value) m ∧
      (piece_captured m = true ∨
       ∀ m', piece_move (Pure.board forced_capture_value)
                        (Pure.is_white_move forced_capture_value) m' →
             piece_captured m' = false).
Proof.
  apply (find_legal_moves_spec forced_capture_game.1 forced_capture_game.2
           forced_capture_value).
  - computed.
  - shares_nothing.
  - eight_by_eight.
Defined.

(** X4: a chain of captures [find_legal_moves] returns never lands on the
    square it started from: the capturing piece is left on that square of
    the scratch board while the chain is followed. *)
Theorem capture_never_returns_to_origin g h G ms h' m :
  abs_game h g = Some G → separate h g → wf8 (Pure.board G) →
  find_legal_moves g h = Some (ms, h') → m ∈ ms → piece_captured m = true →
  ∃ loc path, move m = encode (loc :: path) ∧ path ≠ [] ∧
              Forall in_range (loc :: path) ∧ loc ∉ path.
Proof.
  intros HG Hsep Hwf E Hm Hc.
  pose proof (find_legal_moves_value _ _ _ _ _ HG Hsep E) as Hms.
  apply (find_legal_moves_elem _ _ _ Hwf Hms) in Hm as [Hm _].
  destruct Hm as (loc & pc & Hloc & Hget & Hside & [(d & _ & _ & ->)|(path & Hne & Hch & ->)]);
    [done|].
  exists loc, path. split_and!; [done|done| |].
  - apply Forall_cons. split; [done|]. by eapply chain_ok_in_range.
  - by eapply chain_ok_avoids.
Qed.

Lemma capture_never_returns_to_origin_witness :
  ∃ loc path, move (mkMove "214365" true) = encode (loc :: path) ∧ path ≠ [] ∧
              Forall in_range (loc :: path) ∧ loc ∉ path.
Proof.
  apply (capture_never_returns_to_origin double_capture_game.1 double_capture_game.2
           double_capture_value double_capture_moves.1 double_capture_moves.2).
  - computed.
  - shares_nothing.
  - eight_by_eight.
  - computed.
  - vm_compute. apply list_elem_of_further, list_elem_of_here.
  - reflexivity.
Defined.

(** X5: every move [find_legal_moves] returns on an 8 by 8 board can be
    made: [make_move] returns, and the board is again 8 by 8 with no row or
    piece object in two places. *)
Theorem legal_move_applies g h G ms h1 m :
  abs_game h g = Some G → separate h g → wf8 (Pure.board G) →
  find_legal_moves g h = Some (ms, h1) → m ∈ ms →
  ∃ h2 G', make_move g m h1 = Some (tt, h2) ∧ abs_game h2 g = Some G' ∧
           separate h2 g ∧ wf8 (Pure.board G').
Proof.
  intros HG Hsep Hwf E Hm.
  pose proof (find_legal_moves_value _ _ _ _ _ HG Hsep E) as Hms.
  pose proof (extending_find_legal_moves _ _ _ _ E) as He.
  assert (well_formed m) as Hwfm.
  { apply (find_legal_moves_elem _ _ _ Hwf Hms) in Hm as [Hm _].
    by eapply piece_move_well_formed. }
  destruct (make_move_run h1 g G m) as (h2 & G' & ? & _ & ? & ? & ?);
    [by eapply abs_game_extends | by eapply separate_extends | done | done |].
  by exists h2, G'.
Qed.

Lemma legal_move_applies_witness :
  ∃ h2 G', make_move forced_capture_game.1 (mkMove "2143" true) forced_capture_moves.2
           = Some (tt, h2) ∧
           abs_game h2 forced_capture_game.1 = Some G' ∧
           separate h2 forced_capture_game.1 ∧ wf8 (Pure.board G').
Proof.
  apply (legal_move_applies forced_capture_game.1 forced_capture_game.2
           forced_capture_value forced_capture_moves.1).
  - computed.
  - shares_nothing.
  - eight_by_eight.
  - computed.
  - vm_compute. apply list_elem_of_here.
Defined.

(** X6: [make_move] passes the turn to the other side, leaves [main_game]
    as it is, and sets [moves_since_cap] to 0 after a capture and to one more
    than before after any other move. *)
Theorem make_move_turn_and_counter g h G m h' :
  abs_game h g = Some G → separate h g → make_move g m h = Some (tt, h') →
  ∃ G', abs_game h' g = Some G' ∧
    Pure.is_white_move G' = negb (Pure.is_white_move G) ∧
    Pure.moves_since_cap G' =
      (if piece_captured m then 0 else Pure.moves_since_cap G + 1)%Z ∧
    Pure.main_game G' = Pure.main_game G.
Proof.
  intros HG Hsep E.
  destruct (make_move_value _ _ _ _ _ HG Hsep E) as (G' & HG' & Habs & _).
  destruct (make_move_result _ _ _ HG') as (legal & _ & ? & ? & ? & _).
  by exists G'.
Qed.

Lemma make_move_turn_and_counter_witness :
  ∃ G', abs_game forced_capture_moved.2 forced_capture_game.1 = Some G' ∧
    Pure.is_white_move G' = negb (Pure.is_white_move forced_capture_value) ∧
    Pure.moves_since_cap G' = 0%Z ∧
    Pure.main_game G' = Pure.main_game forced_capture_value.
Proof.
  apply (make_move_turn_and_counter forced_capture_game.1 forced_capture_moves.2
           forced_capture_value (mkMove "2143" true)).
  - computed.
  - shares_nothing.
  - computed.
Defined.

(** X7: what [make_move] decides about the end of the game.  On a game with
    [main_game] set: when the side now to move has no legal move the game
    ends and the other side has won; otherwise when [moves_since_cap] has
    reached 50 the game ends in a draw; otherwise [gamestate], [white_win]
    and [is_draw] stay as they were.  On a game with [main_game] unset they
    always stay as they were. *)
Theorem make_move_outcome g h G m h' :
  abs_game h g = Some G → separate h g → make_move g m h = Some (tt, h') →
  ∃ G' legal h'', abs_game h' g = Some G' ∧
    find_legal_moves g h' = Some (legal, h'') ∧
    if Pure.main_game G then
      if is_nil legal then
        Pure.gamestate G' = "END" ∧ Pure.white_win G' = negb (Pure.is_white_move G') ∧
        Pure.is_draw G' = Pure.is_draw G
      else if (50 <=? Pure.moves_since_cap G')%Z then
        Pure.gamestate G' = "END" ∧ Pure.white_win G' = true ∧ Pure.is_draw G' = true
      else
        Pure.gamestate G' = Pure.gamestate G ∧ Pure.white_win G' = Pure.white_win G ∧
        Pure.is_draw G' = Pure.is_draw G
    else
      Pure.gamestate G' = Pure.gamestate G ∧ Pure.white_win G' = Pure.white_win G ∧
      Pure.is_draw G' = Pure.is_draw G.
Proof.
  intros HG Hsep E.
  destruct (make_move_value _ _ _ _ _ HG Hsep E) as (G' & HG' & Habs & Hsep' & _).
  destruct (make_move_result _ _ _ HG') as (legal & Hlegal & _ & _ & _ & Hout).
  pose proof (find_legal_moves_refines _ _ _ Habs Hsep') as Href.
  rewrite Hlegal in Href. destruct Href as (ms & h'' & Efind & _ & Hs).
  unfold same in Hs. subst ms. by exists G', legal, h''.
Qed.

Lemma make_move_outcome_witness :
  ∃ G' legal h'', abs_game forced_capture_moved.2 forced_capture_game.1 = Some G' ∧
    find_legal_moves forced_capture_game.1 forced_capture_moved.2 = Some (legal, h'') ∧
    if Pure.main_game forced_capture_value then
      if is_nil legal then
        Pure.gamestate G' = "END" ∧ Pure.white_win G' = negb (Pure.is_white_move G') ∧
        Pure.is_draw G' = Pure.is_draw forced_capture_value
      else if (50 <=? Pure.moves_since_cap G')%Z then
        Pure.gamestate G' = "END" ∧ Pure.white_win G' = true ∧ Pure.is_draw G' = true
      else
        Pure.gamestate G' = Pure.gamestate forced_capture_value ∧
        Pure.white_win G' = Pure.white_win forced_capture_value ∧
        Pure.is_draw G' = Pure.is_draw forced_capture_value
    else
      Pure.gamestate G' = Pure.gamestate forced_capture_value ∧
      Pure.white_win G' = Pure.white_win forced_capture_value ∧
      Pure.is_draw G' = Pure.is_draw forced_capture_value.
Proof.
  apply (make_move_outcome forced_capture_game.1 forced_capture_moves.2
           forced_capture_value (mkMove "2143" true)).
  - computed.
  - shares_nothing.
  - computed.
Defined.

(** X8: [_update_pieces] moves no piece and changes no side or field of the
    game; a piece in one of the eight columns is a king afterwards exactly
    when it was one before or stands on the far row of its side (row 7 for
    white, row 0 for black). *)
Theorem update_pieces_crowns g h G h' :
  abs_game h g = Some G → separate h g → _update_pieces g h = Some (tt, h') →
  ∃ b', abs_game h' g =
        Some (Pure.mkGame b' (Pure.is_white_move G) (Pure.gamestate G) (Pure.white_win G)
                (Pure.moves_since_cap G) (Pure.is_draw G) (Pure.main_game G)) ∧
    ∀ loc,
      match Rules.get (Pure.board G) loc with
      | Some (Some pc) =>
          Rules.get b' loc =
          Some (Some (mkPiece (is_white pc)
                        (is_king pc || ((loc.2 <? 8) && Rules.crowned loc.1 pc))))
      | c => Rules.get b' loc = c
      end.
Proof.
  intros HG Hsep E.
  destruct (update_pieces_run _ _ _ _ HG Hsep E) as (b' & Hb' & Habs & _).
  exists b'. split; [done|]. intros loc. by apply update_pieces_get.
Qed.

Lemma update_pieces_crowns_witness :
  ∃ b', abs_game forced_capture_updated.2 forced_capture_game.1 =
        Some (Pure.mkGame b' (Pure.is_white_move forced_capture_value)
                (Pure.gamestate forced_capture_value) (Pure.white_win forced_capture_value)
                (Pure.moves_since_cap forced_capture_value)
                (Pure.is_draw forced_capture_value) (Pure.main_game forced_capture_value)) ∧
    ∀ loc,
      match Rules.get (Pure.board forced_capture_value) loc with
      | Some (Some pc) =>
          Rules.get b' loc =
          Some (Some (mkPiece (is_white pc)
                        (is_king pc || ((loc.2 <? 8) && Rules.crowned loc.1 pc))))
      | c => Rules.get b' loc = c
      end.
Proof.
  apply (update_pieces_crowns forced_capture_game.1 forced_capture_game.2
           forced_capture_value).
  - computed.
  - shares_nothing.
  - computed.
Defined.

(** X9: every move [find_legal_moves] returns is among the moves
    [find_legal_moves_one_piece] returns for one of the pieces on the board. *)
Theorem legal_move_of_one_piece g h G ms h1 m :
  abs_game h g = Some G → separate h g → wf8 (Pure.board G) →
  find_legal_moves g h = Some (ms, h1) → m ∈ ms →
  ∃ r c p ms' h2, board_get g r c h = Some (Some p, h) ∧
    find_legal_moves_one_piece g ((r, c), p) h = Some (ms', h2) ∧ m ∈ ms'.
Proof.
  intros HG Hsep Hwf E Hm.
  pose proof (find_legal_moves_value _ _ _ _ _ HG Hsep E) as Hms.
  apply (find_legal_moves_elem _ _ _ Hwf Hms) in Hm as [Hm Hcap].
  pose proof Hm as (loc & pc & Hloc & Hget & Hside & Hkind).
  destruct (abs_view _ _ _ HG Hsep) as (gm & rids & cb & b & Hview & EG).
  assert (Rules.get b loc = Some (Some pc)) as Hget' by (by rewrite EG in Hget).
  destruct (view_cell _ _ _ _ _ _ _ _ Hview Hget') as (p & Hp & Hpc).
  destruct (one_piece_run h g G loc p pc HG Hsep Hwf Hloc Hpc)
    as (pm & ms' & h2 & Hpm & -> & Eone & _).
  exists loc.1, loc.2, p, (captures_first pm), h2. split_and!.
  - apply (board_get_cell _ _ _ _ _ _ _ _ _ Hview). by destruct loc.
  - by destruct loc.
  - apply captures_first_elem. split.
    + by apply (probe_piece_elem _ _ _ _ _ _ Hpm).
    + destruct Hcap as [?|Hall]; [by left|]. right. intros m' Hm'.
      apply Hall. by eapply piece_move_holds.
Qed.

Lemma legal_move_of_one_piece_witness :
  ∃ r c p ms' h2,
    board_get forced_capture_game.1 r c forced_capture_game.2
    = Some (Some p, forced_capture_game.2) ∧
    find_legal_moves_one_piece forced_capture_game.1 ((r, c), p) forced_capture_game.2
    = Some (ms', h2) ∧
    mkMove "2143" true ∈ ms'.
Proof.
  apply (legal_move_of_one_piece forced_capture_game.1 forced_capture_game.2
           forced_capture_value forced_capture_moves.1 forced_capture_moves.2).
  - computed.
  - shares_nothing.
  - eight_by_eight.
  - computed.
  - vm_compute. apply list_elem_of_here.
Defined.

(** X10: [find_legal_moves_one_piece] looks at the one piece only.  For a
    piece that has no capture itself it returns every step of the piece to an
    empty neighbouring square, whatever the other pieces of its side can
    capture. *)
Theorem one_piece_keeps_quiet_moves g h G loc p pc :
  abs_game h g = Some G → separate h g → wf8 (Pure.board G) → in_range loc →
  pieces h !! p = Some pc →
  (∀ d, d ∈ Rules.chain_dirs (Pure.is_white_move G) (is_king pc) →
        jumps (Pure.board G) (Pure.is_white_move G) d loc = false) →
  ∃ ms h', find_legal_moves_one_piece g (loc, p) h = Some (ms, h') ∧
    ∀ m, m ∈ ms ↔
      ∃ d, d ∈ Rules.chain_dirs (Pure.is_white_move G) (is_king pc) ∧
           slides (Pure.board G) d loc = true ∧
           m = simple_move loc (Rules.target d 1 loc).
Proof.
  intros HG Hsep Hwf Hloc Hpc Hno.
  destruct (one_piece_run h g G loc p pc HG Hsep Hwf Hloc Hpc)
    as (pm & ms & h' & Hpm & -> & Eone & _).
  destruct (probe_piece_quiet _ _ _ _ _ Hpm Hno) as [Hquiet Hiff].
  exists (captures_first pm), h'. split; [done|].
  by rewrite (captures_first_quiet _ Hquiet).
Qed.

Lemma one_piece_keeps_quiet_moves_witness :
  (∃ ms h', find_legal_moves forced_capture_game.1 forced_capture_game.2 = Some (ms, h') ∧
            ms = [mkMove "2143" true]) ∧
  ∃ ms h', find_legal_moves_one_piece forced_capture_game.1 ((2, 5), 25)
             forced_capture_game.2 = Some (ms, h') ∧
    ∀ m, m ∈ ms ↔
      ∃ d, d ∈ Rules.chain_dirs (Pure.is_white_move forced_capture_value) false ∧
           slides (Pure.board forced_capture_value) d (2, 5) = true ∧
           m = simple_move (2, 5) (Rules.target d 1 (2, 5)).
Proof.
  split.
  - exists forced_capture_moves.1, forced_capture_moves.2. split; computed.
  - apply (one_piece_keeps_quiet_moves forced_capture_game.1 forced_capture_game.2
             forced_capture_value (2, 5) 25 (mkPiece true false)).
    + computed.
    + shares_nothing.
    + eight_by_eight.
    + split; simpl; lia.
    + computed.
    + intros d _. destruct d; computed.
Defined.

(** X11: on an 8 by 8 board [return_all_pieces_location] changes nothing and
    lists exactly the squares of the board that hold a piece of the colour
    asked for, each with the piece object that stands there. *)
Theorem return_all_pieces_location_lists g h G colour :
  abs_game h g = Some G → separate h g → wf8 (Pure.board G) →
  ∃ l, return_all_pieces_location g colour h = Some (l, h) ∧
    ∀ r c p, ((r, c), p) ∈ l ↔
      r < 8 ∧ c < 8 ∧ board_get g r c h = Some (Some p, h) ∧
      ∃ pc, pieces h !! p = Some pc ∧
            (colour = "any" ∨ (colour = "white" ∧ is_white pc = true) ∨
             (colour = "black" ∧ is_white pc = false)).
Proof.
  intros HG Hsep Hwf.
  destruct (return_all_pieces_location_elem h g G colour HG Hsep Hwf) as (l & E & Hl).
  exists l. split; [done|]. intros r c p. rewrite Hl.
  assert (∀ pc, Rules.selected colour pc = true ↔
            (colour = "any" ∨ (colour = "white" ∧ is_white pc = true) ∨
             (colour = "black" ∧ is_white pc = false))) as Hsel.
  { intros pc. unfold Rules.selected.
    destruct (String.eqb_spec colour "any") as [->|N1]; [by split; auto|].
    destruct (String.eqb_spec colour "white") as [->|N2].
    - destruct (is_white pc); simpl; split; try done; auto.
      + intros [?|[[_ ?]|[? _]]]; done.
    - destruct (String.eqb_spec colour "black") as [->|N3].
      + destruct (is_white pc); simpl; split; try done; auto.
        intros [?|[[? _]|[_ ?]]]; done.
      + simpl. split; [done|]. intros [?|[[? _]|[? _]]]; done. }
  split; intros (? & ? & ? & pc & ? & Hs); split_and!; try done; exists pc;
    (split; [done|]); by apply Hsel.
Qed.

Lemma return_all_pieces_location_lists_witness :
  ∃ l, return_all_pieces_location forced_capture_game.1 "white" forced_capture_game.2
       = Some (l, forced_capture_game.2) ∧
    ∀ r c p, ((r, c), p) ∈ l ↔
      r < 8 ∧ c < 8 ∧
      board_get forced_capture_game.1 r c forced_capture_game.2
      = Some (Some p, forced_capture_game.2) ∧
      ∃ pc, pieces forced_capture_game.2 !! p = Some pc ∧
            ("white" = "any" ∨ ("white" = "white" ∧ is_white pc = true) ∨
             ("white" = "black" ∧ is_white pc = false)).
Proof.
  apply (return_all_pieces_location_lists forced_capture_game.1 forced_capture_game.2
           forced_capture_value "white").
  - computed.
  - shares_nothing.
  - eight_by_eight.
Defined.

(** X12: a colour other than ['any'], ['white'] and ['black'] is no error:
    [return_all_pieces_location] returns the empty list. *)
Theorem return_all_pieces_location_unknown g h G colour :
  abs_game h g = Some G → separate h g → wf8 (Pure.board G) →
  colour ≠ "any" → colour ≠ "white" → colour ≠ "black" →
  return_all_pieces_location g colour h = Some ([], h).
Proof.
  intros HG Hsep Hwf N1 N2 N3.
  destruct (return_all_pieces_location_elem h g G colour HG Hsep Hwf) as (l & E & Hl).
  destruct l as [|[[r c] p] l]; [done|]. exfalso.
  destruct (proj1 (Hl r c p)) as (_ & _ & _ & pc & _ & Hs); [apply list_elem_of_here|].
  by rewrite selected_unknown in Hs.
Qed.

Lemma return_all_pieces_location_unknown_witness :
  return_all_pieces_location forced_capture_game.1 "red" forced_capture_game.2
  = Some ([], forced_capture_game.2).
Proof.
  apply (return_all_pieces_location_unknown forced_capture_game.1 forced_capture_game.2
           forced_capture_value "red").
  - computed.
  - shares_nothing.
  - eight_by_eight.
  - discriminate.
  - discriminate.
  - discriminate.
Defined.

(** X13: [make_move] raises on a move without capture whose digit string has
    fewer than four characters. *)
Theorem make_move_short g m h :
  piece_captured m = false → String.length (move m) < 4 → make_move g m h = None.
Proof.
  intros Hc Hlen. unfold make_move. rewrite Hc. cbn [negb].
  apply bind_None. by apply relocate_short.
Qed.

Lemma make_move_short_witness :
  make_move forced_capture_game.1 (mkMove "21" false) forced_capture_game.2 = None.
Proof.
  apply (make_move_short forced_capture_game.1 (mkMove "21" false)
           forced_capture_game.2).
  - reflexivity.
  - simpl. lia.
Defined.

(** ** Properties of the bots *)

(** X14: for every tree, whenever [MinimaxBot.calc_best_move] returns the
    score [v], [MinimaxPruneBot.calc_best_move] called with [-inf] and [inf]
    returns too, with the same score, and changes no object of the store it
    starts from. *)
Theorem pruning_keeps_value tree g h G m v h1 :
  abs_game h g = Some G → separate h g →
  MinimaxBot.calc_best_move g tree h = Some ((m, v), h1) →
  ∃ m' h2,
    MinimaxPruneBot.calc_best_move g tree NegInf PosInf h = Some ((m', Int v), h2) ∧
    extends h h2.
Proof.
  intros HG Hsep E.
  destruct (refines_same_run _ _ _ _ _ (minimax_refines tree g h G HG Hsep) E)
    as [Emm _].
  destruct (alphabeta_minimax tree G m v Emm NegInf PosInf eq_refl)
    as (m' & r & Eab & _ & _ & H3).
  rewrite H3 in Eab by done.
  pose proof (alphabeta_refines tree g h G NegInf PosInf HG Hsep) as Href.
  rewrite Eab in Href. apply refines_same_Some in Href as (h2 & E2 & He2).
  by exists m', h2.
Qed.

Lemma pruning_keeps_value_witness :
  ∃ m' h2,
    MinimaxPruneBot.calc_best_move double_capture_game.1 double_minimax.1 NegInf PosInf
      double_capture_game.2 = Some ((m', Int 0), h2) ∧
    extends double_capture_game.2 h2.
Proof.
  apply (pruning_keeps_value double_minimax.1 double_capture_game.1
           double_capture_game.2 double_capture_value (mkMove "214365" true) 0
           double_searched.2).
  - computed.
  - shares_nothing.
  - computed.
Defined.

(** X15: called with a window [alpha < beta], for every tree on which
    [MinimaxBot.calc_best_move] returns the score [v],
    [MinimaxPruneBot.calc_best_move] returns [v] itself when [v] lies
    strictly inside the window, a score not above [alpha] when [v] is not
    above [alpha], and a score not below [beta] when [v] is not below
    [beta]. *)
Theorem pruning_window tree g h G m v h1 alpha beta :
  abs_game h g = Some G → separate h g →
  MinimaxBot.calc_best_move g tree h = Some ((m, v), h1) →
  num_lt alpha beta = true →
  ∃ m' r h2,
    MinimaxPruneBot.calc_best_move g tree alpha beta h = Some ((m', r), h2) ∧
    (num_lt alpha (Int v) = true → num_lt (Int v) beta = true → r = Int v) ∧
    (num_le (Int v) alpha = true → num_le r alpha = true) ∧
    (num_le beta (Int v) = true → num_le beta r = true).
Proof.
  intros HG Hsep E Hab.
  destruct (refines_same_run _ _ _ _ _ (minimax_refines tree g h G HG Hsep) E)
    as [Emm _].
  destruct (alphabeta_minimax tree G m v Emm alpha beta Hab)
    as (m' & r & Eab & H1 & H2 & H3).
  pose proof (alphabeta_refines tree g h G alpha beta HG Hsep) as Href.
  rewrite Eab in Href. apply refines_same_Some in Href as (h2 & E2 & He2).
  by exists m', r, h2.
Qed.

Lemma pruning_window_witness :
  ∃ m' r h2,
    MinimaxPruneBot.calc_best_move double_capture_game.1 double_minimax.1
      (Int 1) (Int 5) double_capture_game.2 = Some ((m', r), h2) ∧
    (num_lt (Int 1) (Int 0) = true → num_lt (Int 0) (Int 5) = true → r = Int 0) ∧
    (num_le (Int 0) (Int 1) = true → num_le r (Int 1) = true) ∧
    (num_le (Int 5) (Int 0) = true → num_le (Int 5) r = true).
Proof.
  apply (pruning_window double_minimax.1 double_capture_game.1
           double_capture_game.2 double_capture_value (mkMove "214365" true) 0
           double_searched.2 (Int 1) (Int 5)).
  - computed.
  - shares_nothing.
  - computed.
  - reflexivity.
Defined.

(** X16: on a board of eight rows of eight squares [generate_game_tree]
    returns, and changes no object of the store it starts from.  The root of
    the tree carries the given move and the side to move, the tree is not
    higher than [depth], and for a [depth] above 0 the moves of the subtrees
    of the root are the moves [find_legal_moves] returns, in that order. *)
Theorem generate_game_tree_shape depth g h G root :
  abs_game h g = Some G → separate h g → wf8 (Pure.board G) →
  ∃ tree h', generate_game_tree depth g root h = Some (tree, h') ∧ extends h h' ∧
    tree_move tree = root ∧ white_turn tree = Pure.is_white_move G ∧
    height tree ≤ depth ∧
    ∀ ms h0, 0 < depth → find_legal_moves g h = Some (ms, h0) →
             tree_move <$> subtrees tree = ms.
Proof.
  intros HG Hsep Hwf.
  destruct (generated depth G root Hwf) as (tree & Et & Hroot & Hside & Hh & _ & Hms).
  pose proof (generate_game_tree_refines depth g h G root HG Hsep) as Href.
  rewrite Et in Href. apply refines_same_Some in Href as (h' & E & He).
  exists tree, h'. split_and!; try done.
  intros ms h0 Hd Ems. apply Hms; [done|]. by eapply find_legal_moves_value.
Qed.

Lemma generate_game_tree_shape_witness :
  ∃ tree h',
    generate_game_tree 2 double_capture_game.1 (mkMove EmptyString false)
      double_capture_game.2 = Some (tree, h') ∧
    extends double_capture_game.2 h' ∧
    tree_move tree = mkMove EmptyString false ∧
    white_turn tree = Pure.is_white_move double_capture_value ∧
    height tree ≤ 2 ∧
    ∀ ms h0, 0 < 2 →
             find_legal_moves double_capture_game.1 double_capture_game.2 = Some (ms, h0) →
             tree_move <$> subtrees tree = ms.
Proof.
  apply (generate_game_tree_shape 2 double_capture_game.1 double_capture_game.2
           double_capture_value (mkMove EmptyString false)).
  - computed.
  - shares_nothing.
  - eight_by_eight.
Defined.



(** X18: with [tree_depth] 0 the two bots that search a tree cannot move:
    the tree has no subtrees, [calc_best_move] answers with the move of the
    root, whose string is empty, and [make_move] raises on it. *)
Theorem bots_raise_at_depth_zero g h :
  MinimaxBot.make_move 0 g h = None ∧ MinimaxPruneBot.make_move 0 g h = None.
Proof.
  split.
  - unfold MinimaxBot.make_move.
    destruct (generate_game_tree 0 g (mkMove EmptyString false) h) as [[t ha]|] eqn:E;
      [|by apply bind_None].
    rewrite (bind_eq _ _ _ _ _ E). cbn [generate_game_tree] in E.
    apply bind_Some in E as (gm & h' & _ & Er). apply ret_Some in Er as [<- <-].
    apply minimax_bot_leaf.
  - unfold MinimaxPruneBot.make_move.
    destruct (generate_game_tree 0 g (mkMove EmptyString false) h) as [[t ha]|] eqn:E;
      [|by apply bind_None].
    rewrite (bind_eq _ _ _ _ _ E). cbn [generate_game_tree] in E.
    apply bind_Some in E as (gm & h' & _ & Er). apply ret_Some in Er as [<- <-].
    apply prune_bot_leaf.
Qed.

(** X19: when [find_legal_moves] returns the empty list, the [make_move] of
    each of the three bots raises, whatever the depth of the tree and
    whatever number is drawn. *)
Theorem bots_raise_without_moves d pick g h G h0 :
  abs_game h g = Some G → separate h g → find_legal_moves g h = Some ([], h0) →
  MinimaxBot.make_move d g h = None ∧ MinimaxPruneBot.make_move d g h = None ∧
  RandomBot.make_move pick g h = None.
Proof.
  intros HG Hsep Ems.
  pose proof (find_legal_moves_value _ _ _ _ _ HG Hsep Ems) as Hms.
  split_and!.
  - unfold MinimaxBot.make_move.
    destruct (generate_game_tree d g (mkMove EmptyString false) h) as [[t ha]|] eqn:E;
      [|by apply bind_None].
    rewrite (bind_eq _ _ _ _ _ E).
    rewrite (generate_game_tree_leaf _ _ _ _ _ _ _ HG Hsep Hms E).
    apply minimax_bot_leaf.
  - unfold MinimaxPruneBot.make_move.
    destruct (generate_game_tree d g (mkMove EmptyString false) h) as [[t ha]|] eqn:E;
      [|by apply bind_None].
    rewrite (bind_eq _ _ _ _ _ E).
    rewrite (generate_game_tree_leaf _ _ _ _ _ _ _ HG Hsep Hms E).
    apply prune_bot_leaf.
  - unfold RandomBot.make_move. rewrite (bind_eq _ _ _ _ _ Ems). by apply bind_None.
Qed.

Lemma bots_raise_without_moves_witness :
  MinimaxBot.make_move 3 lone_game.1 lone_game.2 = None ∧
  MinimaxPruneBot.make_move 3 lone_game.1 lone_game.2 = None ∧
  RandomBot.make_move 5 lone_game.1 lone_game.2 = None.
Proof.
  apply (bots_raise_without_moves 3 5 lone_game.1 lone_game.2 lone_value lone_moves.2).
  - computed.
  - shares_nothing.
  - computed.
Defined.

(** X20: on a board of eight rows of eight squares on which the side to move
    has a legal move, [RandomBot.make_move] returns whatever number is
    drawn; the move it plays is one of the moves [find_legal_moves] returns,
    and the game is afterwards what [make_move] makes of it with that
    move. *)
Theorem random_bot_plays_legal_move pick g h G ms h0 :
  abs_game h g = Some G → separate h g → wf8 (Pure.board G) →
  find_legal_moves g h = Some (ms, h0) → ms ≠ [] →
  ∃ m G' h1, ms !! (pick mod length ms) = Some m ∧
    RandomBot.make_move pick g h = Some (tt, h1) ∧
    Rules.make_move G m = Some G' ∧ abs_game h1 g = Some G' ∧ separate h1 g ∧
    wf8 (Pure.board G').
Proof.
  intros HG Hsep Hwf Ems Hne.
  destruct (refines_same_run _ _ _ _ _ (find_legal_moves_refines h g G HG Hsep) Ems)
    as [Hms He].
  destruct (lookup_lt_is_Some_2 ms (pick mod length ms)) as [m Hm].
  { apply Nat.mod_upper_bound. by destruct ms. }
  assert (m ∈ ms) as Hin by by eapply list_elem_of_lookup_2.
  assert (well_formed m) as Hwfm.
  { apply (find_legal_moves_elem _ _ _ Hwf Hms) in Hin as [Hpm _].
    by eapply piece_move_well_formed. }
  destruct (make_move_run h0 g G m (abs_game_extends _ _ _ _ He HG)
              (separate_extends _ _ _ He Hsep) Hwf Hwfm)
    as (h1 & G' & E1 & Emv & HG' & Hsep' & Hwf').
  exists m, G', h1. split_and!; try done.
  unfold RandomBot.make_move. rewrite (bind_eq _ _ _ _ _ Ems).
  assert (RandomBot.choice pick ms = Some m) as Ec by by destruct ms.
  rewrite Ec. exact E1.
Qed.

Lemma random_bot_plays_legal_move_witness :
  ∃ m G' h1, default_moves.1 !! (12 mod length default_moves.1) = Some m ∧
    RandomBot.make_move 12 default_game.1 default_game.2 = Some (tt, h1) ∧
    Rules.make_move default_value m = Some G' ∧
    abs_game h1 default_game.1 = Some G' ∧ separate h1 default_game.1 ∧
    wf8 (Pure.board G').
Proof.
  apply (random_bot_plays_legal_move 12 default_game.1 default_game.2 default_value
           default_moves.1 default_moves.2).
  - computed.
  - shares_nothing.
  - eight_by_eight.
  - computed.
  - discriminate.
Defined.

(** ** Properties of the tree codec *)

(** X21: [export_tree] changes no file but [filename + '.txt'], and keeps
    what that file held: it appends one row for every node of the tree.  The
    row of a node stands before the rows of its subtrees when every [write]
    reaches the file at once, and after them when the text a call wrote
    reaches the file as the call returns. *)
Theorem export_tree_appends mode filename tree fs :
  contents (filename +:+ ".txt") (export_tree mode filename tree fs)
  = contents (filename +:+ ".txt") fs +:+ text (exported mode tree) ∧
  ∀ name, name ≠ filename +:+ ".txt" →
          export_tree mode filename tree fs !! name = fs !! name.
Proof.
  rewrite export_tree_rows. unfold append_file, contents. split.
  - by rewrite lookup_insert_eq.
  - intros name Hne. by rewrite lookup_insert_ne.
Qed.

(** X22: when the text a call of [export_tree] wrote reaches the file as the
    call returns, [import_tree] of the file gives the mirror image of the
    exported tree: the same nodes, with the subtrees of every node in
    reverse order.  This holds for every tree whose moves are strings of
    digits, also when the file already held whole rows: only the tree
    exported last is read. *)
Theorem import_export_mirror filename tree fs :
  clean tree = true → complete (contents (filename +:+ ".txt") fs) = true →
  import_tree filename (export_tree FlushOnClose filename tree fs) = Some (mirror tree).
Proof.
  intros Hclean Hold.
  apply (import_tree_rows_after filename tree (contents (filename +:+ ".txt") fs));
    [done..|].
  rewrite export_tree_rows. unfold append_file, contents.
  by rewrite lookup_insert_eq.
Qed.

Lemma import_export_mirror_witness :
  import_tree "tree1"
    (export_tree FlushOnClose "tree1" sample_tree
       (export_tree FlushOnClose "tree1" leaf_tree ∅))
  = Some (mirror sample_tree).
Proof.
  apply (import_export_mirror "tree1" sample_tree
           (export_tree FlushOnClose "tree1" leaf_tree ∅)).
  - reflexivity.
  - vm_compute. reflexivity.
Defined.

(** X23: [import_tree] raises when the file does not exist or is empty. *)
Theorem import_tree_nothing filename fs :
  contents (filename +:+ ".txt") fs = EmptyString → import_tree filename fs = None.
Proof.
  unfold contents, import_tree. destruct (fs !! (filename +:+ ".txt")) as [s|]; [|done].
  intros E. change (s = EmptyString) in E. by subst s.
Qed.

Lemma import_tree_nothing_witness : import_tree "tree1" ∅ = None.
Proof. apply (import_tree_nothing "tree1" ∅). reflexivity. Defined.
